(** * LATTE / LAMMPS helper functions: a shallow embedding and its properties

    The development follows the two source files of the repository:

    - [example/example.py]: the Porezag carbon parameterization
      ([PorezagSKF], [PorezagPair]);
    - [latte_functions.py]: the table writers ([makeSKF],
      [makeLAMMPSPairwiseTable]), the parsing phase of [plotSKF] and
      [translateCoordinates]; then [getLATTEProperty], [getNumberOfAtoms],
      [refreshMetaData], [simulationDictionaryToLAMMPSData],
      [dat2GroupDict], [returnToBox], [computeAverageDisplacement] and
      [getCoordinateBounds].

    Conventions.  The closed-form functions of [example.py] are embedded over
    the real numbers: Python floats are read as the reals they denote, so
    that the derivative of the energy can be stated.  The table writers and
    the reader never compute with the table entries beyond a product, a
    comparison and the unit conversions; they are embedded over an abstract
    type of Python numbers with the operations they use ([PyNum]), and
    Python's [str] and [float] are operations of that interface.  Exceptions
    are modelled by [option]. *)

From Stdlib Require Import Reals Lra Lia List ZArith String Ascii.
From Stdlib Require Import DecimalString DecimalZ.
From stdpp Require Import gmap strings.

(* ================================================================== *)
(** * Part I.  The embedding *)
(* ================================================================== *)

(** ** The element dictionary

    The dictionary returned by an element function ([elementDict] in
    [PorezagSKF], [eD] in [makeSKF]): twenty named entries, in the order in
    which [PorezagSKF] lists them. *)
Record elementDict (num : Type) : Type := mkElementDict {
  Hss0 : num; Hsp0 : num; Hsd0 : num; Hpp0 : num; Hpp1 : num;
  Hpd0 : num; Hpd1 : num; Hdd0 : num; Hdd1 : num; Hdd2 : num;
  Sss0 : num; Ssp0 : num; Ssd0 : num; Spp0 : num; Spp1 : num;
  Spd0 : num; Spd1 : num; Sdd0 : num; Sdd1 : num; Sdd2 : num
}.

Arguments mkElementDict {num}.
Arguments Hss0 {num}. Arguments Hsp0 {num}. Arguments Hsd0 {num}.
Arguments Hpp0 {num}. Arguments Hpp1 {num}. Arguments Hpd0 {num}.
Arguments Hpd1 {num}. Arguments Hdd0 {num}. Arguments Hdd1 {num}.
Arguments Hdd2 {num}.
Arguments Sss0 {num}. Arguments Ssp0 {num}. Arguments Ssd0 {num}.
Arguments Spp0 {num}. Arguments Spp1 {num}. Arguments Spd0 {num}.
Arguments Spd1 {num}. Arguments Sdd0 {num}. Arguments Sdd1 {num}.
Arguments Sdd2 {num}.

(** ** [example/example.py] *)

Module Porezag.
Local Open Scope R_scope.

(** Python's comparisons on numbers, as booleans. *)
Definition Rgeb (x y : R) : bool := if Rge_dec x y then true else false.
Definition Rleb (x y : R) : bool := if Rle_dec x y then true else false.

(** [numpy.polynomial.chebyshev.chebval(x, c)] for a scalar [x] and a
    one-dimensional [c]: Clenshaw's recursion, run from the last
    coefficient down to the first.  [clenshaw] is the loop
    [for i in range(3, len(c) + 1)]; its list argument holds [c[-3]],
    [c[-4]], ..., [c[0]]. *)
Fixpoint clenshaw (x2 : R) (cs : list R) (c0 c1 : R) : R * R :=
  match cs with
  | [] => (c0, c1)
  | ci :: cs' => clenshaw x2 cs' (ci - c1) (c0 + c1 * x2)
  end.

(** An empty [c] makes numpy raise; the coefficient tables below have ten
    entries each, and the embedding returns [0] for the empty list. *)
Definition chebval (x : R) (c : list R) : R :=
  match rev c with
  | [] => 0
  | [c0] => c0 + 0 * x
  | c1 :: c0 :: cs =>
      let '(c0', c1') := clenshaw (2 * x) cs c0 c1 in
      c0' + c1' * x
  end.

(** [scipy.special.eval_chebyu(k, x)] for an integer order [k]: the
    three-term recurrence, with [U_{-1} = 0] and the reflection
    [U_k = - U_{-k-2}] below [-1]. *)
Fixpoint chebyu_loop (n : nat) (x2 : R) (b : R * R * R) : R * R * R :=
  match n with
  | O => b
  | S n' => let '(_, b1, b0) := b in chebyu_loop n' x2 (b1, b0, x2 * b0 - b1)
  end.

Definition eval_chebyu (k : Z) (x : R) : R :=
  if (k =? -1)%Z then 0
  else
    let '(k', sign) := if (k <? -1)%Z then ((- k - 2)%Z, -1) else (k, 1) in
    let '(_, _, b0) := chebyu_loop (Z.to_nat (k' + 1)) (2 * x) (0, -1, 0) in
    b0 * sign.

(** Coefficients of the Chebyshev terms of [PorezagSKF] (Hartree). *)
Definition HC_sssigma : list R :=
  [-0.4663805; 0.3528951; -0.1402985; 0.0050519; 0.0269723;
   -0.0158810; 0.0036716; 0.0010301; -0.0015546; 0.0008601].
Definition HC_spsigma : list R :=
  [0.3395418; -0.2250358; 0.0298224; 0.0653476; -0.0605786;
   0.0298962; -0.0099609; 0.0020609; 0.0001264; -0.0003381].
Definition HC_ppsigma : list R :=
  [0.2422701; -0.1315258; -0.0372696; 0.0942352; -0.0673216;
   0.0316900; -0.0117293; 0.0033519; -0.0004838; -0.0000906].
Definition HC_pppi : list R :=
  [-0.3793837; 0.3204470; -0.1956799; 0.0883986; -0.0300733;
   0.0074465; -0.0008563; -0.0004453; 0.0003842; -0.0001855].
Definition SC_sssigma : list R :=
  [0.4728644; -0.3661623; 0.1594782; -0.0204934; -0.0170732;
   0.0096695; -0.0007135; -0.0013826; 0.0007849; -0.0002005].
Definition SC_spsigma : list R :=
  [-0.3662838; 0.2490285; -0.0431248; -0.0584391; 0.0492775;
   -0.0150447; -0.0010758; 0.0027734; -0.0011214; 0.0002303].
(** The two tables below are swapped with respect to the table printed in
    Porezag's paper, as the source's comment explains. *)
Definition SC_ppsigma : list R :=
  [-0.1359608; 0.0226235; 0.1406440; -0.1573794; 0.0753818;
   -0.0108677; -0.0075444; 0.0051533; -0.0013747; 0.0000751].
Definition SC_pppi : list R :=
  [0.3715732; -0.3070867; 0.1707304; -0.0581555; 0.0061645;
   0.0051460; -0.0032776; 0.0009119; -0.0001265; -0.000227].

(** The eight local variables of [PorezagSKF]. *)
Record matrixElements : Type := mkMatrixElements {
  H_sssigma : R; H_spsigma : R; H_ppsigma : R; H_pppi : R;
  S_sssigma : R; S_spsigma : R; S_ppsigma : R; S_pppi : R
}.

(** [c[0]] of a coefficient array. *)
Definition c_0 (c : list R) : R := nth 0 c 0.

Definition PorezagSKF (r : R) : elementDict R :=
  (* initialize matrix elements *)
  let e := mkMatrixElements 0 0 0 0 0 0 0 0 in
  (* spatial cutoffs of parameterization *)
  let aa := 1 in
  let b := 7 in
  let e :=
    if Rgeb r aa && Rleb r b then
      let y := (2 * r - b - aa) / (b - aa) in
      (* compute Chebyshev polynomial part of f(r) *)
      let e := mkMatrixElements
        (H_sssigma e + chebval y HC_sssigma)
        (H_spsigma e + chebval y HC_spsigma)
        (H_ppsigma e + chebval y HC_ppsigma)
        (H_pppi e + chebval y HC_pppi)
        (S_sssigma e + chebval y SC_sssigma)
        (S_spsigma e + chebval y SC_spsigma)
        (S_ppsigma e + chebval y SC_ppsigma)
        (S_pppi e + chebval y SC_pppi) in
      (* add final term of f(r) *)
      mkMatrixElements
        (H_sssigma e - c_0 HC_sssigma / 2)
        (H_spsigma e - c_0 HC_spsigma / 2)
        (H_ppsigma e - c_0 HC_ppsigma / 2)
        (H_pppi e - c_0 HC_pppi / 2)
        (S_sssigma e - c_0 SC_sssigma / 2)
        (S_spsigma e - c_0 SC_spsigma / 2)
        (S_ppsigma e - c_0 SC_ppsigma / 2)
        (S_pppi e - c_0 SC_pppi / 2)
    else e in
  {| Hss0 := H_sssigma e; Hsp0 := H_spsigma e; Hsd0 := 0;
     Hpp0 := H_ppsigma e; Hpp1 := H_pppi e; Hpd0 := 0; Hpd1 := 0;
     Hdd0 := 0; Hdd1 := 0; Hdd2 := 0;
     Sss0 := S_sssigma e; Ssp0 := S_spsigma e; Ssd0 := 0;
     Spp0 := S_ppsigma e; Spp1 := S_pppi e; Spd0 := 0; Spd1 := 0;
     Sdd0 := 0; Sdd1 := 0; Sdd2 := 0 |}.

Definition VC_rep : list R :=
  [2.2681036; -1.9157174; 1.1677745; -0.5171036; 0.1529242;
   -0.0219294; -0.0000002; -0.0000001; -0.0000005; 0.0000009].

(** [range(lo, hi)] over the integers. *)
Definition range (lo hi : Z) : list Z :=
  map (fun i => (lo + Z.of_nat i)%Z) (seq 0 (Z.to_nat (hi - lo))).

(** [PorezagPair] returns the pair [(energy, force)]. *)
Definition PorezagPair (r : R) : R * R :=
  let energy := 0 in
  let force := 0 in
  (* spatial cutoffs of parameterization *)
  let aa := 1 in
  let b := 4.1 in
  if Rgeb r aa && Rleb r b then
    let y := (2 * r - b - aa) / (b - aa) in
    let energy := chebval y VC_rep - c_0 VC_rep / 2 in
    let dy_by_dr := 2 / (b - aa) in
    let force :=
      fold_left
        (fun force m =>
           force + - nth (Z.to_nat (m - 1)) VC_rep 0 * IZR (m - 1)
                     * eval_chebyu (m - 2) y * dy_by_dr)
        (range 1 11) force in
    (energy, force)
  else (energy, force).

(** The Chebyshev polynomials as the specification defines them:
    [T_0 = 1], [T_1 = y], [T_k = 2y T_{k-1} - T_{k-2}], and
    [U_0 = 1], [U_1 = 2y], [U_n = 2y U_{n-1} - U_{n-2}]. *)
Fixpoint chebT (k : nat) (y : R) : R :=
  match k with
  | O => 1
  | S k' =>
      match k' with
      | O => y
      | S k'' => 2 * y * chebT k' y - chebT k'' y
      end
  end.

Fixpoint chebU (n : nat) (y : R) : R :=
  match n with
  | O => 1
  | S n' =>
      match n' with
      | O => 2 * y
      | S n'' => 2 * y * chebU n' y - chebU n'' y
      end
  end.

(** [U_{n-1}], with [U_{-1} = 0]. *)
Definition chebU_pred (n : nat) (y : R) : R :=
  match n with
  | O => 0
  | S n' => chebU n' y
  end.

(** The series [sum_i c[i] T_{k+i}(y)]. *)
Fixpoint cheb_series (k : nat) (c : list R) (y : R) : R :=
  match c with
  | [] => 0
  | ck :: c' => ck * chebT k y + cheb_series (S k) c' y
  end.

(** The derivative of the series [cheb_series k c]:
    [sum_i c[i] (k+i) U_{k+i-1}(y)]. *)
Fixpoint cheb_dseries (k : nat) (c : list R) (y : R) : R :=
  match c with
  | [] => 0
  | ck :: c' => ck * (INR k * chebU_pred k y) + cheb_dseries (S k) c' y
  end.

(** The all-zero element dictionary. *)
Definition zeroElements : elementDict R :=
  mkElementDict 0 0 0 0 0 0 0 0 0 0 0 0 0 0 0 0 0 0 0 0.

End Porezag.

(** ** Python strings

    Strings are sequences of characters with code points below 256.  The
    functions below are the [str] methods that [latte_functions.py] calls. *)

(** [all(p(c) for c in s)] *)
Fixpoint string_forallb (p : ascii -> bool) (s : string) : bool :=
  match s with
  | EmptyString => true
  | String c s' => p c && string_forallb p s'
  end.

Module PyStr.

Definition nl : ascii := "010"%char.
Definition newline : string := String nl "".
Definition space : string := " ".

(** [c.isspace()] *)
Definition isspace (c : ascii) : bool :=
  match c with
  | "009" | "010" | "011" | "012" | "013"
  | "028" | "029" | "030" | "031" | " " | "133" | "160" => true
  | _ => false
  end%char.

(** [c in s] for a character [c] *)
Fixpoint contains (c : ascii) (s : string) : bool :=
  match s with
  | EmptyString => false
  | String d s' => if Ascii.eqb d c then true else contains c s'
  end.

(** [s.replace(c, '')] for a character [c] *)
Fixpoint remove (c : ascii) (s : string) : string :=
  match s with
  | EmptyString => EmptyString
  | String d s' => if Ascii.eqb d c then remove c s' else String d (remove c s')
  end.

(** [sep.join(l)] *)
Definition join (sep : string) (l : list string) : string :=
  String.concat sep l.

Definition cons_nonempty (t : string) (ts : list string) : list string :=
  match t with
  | EmptyString => ts
  | _ => t :: ts
  end.

(** [split_go s] is the (possibly empty) run of non-blank characters at the
    head of [s], and the words after it. *)
Fixpoint split_go (s : string) : string * list string :=
  match s with
  | EmptyString => (EmptyString, [])
  | String c s' =>
      let '(t, ts) := split_go s' in
      if isspace c then (EmptyString, cons_nonempty t ts) else (String c t, ts)
  end.

(** [s.split()]: the maximal runs of non-blank characters. *)
Definition split (s : string) : list string :=
  let '(t, ts) := split_go s in cons_nonempty t ts.

(** [s.split(sep)] for a character [sep]: empty pieces are kept. *)
Fixpoint split_on (sep : ascii) (s : string) : list string :=
  match s with
  | EmptyString => [EmptyString]
  | String c s' =>
      if Ascii.eqb c sep then EmptyString :: split_on sep s'
      else match split_on sep s' with
           | t :: ts => String c t :: ts
           | [] => [String c EmptyString]
           end
  end.

(** [f.readlines()] on the text of a file whose lines end in a newline
    character: every line keeps its newline. *)
Fixpoint readlines (s : string) : list string :=
  match s with
  | EmptyString => []
  | String c s' =>
      if Ascii.eqb c nl then String c EmptyString :: readlines s'
      else match readlines s' with
           | l :: ls => String c l :: ls
           | [] => [String c EmptyString]
           end
  end.

(** The text of a file after a sequence of [write] calls. *)
Definition written (chunks : list string) : string :=
  fold_right String.append EmptyString chunks.

(** A string without the character [c]. *)
Definition lacks (c : ascii) (s : string) : Prop := contains c s = false.

(** A word: a non-empty string without blanks, that is, a string that
    [split] returns as it is. *)
Definition word (s : string) : Prop :=
  s <> EmptyString /\ string_forallb (fun c => negb (isspace c)) s = true.

(** A double quote, for the messages that print one. *)
Definition dquote : string := String (ascii_of_nat 34) EmptyString.

(** [s[0:n]] *)
Definition slice_to (n : nat) (s : string) : string := substring 0 n s.

(** [s.lstrip()], [s.rstrip()] and [s.strip()] *)
Fixpoint lstrip (s : string) : string :=
  match s with
  | EmptyString => EmptyString
  | String c s' => if isspace c then lstrip s' else s
  end.

Fixpoint rstrip (s : string) : string :=
  match s with
  | EmptyString => EmptyString
  | String c s' =>
      match rstrip s' with
      | EmptyString => if isspace c then EmptyString else String c EmptyString
      | t => String c t
      end
  end.

Definition strip (s : string) : string := rstrip (lstrip s).

End PyStr.

(** ** Python numbers

    [num] stands for the numeric objects the functions handle (Python
    [int]s and [float]s, numpy scalars).  The operations are the ones the
    source applies to them. *)

Class PyNum (num : Type) : Type := {
  (** the [int] object [z] *)
  num_of_Z : Z -> num;
  (** the [float] written [m e<k>] in decimal, e.g. [0.529177] is
      [num_float 529177 (-6)] *)
  num_float : Z -> Z -> num;
  num_add : num -> num -> num;
  num_sub : num -> num -> num;
  num_mul : num -> num -> num;
  num_div : num -> num -> num;
  (** [x < y] and [x == y] *)
  num_ltb : num -> num -> bool;
  num_eqb : num -> num -> bool;
  (** [str(x)] *)
  py_str : num -> string;
  (** [float(x)] for a number [x] *)
  py_float_of_num : num -> num;
  (** [float(s)] for a string [s]; [None] stands for [ValueError] *)
  py_float : string -> option num;
  (** [int(x)]; [None] stands for the error raised on [inf] and [nan] *)
  py_int : num -> option Z
}.

(** The characters of the text of a number: digits, sign, point, exponent
    mark, and the letters of [inf] and [nan]. *)
Definition number_char (c : ascii) : bool :=
  match c with
  | "0" | "1" | "2" | "3" | "4" | "5" | "6" | "7" | "8" | "9"
  | "+" | "-" | "." | "e" | "i" | "n" | "f" | "a" => true
  | _ => false
  end%char.

Definition number_text (s : string) : Prop :=
  s <> EmptyString /\ string_forallb number_char s = true.

(** What the round trip through text relies on: [str] of a number is a
    non-empty run of number characters, and [float] reads it back as the
    float of that number. *)
Class PyNumText (num : Type) `{PyNum num} : Prop := {
  py_str_text : forall x : num, number_text (py_str x);
  py_float_str : forall x : num, py_float (py_str x) = Some (py_float_of_num x);
  (** what [float] returns is a float already *)
  py_float_float : forall (s : string) (x : num),
    py_float s = Some x -> py_float_of_num x = x
}.

(** ** [latte_functions.py] *)

(** [l[a:b]] for non-negative bounds. *)
Definition slice {A : Type} (a b : nat) (l : list A) : list A :=
  take (b - a) (drop a l).

(** [enumerate(l)] *)
Definition enumerate {A : Type} (l : list A) : list (nat * A) :=
  zip (seq 0 (length l)) l.

Section LatteFunctions.
Context {num : Type} `{PyNum num}.

(** The parameterization dictionary, with the keys that [example.py] gives
    it.  The two domains are two-element lists in the source. *)
Record parameterizationDictionary : Type := mkParameterization {
  mass : num;
  gridDist : num;
  nGridPoints : nat;
  type : string;
  elementFunction : num -> elementDict num;
  domainTB : num * num;
  EVec : list num;
  SPE : num;
  UVec : list num;
  fVec : list num;
  cVec : list num;
  pairFunction : num -> num * num;
  domainPair : num * num;
  pairKeyword : string;
  pairDescription : string;
  contributor : string
}.

(** *** [makeSKF] *)

(** An entry of a line of [lineListList]: a number, or the string
    ['Spline']. *)
Inductive cell : Type :=
| CNum (x : num)
| CStr (s : string).

(** [str(elem)] *)
Definition str_cell (c : cell) : string :=
  match c with
  | CNum x => py_str x
  | CStr s => s
  end.

(** [gridPointsVec = pD["gridDist"]*np.array(range(pD["nGridPoints"]))] *)
Definition gridPointsVec (pD : parameterizationDictionary) : list num :=
  map (fun i => num_mul (gridDist pD) (num_of_Z (Z.of_nat i)))
      (seq 0 (nGridPoints pD)).

(** The row [tempLine] of the integral table at distance [r]. *)
Definition tempLine (pD : parameterizationDictionary) (r : num) : list num :=
  if num_ltb r (fst (domainTB pD)) then
    (* write 1.0s for r < r_min (what LATTE expects) *)
    replicate 20 (num_float 1 0)
  else
    let eD := elementFunction pD r in
    [Hdd0 eD; Hdd1 eD; Hdd2 eD; Hpd0 eD; Hpd1 eD;
     Hpp0 eD; Hpp1 eD; Hsd0 eD; Hsp0 eD; Hss0 eD;
     Sdd0 eD; Sdd1 eD; Sdd2 eD; Spd0 eD; Spd1 eD;
     Spp0 eD; Spp1 eD; Ssd0 eD; Ssp0 eD; Sss0 eD].

(** The lines that precede the integral table, and what is printed while
    they are built. *)
Definition headerLines (pD : parameterizationDictionary)
  : list string * list (list cell) :=
  let dVec := replicate 10 (CNum (num_of_Z 0)) in
  (* grid and atomic information *)
  let line1 := [CNum (gridDist pD); CNum (num_of_Z (Z.of_nat (nGridPoints pD)))] in
  if String.eqb (type pD) "homonuclear" then
    ([],
     [line1;
      map CNum (EVec pD ++ [SPE pD] ++ UVec pD ++ fVec pD);
      map CNum ([mass pD] ++ cVec pD ++ [snd (domainTB pD)]) ++ dVec])
  else if String.eqb (type pD) "heteronuclear" then
    ([],
     [line1;
      map CNum ([num_of_Z 12345] ++ cVec pD ++ [snd (domainTB pD)]) ++ dVec])
  else
    (["ERROR: parameterization type must be "
        +:+ PyStr.dquote +:+ "heteronuclear" +:+ PyStr.dquote;
      "       or " +:+ PyStr.dquote +:+ "homonuclear" +:+ PyStr.dquote],
     [line1]).

(** The stub spline section. *)
Definition splineLines (pD : parameterizationDictionary) : list (list cell) :=
  let zero := CNum (num_of_Z 0) in
  [[CStr "Spline"];
   [CNum (num_of_Z 1); CNum (snd (domainTB pD))];
   [zero; zero; CNum (num_of_Z (-1))];
   [CNum (fst (domainTB pD)); CNum (snd (domainTB pD));
    zero; zero; zero; zero; zero; zero]].

Definition lineListList (pD : parameterizationDictionary) : list (list cell) :=
  snd (headerLines pD)
  (* integral table *)
  ++ map (fun r => map CNum (tempLine pD r)) (gridPointsVec pD)
  (* spline *)
  ++ splineLines pD.

(** One [fileObject.write] call of the last loop. *)
Definition writeLine (lineList : list cell) : string :=
  PyStr.join " " (map str_cell lineList) +:+ PyStr.newline.

(** [makeSKF] returns what it prints and the text of the file it writes. *)
Definition makeSKF (pD : parameterizationDictionary) : list string * string :=
  (fst (headerLines pD), PyStr.written (map writeLine (lineListList pD))).

(** *** The parsing phase of [plotSKF] *)

(** The body of the loop over the entries of a line with an asterisk. *)
Definition expandEntry (entry : string) : option string :=
  if PyStr.contains "*" entry then
    let entrySplit := PyStr.split_on "*" entry in
    e1 ← entrySplit !! 1%nat;
    num_ ← py_float e1;
    e0 ← entrySplit !! 0%nat;
    f0 ← py_float e0;
    timesRep ← py_int f0;
    Some (PyStr.join " " (replicate (Z.to_nat timesRep) (py_str num_)))
  else Some entry.

Definition expandLine (line : string) : option string :=
  if PyStr.contains "*" line then
    lineSplit ← mapM expandEntry (PyStr.split line);
    Some (PyStr.join " " lineSplit)
  else Some line.

(** The [while] loop that looks for the first line with
    [integralTableLineLength] entries; running off the end of the list
    raises [IndexError]. *)
Fixpoint findFirstIntegralLine (len : nat) (linesSplit : list (list string))
    (i_line : nat) : option nat :=
  match linesSplit with
  | [] => None
  | splitLine :: rest =>
      if (length splitLine =? len)%nat then Some i_line
      else findFirstIntegralLine len rest (S i_line)
  end.

(** The [for] loop that records the last line with a ['Spline'] entry;
    [afterLineIndex] starts as [False], which slices as [0]. *)
Definition findAfterLine (linesSplit : list (list string)) : nat :=
  fold_left
    (fun afterLineIndex '(i_line, splitLine) =>
       if decide ("Spline" ∈ (splitLine : list string)) then i_line
       else afterLineIndex)
    (enumerate linesSplit) 0%nat.

(** [np.array] of a list of rows of floats, as far as the two-dimensional
    slices that follow need it: the list must have a row, and the rows the
    same length. *)
Definition np_array (rows : list (list num)) : option (list (list num)) :=
  match rows with
  | [] => None
  | row0 :: _ =>
      if forallb (fun row => (length row =? length row0)%nat) rows
      then Some rows else None
  end.

(** What the parsing phase computes before plotting. *)
Record skfTables : Type := mkSkfTables {
  read_gridDist : num;
  integralTableLineLength : nat;
  firstLineIndex : nat;
  afterLineIndex : nat;
  HTable : list (list num);
  STable : list (list num)
}.

(** The test on the first line: the grid distance and the number of
    columns of the integral table, for the extended format (marked by
    [@]) and for the simple one. *)
Definition readFormat (lines : list string) : option (num * nat) :=
  line0 ← lines !! 0%nat;
  if PyStr.contains "@" line0 then
    line1 ← lines !! 1%nat;
    entry ← PyStr.split line1 !! 0%nat;
    gridDist_ ← py_float entry;
    Some (gridDist_, 40%nat)
  else
    entry ← PyStr.split line0 !! 0%nat;
    gridDist_ ← py_float entry;
    Some (gridDist_, 20%nat).

Definition plotSKF_tables (linesAsterisksCommas : list string)
  : option skfTables :=
  (* clean lines of commas *)
  let linesAsterisks := map (PyStr.remove ",") linesAsterisksCommas in
  (* write asterisk expanded lines to lines variable *)
  lines ← mapM expandLine linesAsterisks;
  format ← readFormat lines;
  let len := snd format in
  let linesSplit := map PyStr.split lines in
  (* find index of integral table's first line *)
  i_line ← findFirstIntegralLine len linesSplit 0;
  (* in simple format line BEFORE integral table has 20 entries *)
  let firstLineIndex_ :=
    if (len =? 20)%nat then (i_line + 1)%nat else i_line in
  (* find index of integral table's last line *)
  let afterLineIndex_ := findAfterLine linesSplit in
  (* make plucked integral table into numpy arrays for H and S *)
  let integralTableLines := slice firstLineIndex_ afterLineIndex_ linesSplit in
  rows ← mapM (mapM py_float) integralTableLines;
  integralTable ← np_array rows;
  Some {| read_gridDist := fst format;
          integralTableLineLength := len;
          firstLineIndex := firstLineIndex_;
          afterLineIndex := afterLineIndex_;
          HTable := map (take (len / 2)) integralTable;
          STable := map (drop (len / 2)) integralTable |}.

(** *** [makeLAMMPSPairwiseTable] *)






End LatteFunctions.

Arguments parameterizationDictionary num : clear implicits.
Arguments cell num : clear implicits.
Arguments skfTables num : clear implicits.

(** ** [translateCoordinates]

    numpy arrays are objects that the function updates in place, so they
    live in a store and the dictionaries hold their addresses.  The
    dictionaries and lists themselves are only read and copied; they are
    values.  The arrays and the displacement vector have one element type,
    [num], so that the assignment into the copy converts nothing.  [None]
    stands for an exception. *)

(** Addresses, two-dimensional arrays (the list of their rows) and stores. *)
Abbreviation loc := nat (only parsing).
Abbreviation ndarray num := (list (list num)) (only parsing).
Abbreviation store num := (gmap nat (list (list num))) (only parsing).

Section TranslateCoordinates.
Context {num : Type} `{PyNum num}.

(** A group dictionary and a simulation dictionary, with the keys that
    [refreshMetaData] and [simulationDictionaryToLAMMPSData] use. *)
Record groupDictionary : Type := mkGroup {
  qArray : loc;
  group_atomTypeList : list Z;
  group_massList : list num
}.

Record simulationDictionary : Type := mkSimulation {
  groupDictionaries : list groupDictionary;
  boxVectors : loc;
  nAtoms : Z;
  atomTypeList : list Z;
  massList : list num;
  nAtomTypes : Z
}.

(** [copy.deepcopy]: every array that the dictionary reaches is copied to
    a fresh address, once; the memo maps the arrays already copied to
    their copies, so that arrays shared in the original are shared in the
    copy. *)
Definition deepcopy_array (l : loc) (ms : gmap loc loc * store num)
  : option (loc * (gmap loc loc * store num)) :=
  match fst ms !! l with
  | Some l' => Some (l', ms)
  | None =>
      a ← snd ms !! l;
      let l' := fresh (dom (snd ms)) in
      Some (l', (<[l := l']> (fst ms), <[l' := a]> (snd ms)))
  end.

Fixpoint deepcopy_groups (groups : list groupDictionary)
    (ms : gmap loc loc * store num)
  : option (list groupDictionary * (gmap loc loc * store num)) :=
  match groups with
  | [] => Some ([], ms)
  | group :: rest =>
      '(l', ms1) ← deepcopy_array (qArray group) ms;
      '(rest', ms2) ← deepcopy_groups rest ms1;
      Some (mkGroup l' (group_atomTypeList group) (group_massList group)
              :: rest', ms2)
  end.

Definition deepcopy (sd : simulationDictionary) (s : store num)
  : option (simulationDictionary * store num) :=
  '(groups', ms1) ← deepcopy_groups (groupDictionaries sd) (∅, s);
  '(box', ms2) ← deepcopy_array (boxVectors sd) ms1;
  Some (mkSimulation groups' box' (nAtoms sd) (atomTypeList sd)
          (massList sd) (nAtomTypes sd), snd ms2).

(** [np.vstack] of one-dimensional arrays: at least one array, all of one
    length. *)
Definition np_vstack (arrays : list (list num)) : option (ndarray num) :=
  match arrays with
  | [] => None
  | a :: _ =>
      if forallb (fun b => (length b =? length a)%nat) arrays
      then Some arrays else None
  end.

(** [a + b] on rows, with numpy's broadcasting of a row of length 1. *)
Definition row_add (ra rb : list num) : option (list num) :=
  if (length ra =? length rb)%nat then Some (zip_with num_add ra rb)
  else match rb, ra with
       | [b0], _ => Some (map (fun x => num_add x b0) ra)
       | _, [a0] => Some (map (fun y => num_add a0 y) rb)
       | _, _ => None
       end.

(** [a + b] for two arrays with the same number of rows. *)
Definition array_add (a b : ndarray num) : option (ndarray num) :=
  if (length a =? length b)%nat then
    mapM (fun '(ra, rb) => row_add ra rb) (zip a b)
  else None.

(** [target[lo:hi] = value] on a row; [value] must have the length of the
    slice, or length 1. *)
Definition row_assign (lo hi : nat) (target value : list num)
  : option (list num) :=
  let k := length (slice lo hi target) in
  if (length value =? k)%nat then
    Some (take lo target ++ value ++ drop hi target)
  else match value with
       | [v0] => Some (take lo target ++ replicate k v0 ++ drop hi target)
       | _ => None
       end.

(** [target[:, lo:hi] = value] for arrays with the same number of rows. *)
Definition array_assign (lo hi : nat) (target value : ndarray num)
  : option (ndarray num) :=
  if (length target =? length value)%nat then
    mapM (fun '(t, v) => row_assign lo hi t v) (zip target value)
  else None.

(** The body of the loop for a group that [groupControl] selects:
    [group] is the group of the argument, [groupT] the group of the copy
    with the same number. *)
Definition translateGroup (displacementVector : list num)
    (group groupT : groupDictionary) (s : store num) : option (store num) :=
  q ← s !! qArray group;
  (* extract only coordinate part of data array *)
  let qCoordinates := map (slice 4 8) q in
  displacementArray ←
    np_vstack (replicate (length qCoordinates) displacementVector);
  qprime ← array_add qCoordinates displacementArray;
  (* overwrite with translated coordinates *)
  qT ← s !! qArray groupT;
  qT' ← array_assign 4 8 qT qprime;
  Some (<[qArray groupT := qT']> s).

(** The loop over [enumerate(simulationDictionary['groupDictionaries'])],
    from group number [groupNumber] on.  The result is the store and
    whether the loop ended without exception. *)
Fixpoint translateLoop (displacementVector : list num) (groupControl : list Z)
    (groupsT : list groupDictionary) (groups : list groupDictionary)
    (groupNumber : nat) (s : store num) : store num * bool :=
  match groups with
  | [] => (s, true)
  | group :: rest =>
      match groupControl !! groupNumber with
      | None => (s, false)
      | Some control =>
          if (control =? 0)%Z then
            translateLoop displacementVector groupControl groupsT rest
              (S groupNumber) s
          else
            match groupsT !! groupNumber with
            | None => (s, false)
            | Some groupT =>
                match translateGroup displacementVector group groupT s with
                | None => (s, false)
                | Some s' =>
                    translateLoop displacementVector groupControl groupsT rest
                      (S groupNumber) s'
                end
            end
      end
  end.

(** [groupControl], after the default is filled in: [None] and the empty
    list select every group. *)
Definition effectiveControl (sd : simulationDictionary)
    (groupControl : option (list Z)) : list Z :=
  match groupControl with
  | None | Some [] => replicate (length (groupDictionaries sd)) 1%Z
  | Some control => control
  end.

(** [translateCoordinates] returns the store it leaves and the translated
    dictionary, or [None] when an exception ends it. *)
Definition translateCoordinates (sd : simulationDictionary)
    (displacementVector : list num) (groupControl : option (list Z))
    (s : store num) : store num * option simulationDictionary :=
  let groupControl := effectiveControl sd groupControl in
  match deepcopy sd s with
  | None => (s, None)
  | Some (simulationDictionaryTranslated, s1) =>
      let '(s2, ok) :=
        translateLoop displacementVector groupControl
          (groupDictionaries simulationDictionaryTranslated)
          (groupDictionaries sd) 0 s1 in
      (s2, if ok then Some simulationDictionaryTranslated else None)
  end.





End TranslateCoordinates.

Arguments groupDictionary num : clear implicits.
Arguments simulationDictionary num : clear implicits.

(** ** An instance of the numbers: the numbers of integral value

    Python's [int]s, and the [float]s whose value is an integer: [PyInt z]
    is the [int] [z] and [PyFloat z] the [float] [z.0].  An operation
    with a [float] operand gives a [float]; [/] always does, and is exact
    when the divisor divides the dividend; a [float] literal stands for
    its integral part.  [str] writes a [float] with its [.0] (Python does
    below [1e16]), and [float] reads what [str] writes.  The functions
    above can be evaluated on this instance. *)

Module IntNum.

Inductive t : Type :=
| PyInt (z : Z)
| PyFloat (z : Z).

Definition value (x : t) : Z :=
  match x with
  | PyInt z | PyFloat z => z
  end.

Definition binop (f : Z -> Z -> Z) (x y : t) : t :=
  match x, y with
  | PyInt a, PyInt b => PyInt (f a b)
  | _, _ => PyFloat (f (value x) (value y))
  end.

Definition decimal (z : Z) : string := NilEmpty.string_of_int (Z.to_int z).

Definition str (x : t) : string :=
  match x with
  | PyInt z => decimal z
  | PyFloat z => decimal z +:+ ".0"
  end.

Definition float (s : string) : option t :=
  match PyStr.split_on "." s with
  | [a] | [a; "0"] =>
      (fun i => PyFloat (Z.of_int i)) <$> NilEmpty.int_of_string a
  | _ => None
  end.

Definition lit (m e : Z) : t :=
  PyFloat (if (0 <=? e)%Z then m * 10 ^ e else m / 10 ^ (- e))%Z.

#[global] Instance pynum : PyNum t := {|
  num_of_Z := PyInt;
  num_float := lit;
  num_add := binop Z.add;
  num_sub := binop Z.sub;
  num_mul := binop Z.mul;
  num_div := fun x y => PyFloat (value x / value y);
  num_ltb := fun x y => (value x <? value y)%Z;
  num_eqb := fun x y => (value x =? value y)%Z;
  py_str := str;
  py_float_of_num := fun x => PyFloat (value x);
  py_float := float;
  py_int := fun x => Some (value x)
|}.

(** The [int]s and the [float]s of a list of values. *)
Definition ints (l : list Z) : list t := map PyInt l.
Definition floats (l : list Z) : list t := map PyFloat l.

End IntNum.

(** ** Concrete inputs

    A parameterization over that instance, in the shape of the
    dictionary of [example.py]: grid spacing 1, the tight-binding domain
    [[2, 7]], element and pair functions that are easy to recognize in the
    tables (at distance [r], column [j] of the integral table, counted
    from 1, holds [r + j]).  The type, the spline placeholders [cVec] and
    the number of grid points vary. *)

Definition exampleElements (r : IntNum.t) : elementDict IntNum.t :=
  let at_ (j : Z) := num_add r (IntNum.PyInt j) in
  (mkElementDict (at_ 10) (at_ 9) (at_ 8) (at_ 6) (at_ 7)
                 (at_ 4) (at_ 5) (at_ 1) (at_ 2) (at_ 3)
                 (at_ 20) (at_ 19) (at_ 18) (at_ 16) (at_ 17)
                 (at_ 14) (at_ 15) (at_ 11) (at_ 12) (at_ 13))%Z.

Definition exampleDictionary (ty : string) (cv : list Z) (n : nat)
  : parameterizationDictionary IntNum.t :=
  {| mass := IntNum.PyInt 12;
     gridDist := IntNum.PyInt 1;
     nGridPoints := n;
     type := ty;
     elementFunction := exampleElements;
     domainTB := (IntNum.PyInt 2, IntNum.PyInt 7);
     EVec := IntNum.ints [0; -1; -5];
     SPE := IntNum.PyInt 0;
     UVec := IntNum.ints [3; 3; 3];
     fVec := IntNum.ints [0; 2; 2];
     cVec := IntNum.ints cv;
     pairFunction := fun r => (num_mul r r, num_sub (IntNum.PyInt 0) r);
     domainPair := (IntNum.PyInt 1, IntNum.PyInt 4);
     pairKeyword := "POREZAG_C";
     pairDescription := "pairwise repulsive potential";
     contributor := "G. H. Brown" |}%Z.

(** ** Vocabulary of the claims about the reader *)

Section ReaderVocabulary.
Context {num : Type} `{PyNum num}.

(** An entry of a line of an SKF file, as the repeat notation sees it: a
    plain entry, or [count*value]. *)
Inductive skfEntry : Type :=
| Plain (s : string)
| Repeat (count value : string).

Definition entry_text (e : skfEntry) : string :=
  match e with
  | Plain s => s
  | Repeat count value => count +:+ "*" +:+ value
  end.

(** [int(float(count))], as a number of repetitions. *)
Definition repeat_count (count : string) : option nat :=
  f0 ← py_float count; timesRep ← py_int f0; Some (Z.to_nat timesRep).

(** The entries that stand for [e] in the explicitly written line: the
    entry itself, or [count] copies of the text [value]. *)
Definition entry_explicit (e : skfEntry) : list string :=
  match e with
  | Plain s => [s]
  | Repeat count value =>
      match repeat_count count with
      | Some n => replicate n value
      | None => []
      end
  end.

(** The entries that the expansion puts in its place: the entry itself, or
    [count] copies of [str(float(value))]. *)
Definition entry_expanded (e : skfEntry) : list string :=
  match e with
  | Plain s => [s]
  | Repeat count value =>
      match repeat_count count, py_float value with
      | Some n, Some x => replicate n (py_str x)
      | _, _ => []
      end
  end.

(** An entry the expansion applies to: a plain entry has no asterisk; in
    [count*value] neither part has one, [float] reads [value], and
    [int(float(...))] reads [count]. *)
Definition entry_wf (e : skfEntry) : Prop :=
  match e with
  | Plain s => PyStr.lacks "*" s
  | Repeat count value =>
      PyStr.lacks "*" count /\ PyStr.lacks "*" value /\
      is_Some (py_float value) /\ is_Some (repeat_count count)
  end.

(** Line [k] is the first line of [linesSplit] with [len] entries. *)
Definition first_line_with (len : nat) (linesSplit : list (list string))
    (k : nat) : Prop :=
  (exists splitLine,
     linesSplit !! k = Some splitLine /\ length splitLine = len) /\
  (forall j splitLine,
     j < k -> linesSplit !! j = Some splitLine -> length splitLine <> len).

(** Line [k] is the last line of [linesSplit] with an entry ['Spline']. *)
Definition last_line_with_Spline (linesSplit : list (list string))
    (k : nat) : Prop :=
  (exists splitLine,
     linesSplit !! k = Some splitLine /\ "Spline" ∈ splitLine) /\
  (forall j splitLine,
     k < j -> linesSplit !! j = Some splitLine -> "Spline" ∉ splitLine).

(** Claim C8 as it is stated, for the start of the table: the table that
    the reader returns for the lines [linesAsterisksCommas] starts at the
    first line with as many entries as the table has columns. *)
Definition table_starts_at_first_match (linesAsterisksCommas : list string)
    (t : skfTables num) : Prop :=
  exists lines,
    mapM expandLine (map (PyStr.remove ",") linesAsterisksCommas) = Some lines /\
    first_line_with (integralTableLineLength t) (map PyStr.split lines)
      (firstLineIndex t).

(** The round trip: the reader, run on the file that [makeSKF] wrote,
    returns at every grid point the [float] of the twenty values written
    there, the first ten in [HTable] and the last ten in [STable]. *)
Definition skfRoundTrip (pD : parameterizationDictionary num) : Prop :=
  exists t : skfTables num,
    plotSKF_tables (PyStr.readlines (snd (makeSKF pD))) = Some t /\
    HTable t = map (fun r => map py_float_of_num (take 10 (tempLine pD r)))
                   (gridPointsVec pD) /\
    STable t = map (fun r => map py_float_of_num (drop 10 (tempLine pD r)))
                   (gridPointsVec pD).

End ReaderVocabulary.

(** A store with two arrays of atoms (seven columns: four of data, three
    coordinates) and the array of the box vectors, all of floats, a
    displacement vector, and a simulation dictionary over the store.  In [sharedSimulation] the two groups hold the
    same array. *)
Definition exampleStore : store IntNum.t :=
  <[0 := map IntNum.floats
           [[1; 6; 0; 0; 10; 20; 30]; [2; 6; 0; 0; 11; 21; 31]]%Z]>
  (<[1 := map IntNum.floats [[3; 1; 0; 0; 5; 5; 5]]%Z]>
  (<[2 := map IntNum.floats [[9; 0; 0]; [0; 9; 0]; [0; 0; 9]]%Z]> ∅)).

Definition exampleDisplacement : list IntNum.t := IntNum.floats [1; 2; 3]%Z.

Definition exampleSimulation : simulationDictionary IntNum.t :=
  {| groupDictionaries :=
       [mkGroup 0 [6%Z] (IntNum.ints [12%Z]);
        mkGroup 1 [1%Z] (IntNum.ints [1%Z])];
     boxVectors := 2;
     nAtoms := 3%Z;
     atomTypeList := [6; 1]%Z;
     massList := IntNum.ints [12; 1]%Z;
     nAtomTypes := 2%Z |}.

Definition sharedSimulation : simulationDictionary IntNum.t :=
  {| groupDictionaries :=
       [mkGroup 0 [6%Z] (IntNum.ints [12%Z]);
        mkGroup 0 [6%Z] (IntNum.ints [12%Z])];
     boxVectors := 2;
     nAtoms := 4%Z;
     atomTypeList := [6; 6]%Z;
     massList := IntNum.ints [12; 12]%Z;
     nAtomTypes := 2%Z |}.

(** ** Vocabulary of the proofs *)

Section ProofVocabulary.
Context {num : Type} `{PyNum num}.

(** The only string among the entries of [lineListList] is ['Spline']. *)
Definition cell_ok (c : cell num) : Prop :=
  match c with
  | CNum _ => True
  | CStr s => s = "Spline"
  end.

(** The text of an entry is a word without comma, asterisk, at sign or
    newline. *)
Definition tidy (s : string) : Prop :=
  PyStr.word s /\ PyStr.lacks PyStr.nl s /\ PyStr.lacks "," s /\
  PyStr.lacks "*" s /\ PyStr.lacks "@" s.

(** While a store [s0] is being copied: the arrays of [s0] are as they
    were, and the copies are at addresses that [s0] does not use. *)
Definition copy_fresh (s0 : store num) (ms : gmap loc loc * store num) : Prop :=
  (forall l, is_Some (s0 !! l) -> snd ms !! l = s0 !! l) /\
  (forall l l', fst ms !! l = Some l' -> s0 !! l' = None).

(** Moreover every copy holds what the array it copies holds in [s0], and
    two arrays do not share a copy. *)
Definition copy_inv (s0 : store num) (ms : gmap loc loc * store num) : Prop :=
  copy_fresh s0 ms /\
  (forall l l', fst ms !! l = Some l' ->
     is_Some (s0 !! l) /\ snd ms !! l' = s0 !! l) /\
  (forall l1 l2 l',
     fst ms !! l1 = Some l' -> fst ms !! l2 = Some l' -> l1 = l2).

(** The groups of the copy: group by group, the copy of the array and the
    other entries as they were. *)
Definition group_copied (memo : gmap loc loc) (g g' : groupDictionary num)
  : Prop :=
  memo !! qArray g = Some (qArray g') /\
  group_atomTypeList g' = group_atomTypeList g /\
  group_massList g' = group_massList g.


End ProofVocabulary.

(** ** The other functions of [latte_functions.py] *)

(** *** [getLATTEProperty]

    The function returns a float, or the string that says that the
    property was not found; [None] stands for an exception ([IndexError]
    on a matching line without entry, [ValueError] when the last entry of
    the matching line is not the text of a float).  [lines] is what
    [readlines] returns for the file. *)

Section GetLATTEProperty.
Context {num : Type} `{PyNum num}.

Fixpoint getLATTEProperty (prprty : string) (lines : list string)
  : option (num + string) :=
  let propertyNameLength := String.length prprty in
  match lines with
  | [] => Some (inr "Specified property not found.")
  | line :: rest =>
      if String.eqb (PyStr.slice_to propertyNameLength line) prprty then
        (* get last element in split (the value) *)
        propertyString ← last (PyStr.split line);
        x ← py_float propertyString;
        Some (inl x)
      else getLATTEProperty prprty rest
  end.

(** [line] starts with [prprty]. *)
Definition starts_with (prprty line : string) : Prop :=
  exists rest, line = prprty +:+ rest.

End GetLATTEProperty.

(** *** [getNumberOfAtoms] and [refreshMetaData]

    The dictionaries and the store are those of [translateCoordinates];
    [shape[0]] of an array is the number of its rows.  [None] stands for
    an address without array, which no dictionary of Python holds. *)

Section MetaData.
Context {num : Type} `{PyNum num}.

(** The loop of [getNumberOfAtoms], from the value [numberOfAtoms] on. *)
Fixpoint countAtoms (groups : list (groupDictionary num)) (s : store num)
    (numberOfAtoms : Z) : option Z :=
  match groups with
  | [] => Some numberOfAtoms
  | group :: rest =>
      q ← s !! qArray group;
      countAtoms rest s (numberOfAtoms + Z.of_nat (length q))
  end.

Definition getNumberOfAtoms (sd : simulationDictionary num) (s : store num)
  : option Z :=
  let groups := groupDictionaries sd in
  countAtoms groups s 0.

(** The loop of [refreshMetaData] over the groups. *)
Definition collectMetaData (groups : list (groupDictionary num))
  : list Z * list num :=
  fold_left
    (fun '(atomTypeListFull, massListFull) group =>
       (* assumes atom types are sorted *)
       (atomTypeListFull ++ group_atomTypeList group,
        massListFull ++ group_massList group))
    groups ([], []).

(** [refreshMetaData] updates the dictionary it is given; the result is
    the dictionary after the call. *)
Definition refreshMetaData (sd : simulationDictionary num) (s : store num)
  : option (simulationDictionary num) :=
  let '(atomTypeListFull, massListFull) :=
    collectMetaData (groupDictionaries sd) in
  nAtoms_ ← getNumberOfAtoms sd s;
  Some {| groupDictionaries := groupDictionaries sd;
          boxVectors := boxVectors sd;
          nAtoms := nAtoms_;
          atomTypeList := atomTypeListFull;
          massList := massListFull;
          nAtomTypes := Z.of_nat (length atomTypeListFull) |}.

(** The arrays of the dictionary are in the store. *)
Definition arrays_in_store (sd : simulationDictionary num) (s : store num)
  : Prop :=
  is_Some (s !! boxVectors sd) /\
  Forall (fun group => is_Some (s !! qArray group)) (groupDictionaries sd).

End MetaData.

(** *** [simulationDictionaryToLAMMPSData]

    The function writes to the file as it goes, so the result is the
    store it leaves, the strings written until it ends or raises, in
    order, and whether it ended without exception.  [twoDimensional] is
    [False] ([None]) or a number; [fmt5] is the format [:.5f].  The box
    vectors that [np.vstack] builds are a new array; an array of box
    vectors without row is taken to have the columns of the vector
    stacked under it. *)

Section LAMMPSData.
Context {num : Type} `{PyNum num}.
Variable fmt5 : num -> string.

(** [if twoDimensional:] *)
Definition truthy (twoDimensional : option num) : bool :=
  match twoDimensional with
  | None => false
  | Some zHeight => negb (num_eqb zHeight (num_of_Z 0))
  end.

(** [np.min] and [np.max] of a one-dimensional array; they raise on an
    array without entry. *)
Definition np_min (v : list num) : option num :=
  match v with
  | [] => None
  | x :: l => Some (fold_left (fun m y => if num_ltb y m then y else m) l x)
  end.

Definition np_max (v : list num) : option num :=
  match v with
  | [] => None
  | x :: l => Some (fold_left (fun m y => if num_ltb m y then y else m) l x)
  end.

Definition dimLabels : list string := ["x"; "y"; "z"].

(** What the turn [i] of the loop over the box size writes; [None]
    stands for an exception. *)
Definition boxSizeLine (boxVectors_ : ndarray num) (i : nat) : option string :=
  boxVector ← boxVectors_ !! i;
  lo ← np_min boxVector;
  hi ← np_max boxVector;
  label ← dimLabels !! i;
  let minMax := [py_str lo; py_str hi] in
  let extentLabels := [label +:+ "lo"; label +:+ "hi" +:+ PyStr.newline] in
  Some (PyStr.join " " minMax +:+ " " +:+ PyStr.join " " extentLabels).

Definition massLine (entry : nat * num) : string :=
  let '(atomTypeNumber, mass_) := entry in
  py_str (num_of_Z (Z.of_nat atomTypeNumber + 1)) +:+ " " +:+ py_str mass_
  +:+ PyStr.newline.

(** The line of one atom: the row [i] of the array of a group. *)
Definition atomLine (row : list num) : option string :=
  let dataFloatMeta := slice 0 4 row in
  let dataFloatCoordinates := slice 4 8 row in
  dataString ←
    mapM (fun element => z ← py_int element; Some (py_str (num_of_Z z)))
         dataFloatMeta;
  let dataString := dataString ++ map fmt5 dataFloatCoordinates in
  Some (PyStr.join " " dataString +:+ PyStr.newline).

Definition groupLines (s : store num) (group : groupDictionary num)
  : list (option string) :=
  match s !! qArray group with
  | None => [None]
  | Some atomicData => map atomLine atomicData
  end.

(** The arguments of the calls of [fileObject.write], in order. *)
Definition dataChunks (simulationDictionary : simulationDictionary num)
    (s : store num) : list (option string) :=
  let groups := groupDictionaries simulationDictionary in
  let N_atoms := nAtoms simulationDictionary in
  let N_atomtypes := nAtomTypes simulationDictionary in
  let N_dim := 3%nat in
  (* header and cumulative data *)
  [Some ("LAMMPS Description" +:+ PyStr.newline +:+ " " +:+ PyStr.newline);
   Some (py_str (num_of_Z N_atoms) +:+ " atoms" +:+ PyStr.newline +:+ " "
         +:+ PyStr.newline);
   Some (py_str (num_of_Z N_atomtypes) +:+ " atom types" +:+ PyStr.newline
         +:+ " " +:+ PyStr.newline)]
  (* box size *)
  ++ map (fun i => box ← s !! boxVectors simulationDictionary; boxSizeLine box i)
       (seq 0 N_dim)
  ++ [Some PyStr.newline;
      Some ("Masses" +:+ PyStr.newline +:+ PyStr.newline)]
  ++ map (fun entry => Some (massLine entry))
       (enumerate (massList simulationDictionary))
  ++ [Some PyStr.newline;
      (* information for each atom *)
      Some ("Atoms" +:+ PyStr.newline +:+ PyStr.newline)]
  ++ concat (map (groupLines s) groups).

(** The writes up to the first one that raises. *)
Fixpoint writeAll (chunks : list (option string)) : list string * bool :=
  match chunks with
  | [] => ([], true)
  | None :: _ => ([], false)
  | Some chunk :: rest =>
      let '(written, ok) := writeAll rest in (chunk :: written, ok)
  end.

Definition simulationDictionaryToLAMMPSData
    (groupDictionary : simulationDictionary num)
    (twoDimensional : option num) (s : store num)
  : store num * list string * bool :=
  match twoDimensional with
  | Some zHeight =>
      if truthy twoDimensional then
        (* take special care to set z values of two dimensional *)
        let '(s1, translated) :=
          translateCoordinates groupDictionary
            [num_of_Z 0; num_of_Z 0; zHeight] None s in
        match translated with
        | None => (s1, [], false)
        | Some simulationDictionary =>
            let zPeriodicityVector :=
              [num_of_Z 0; num_of_Z 0; num_mul zHeight (num_of_Z 2)] in
            match
              box ← s1 !! boxVectors groupDictionary;
              np_vstack (box ++ [zPeriodicityVector])
            with
            | None => (s1, [], false)
            | Some newBoxVectors =>
                let l := fresh (dom s1) in
                let s2 := <[l := newBoxVectors]> s1 in
                let simulationDictionary :=
                  mkSimulation (groupDictionaries simulationDictionary) l
                    (nAtoms simulationDictionary)
                    (atomTypeList simulationDictionary)
                    (massList simulationDictionary)
                    (nAtomTypes simulationDictionary) in
                let '(written, ok) :=
                  writeAll (dataChunks simulationDictionary s2) in
                (s2, written, ok)
            end
        end
      else
        (* [simulationDictionary] is not bound *)
        (s, [], false)
  | None => (s, [], false)
  end.

End LAMMPSData.

(** *** The distances of [plotSKF]

    [rValues = gridDist*np.arange(numPoints)], with [numPoints] the number
    of rows of [HTable]. *)

Section PlotSKFValues.
Context {num : Type} `{PyNum num}.

Definition plotSKF_rValues (t : skfTables num) : list num :=
  let numPoints := length (HTable t) in
  map (fun i => num_mul (read_gridDist t) (num_of_Z (Z.of_nat i)))
      (seq 0 numPoints).

End PlotSKFValues.

(** *** The coordinate dictionaries: [returnToBox] and
    [getCoordinateBounds]

    These functions work on the dictionary that [dat2GroupDict] builds:
    the box vectors, the atom types, and under ["qs"] one array of
    coordinates for each atom type.  [returnToBox] updates the arrays in
    place, so the arrays live in a store and ["qs"] holds their
    addresses.  As for [example.py], the floats are read as the reals
    they denote.  An array is given by [shape[1]] and its rows, each of
    [shape[1]] entries. *)

Module Coordinates.
Local Open Scope R_scope.

Record array2 : Type := mkArray2 {
  shape1 : nat;
  rows : list (list R)
}.

Record qDictionary : Type := mkQDictionary {
  boxVectors : list (list R);
  atomTypes : list string;
  qs : list loc
}.

Definition Rltb (x y : R) : bool := if Rlt_dec x y then true else false.
Definition Rgtb (x y : R) : bool := if Rgt_dec x y then true else false.

(** The entries of a mask, multiplied by [np.ones]. *)
Definition mask (b : bool) : R := if b then 1 else 0.

(** used to allow atoms very close to zero to remain there *)
Definition tol : R := 1 / 1000.

(** The loop that takes the diagonal elements of the box vectors into
    [boxSizeVector]; [None] stands for [IndexError]. *)
Fixpoint boxSizeLoop (vectors : list (list R)) (iVector : nat)
    (boxSizeVector : list R) : option (list R) :=
  match vectors with
  | [] => Some boxSizeVector
  | vector :: rest =>
      x ← vector !! iVector;
      if (iVector <? length boxSizeVector)%nat then
        boxSizeLoop rest (S iVector) (<[iVector := x]> boxSizeVector)
      else None
  end.

(** One entry of the new column for the dimension of box size
    [boxSize]. *)
Definition inboundCoordinate (boxSize x : R) : R :=
  let tooSmallMask := Rltb x (0 - tol) in
  let tooLargeMask := Porezag.Rgeb x boxSize in
  x + boxSize * (mask tooSmallMask * 1 - mask tooLargeMask * 1).

(** The loop over the dimensions of one array, which is written to at
    every turn: the result is the rows that the array is left with, and
    whether the loop ended without exception. *)
Fixpoint dimensionLoop (boxSizeVector : list R) (dimensions : list nat)
    (curCoordinates : list (list R)) : list (list R) * bool :=
  match dimensions with
  | [] => (curCoordinates, true)
  | iDimension :: rest =>
      match boxSizeVector !! iDimension with
      | None => (curCoordinates, false)
      | Some boxSize =>
          (* overwrite existing coordinates with inbound coordinates *)
          dimensionLoop boxSizeVector rest
            (map (alter (inboundCoordinate boxSize) iDimension) curCoordinates)
      end
  end.

(** The loop over the coordinate arrays. *)
Fixpoint atomLoop (boxSizeVector : list R) (arrays : list loc)
    (s : gmap loc array2) : gmap loc array2 * bool :=
  match arrays with
  | [] => (s, true)
  | l :: rest =>
      match s !! l with
      | None => (s, false)
      | Some curCoordinates =>
          let '(rows', ok) :=
            dimensionLoop boxSizeVector (seq 0 (shape1 curCoordinates))
              (rows curCoordinates) in
          let s' := <[l := mkArray2 (shape1 curCoordinates) rows']> s in
          if ok then atomLoop boxSizeVector rest s' else (s', false)
      end
  end.

(** [returnToBox] returns the store it leaves, and whether it ended
    without exception. *)
Definition returnToBox (qDictionary : qDictionary) (s : gmap loc array2)
  : gmap loc array2 * bool :=
  match boxSizeLoop (boxVectors qDictionary) 0 [0; 0; 0] with
  | None => (s, false)
  | Some boxSizeVector => atomLoop boxSizeVector (qs qDictionary) s
  end.

(** [np.ndarray.min(q)] and [np.ndarray.max(q)]: the least and the
    greatest entry; an array without entry makes them raise. *)
Definition ndarray_min (q : array2) : option R :=
  match concat (rows q) with
  | [] => None
  | x :: l => Some (fold_left Rmin l x)
  end.

Definition ndarray_max (q : array2) : option R :=
  match concat (rows q) with
  | [] => None
  | x :: l => Some (fold_left Rmax l x)
  end.

(** The loop of [getCoordinateBounds]; [running] is the pair of
    [runningMin] and [runningMax] once they are bound. *)
Fixpoint boundsLoop (arrays : list loc) (s : gmap loc array2) (i_q : nat)
    (running : option (R * R)) : option (option (R * R)) :=
  match arrays with
  | [] => Some running
  | l :: rest =>
      q ← s !! l;
      qMin ← ndarray_min q;
      qMax ← ndarray_max q;
      if (i_q =? 0)%nat then boundsLoop rest s (S i_q) (Some (qMin, qMax))
      else
        '(runningMin, runningMax) ← running;
        let runningMin := if Rltb qMin runningMin then qMin else runningMin in
        let runningMax := if Rgtb qMax runningMax then qMax else runningMax in
        boundsLoop rest s (S i_q) (Some (runningMin, runningMax))
  end.

(** [getCoordinateBounds] returns the list [[runningMin, runningMax]];
    without array the two names are unbound and the call raises. *)
Definition getCoordinateBounds (qDictionary : qDictionary)
    (s : gmap loc array2) : option (R * R) :=
  running ← boundsLoop (qs qDictionary) s 0 None;
  running.

(** [computeAverageDisplacement]: the two dictionaries are read only.

    The length along one axis of the result of an operation on two arrays
    of lengths [a] and [b] along it, by numpy's broadcasting; [None]
    stands for [ValueError]. *)
Definition broadcast_dim (a b : nat) : option nat :=
  if (a =? b)%nat then Some a
  else if (a =? 1)%nat then Some b
  else if (b =? 1)%nat then Some a
  else None.

(** A list of one entry stretched to [n] entries; any other list is
    taken to have [n] entries already. *)
Definition stretch {A : Type} (n : nat) (l : list A) : list A :=
  match l with
  | [x] => replicate n x
  | _ => l
  end.

(** [a - b] *)
Definition array_minus (a b : array2) : option array2 :=
  n ← broadcast_dim (length (rows a)) (length (rows b));
  k ← broadcast_dim (shape1 a) (shape1 b);
  Some (mkArray2 k
          (zip_with
             (fun rowa rowb => zip_with Rminus (stretch k rowa) (stretch k rowb))
             (stretch n (rows a)) (stretch n (rows b)))).

(** The loop over the dimensions, which adds the squares of a column to
    [displacementVector]. *)
Fixpoint squaresLoop (dimensions : list nat)
    (curVectorDisplacement : list (list R)) (displacementVector : list R)
  : list R :=
  match dimensions with
  | [] => displacementVector
  | curDim :: rest =>
      squaresLoop rest curVectorDisplacement
        (zip_with Rplus displacementVector
           (map (fun row => nth curDim row 0 ^ 2) curVectorDisplacement))
  end.

(** [np.sum] of a one-dimensional array. *)
Definition np_sum (v : list R) : R := fold_left Rplus v 0.

(** The loop over the atom types, on the pair of [numerator] and
    [nTotal]; [None] stands for an exception. *)
Fixpoint displacementLoop (atomTypeIndices : list nat)
    (coordinateList1 coordinateList2 : list loc) (s : gmap loc array2)
    (numerator : R) (nTotal : nat) : option (R * nat) :=
  match atomTypeIndices with
  | [] => Some (numerator, nTotal)
  | atomType :: rest =>
      l1 ← coordinateList1 !! atomType;
      curCoordinates1 ← s !! l1;
      l2 ← coordinateList2 !! atomType;
      curCoordinates2 ← s !! l2;
      (* number of atoms of current atom type *)
      let nCur := length (rows curCoordinates1) in
      curVectorDisplacement ← array_minus curCoordinates2 curCoordinates1;
      let displacementVector :=
        squaresLoop (seq 0 (shape1 curVectorDisplacement))
          (rows curVectorDisplacement)
          (replicate (length (rows curVectorDisplacement)) 0) in
      let displacementVector := map sqrt displacementVector in
      let atomTypeTotalDisplacement := np_sum displacementVector in
      displacementLoop rest coordinateList1 coordinateList2 s
        (numerator + atomTypeTotalDisplacement) (nTotal + nCur)
  end.

(** [computeAverageDisplacement] returns [numerator/nTotal].  Without
    atom, [None] stands for what the division by zero gives:
    [ZeroDivisionError] when there is no array, [nan] (with a warning of
    numpy) when the arrays have no row. *)
Definition computeAverageDisplacement (qDictionary1 qDictionary2 : qDictionary)
    (s : gmap loc array2) : option R :=
  let coordinateList1 := qs qDictionary1 in
  let coordinateList2 := qs qDictionary2 in
  '(numerator, nTotal) ←
    displacementLoop (seq 0 (length coordinateList1))
      coordinateList1 coordinateList2 s 0 0;
  if (nTotal =? 0)%nat then None else Some (numerator / INR nTotal).

(** The length of the vector [d]. *)
Definition norm (d : list R) : R :=
  sqrt (fold_left (fun acc x => acc + x ^ 2) d 0).

(** The arrays [arrays2] are the arrays [arrays1] moved by the vector
    [d]: array by array, of the same shape, every row with [d] added. *)
Definition moved_by (d : list R) (s : gmap loc array2)
    (arrays1 arrays2 : list loc) : Prop :=
  Forall2
    (fun l1 l2 => exists q1,
       s !! l1 = Some q1 /\ shape1 q1 = length d /\
       Forall (fun row => length row = shape1 q1) (rows q1) /\
       s !! l2 = Some (mkArray2 (shape1 q1)
                         (map (fun row => zip_with Rplus row d) (rows q1))))
    arrays1 arrays2.

(** [x] is a coordinate of one of the arrays. *)
Definition coordinate_of (arrays : list loc) (s : gmap loc array2) (x : R)
  : Prop :=
  exists l q, l ∈ arrays /\ s !! l = Some q /\ x ∈ concat (rows q).

(** The arrays of the dictionary: distinct objects, each in the store
    with rows of [shape[1]] entries, for three dimensions at most. *)
Definition well_formed (qDictionary : qDictionary) (s : gmap loc array2)
  : Prop :=
  NoDup (qs qDictionary) /\
  Forall (fun l => exists q,
            s !! l = Some q /\ (shape1 q <= 3)%nat /\
            Forall (fun row => length row = shape1 q) (rows q))
    (qs qDictionary).

(** Row [row] with every coordinate put through [inboundCoordinate] for
    the box size of its dimension. *)
Definition inboundRow (boxSizeVector row : list R) : list R :=
  zip_with inboundCoordinate boxSizeVector row.

(** Every coordinate of the row is within one box length of the box. *)
Definition near_box (boxSizeVector row : list R) : Prop :=
  Forall2 (fun boxSize x => 0 < boxSize /\ - boxSize - tol <= x < 2 * boxSize)
    (take (length row) boxSizeVector) row.

(** Every coordinate of the row is in the box, up to the tolerance. *)
Definition in_box (boxSizeVector row : list R) : Prop :=
  Forall2 (fun boxSize x => - tol <= x < boxSize)
    (take (length row) boxSizeVector) row.

End Coordinates.

(** *** [dat2GroupDict]

    The function reads a LATTE [.dat] file: the number of atoms on the
    first line, three lines of box vectors, and one line for each atom
    with its type and its coordinates.  [lines] is what [readlines]
    returns, [None] stands for an exception ([IndexError] on a missing
    first line or an empty atom line, [ValueError] from [int], [float] or
    [np.array]).  The arrays it builds are new and not shared: the
    dictionary holds their rows.  [py_int_of_str] is [int] on strings. *)

Module Dat.
Section Dat2GroupDict.
Context {num : Type} `{PyNum num}.
Variable py_int_of_str : string -> option Z.

(** An entry of ["boxVectors"] is the array read from a line, or still the
    [0] that the list is initialized with. *)
Record qDictionary : Type := mkQDictionary {
  boxVectors : list (option (list num));
  atomTypes : list string;
  qs : list (list (list num))
}.

(** The stop index of [l[start:stop]] for a list of [len] entries: a
    negative [stop] counts from the end. *)
Definition slice_stop (stop : Z) (len : nat) : nat :=
  if (stop <? 0)%Z then Z.to_nat (Z.of_nat len + stop) else Z.to_nat stop.

(** [l.index(x)] *)
Fixpoint index (x : string) (l : list string) : option nat :=
  match l with
  | [] => None
  | y :: l' => if decide (y = x) then Some 0%nat else S <$> index x l'
  end.

(** The loop that extracts the box periodicity vectors. *)
Fixpoint boxLoop (rows : list string) (irow : nat)
    (boxPeriodicityVectors : list (option (list num)))
  : option (list (option (list num))) :=
  match rows with
  | [] => Some boxPeriodicityVectors
  | row :: rest =>
      let rowList := PyStr.split row in
      curPeriodicityVector ← mapM py_float rowList;
      boxLoop rest (S irow)
        (<[irow := Some curPeriodicityVector]> boxPeriodicityVectors)
  end.

(** The body of the loop over the atom lines, on the pair of
    [existingAtoms] and [qsList]. *)
Definition atomStep (state : list string * list (list (list num)))
    (row : string) : option (list string * list (list (list num))) :=
  let '(existingAtoms, qsList) := state in
  let rowList := PyStr.split row in
  (* get atom type of current row *)
  curAtomType ← rowList !! 0%nat;
  (* convert coordinate string list into list of floats *)
  curCoordinatesFloat ← mapM py_float (slice 1 4 rowList);
  if decide (curAtomType ∈ existingAtoms) then
    (* find index of coordinate list *)
    atomTypeIndex ← index curAtomType existingAtoms;
    (* append current coordinates to this existing list *)
    Some (existingAtoms,
          alter (fun q => q ++ [curCoordinatesFloat]) atomTypeIndex qsList)
  else
    Some (existingAtoms ++ [curAtomType], qsList ++ [[curCoordinatesFloat]]).

Fixpoint atomLoop (rows : list string)
    (state : list string * list (list (list num)))
  : option (list string * list (list (list num))) :=
  match rows with
  | [] => Some state
  | row :: rest => state' ← atomStep state row; atomLoop rest state'
  end.

(** The lines [content[4:4+N_atoms]]. *)
Definition atomRows (N_atoms : Z) (content : list string) : list string :=
  slice 4 (slice_stop (4 + N_atoms) (length content)) content.

Definition dat2GroupDict (lines : list string) : option qDictionary :=
  let content := map PyStr.strip lines in
  line0 ← content !! 0%nat;
  N_atoms ← py_int_of_str line0;
  boxPeriodicityVectors ← boxLoop (slice 1 4 content) 0 (replicate 3 None);
  '(existingAtoms, qsList) ← atomLoop (atomRows N_atoms content) ([], []);
  (* convert list of coordinate lists to list of numpy coordinate arrays *)
  qArrayList ← mapM np_array qsList;
  Some {| boxVectors := boxPeriodicityVectors;
          atomTypes := existingAtoms;
          qs := qArrayList |}.

(** An atom line read: the type and the coordinates of [row]. *)
Definition atom_of (row : string) (a : string * list num) : Prop :=
  PyStr.split row !! 0%nat = Some (fst a) /\
  mapM py_float (slice 1 4 (PyStr.split row)) = Some (snd a).

(** The coordinates of the atoms of type [t], in the order of [atoms]. *)
Definition coordinates_of (t : string) (atoms : list (string * list num))
  : list (list num) :=
  map snd (filter (fun a => fst a = t) atoms).

(** [existingAtoms] and [qsList] hold the atoms [atoms], by type. *)
Definition grouped (atoms : list (string * list num))
    (state : list string * list (list (list num))) : Prop :=
  NoDup (fst state) /\
  (forall t, t ∈ fst state <-> t ∈ map fst atoms) /\
  length (snd state) = length (fst state) /\
  forall i t, fst state !! i = Some t ->
    snd state !! i = Some (coordinates_of t atoms).

End Dat2GroupDict.
End Dat.

(** The format [:.5f] on the numbers of integral value. *)
Definition exampleFmt5 (x : IntNum.t) : string :=
  IntNum.decimal (IntNum.value x) +:+ ".00000".

(** [int] on the decimal texts of integers, and a [.dat] file of three
    atoms of two types in a cubic box. *)
Definition exampleInt (s : string) : option Z :=
  Z.of_int <$> NilEmpty.int_of_string s.

Definition exampleDat : list string :=
  map (fun line => line +:+ PyStr.newline)
    ["3"; "10.0 0.0 0.0"; "0.0 10.0 0.0"; "0.0 0.0 10.0";
     "C 1.0 2.0 3.0"; "H 4.0 5.0 6.0"; "C 7.0 8.0 9.0"].

(** A cubic box of side 10 and one array of two atoms, the first of them
    outside the box in two dimensions; and a dictionary with four box
    vectors. *)
Definition exampleBox : Coordinates.qDictionary :=
  {| Coordinates.boxVectors := [[10; 0; 0]; [0; 10; 0]; [0; 0; 10]]%R;
     Coordinates.atomTypes := ["C"];
     Coordinates.qs := [0%nat] |}.

Definition exampleBoxStore : gmap loc Coordinates.array2 :=
  {[ 0%nat := Coordinates.mkArray2 3 [[-1; 5; 12]; [1; 2; 3]]%R ]}.

(** The same atoms moved by the vector [(3, 4, 0)], in a second array. *)
Definition exampleMoved : Coordinates.qDictionary :=
  {| Coordinates.boxVectors := Coordinates.boxVectors exampleBox;
     Coordinates.atomTypes := ["C"];
     Coordinates.qs := [1%nat] |}.

Definition exampleMovedStore : gmap loc Coordinates.array2 :=
  <[1%nat := Coordinates.mkArray2 3 [[2; 9; 12]; [4; 6; 3]]%R]> exampleBoxStore.

Definition exampleFourVectors : Coordinates.qDictionary :=
  {| Coordinates.boxVectors :=
       [[10; 0; 0; 0]; [0; 10; 0; 0]; [0; 0; 10; 0]; [0; 0; 0; 10]]%R;
     Coordinates.atomTypes := ["C"];
     Coordinates.qs := [0%nat] |}.

(* ================================================================== *)
(** * Part II.  Properties *)
(* ================================================================== *)

(** ** Chebyshev polynomials, [chebval] and [eval_chebyu] *)

Section ChebyshevFacts.
Import Porezag.
Local Open Scope R_scope.

Lemma chebT_rec (k : nat) (y : R) :
  chebT (S (S k)) y = 2 * y * chebT (S k) y - chebT k y.
Proof. reflexivity. Qed.

Lemma chebU_rec (n : nat) (y : R) :
  chebU (S (S n)) y = 2 * y * chebU (S n) y - chebU n y.
Proof. reflexivity. Qed.

Lemma chebU_succ (n : nat) (y : R) :
  chebU (S n) y = 2 * y * chebU n y - chebU_pred n y.
Proof. destruct n as [|n]; [cbn; lra | apply chebU_rec]. Qed.

(** [T_{n+1} = y U_n - U_{n-1}]. *)
Lemma chebT_chebU (n : nat) (y : R) :
  chebT (S n) y = y * chebU n y - chebU_pred n y.
Proof.
  assert (H : chebT (S n) y = y * chebU n y - chebU_pred n y /\
              chebT (S (S n)) y = y * chebU (S n) y - chebU_pred (S n) y).
  { induction n as [|n [IH1 IH2]].
    - cbn. split; lra.
    - split; [exact IH2|].
      rewrite chebT_rec, IH2, IH1. cbn [chebU_pred].
      rewrite chebU_rec, (chebU_succ n). ring. }
  exact (proj1 H).
Qed.

Lemma cheb_series_app (k : nat) (c1 c2 : list R) (y : R) :
  cheb_series k (c1 ++ c2) y =
  cheb_series k c1 y + cheb_series (k + length c1) c2 y.
Proof.
  revert k. induction c1 as [|a c1 IH]; intros k; cbn [cheb_series app length].
  - rewrite Nat.add_0_r. ring.
  - rewrite IH. replace (S k + length c1)%nat with (k + S (length c1))%nat by lia.
    ring.
Qed.

(** Clenshaw's loop keeps the value of the series. *)
Lemma clenshaw_series (x : R) (cs : list R) (c0 c1 : R) :
  fst (clenshaw (2 * x) cs c0 c1) + snd (clenshaw (2 * x) cs c0 c1) * x =
  cheb_series 0 (rev cs) x
  + c0 * chebT (length cs) x + c1 * chebT (S (length cs)) x.
Proof.
  revert c0 c1. induction cs as [|ci cs IH]; intros c0 c1.
  - cbn. ring.
  - cbn [clenshaw]. rewrite IH. cbn [rev length].
    rewrite cheb_series_app, (chebT_rec (length cs)). cbn [cheb_series].
    rewrite length_rev, Nat.add_0_l. ring.
Qed.

(** [chebval] is the Chebyshev series of its coefficients. *)
Lemma chebval_series (x : R) (c : list R) :
  chebval x c = cheb_series 0 c x.
Proof.
  unfold chebval. rewrite <- (rev_involutive c) at 2.
  destruct (rev c) as [|c1 [|c0 cs]].
  - reflexivity.
  - cbn. ring.
  - pose proof (clenshaw_series x cs c0 c1) as H.
    destruct (clenshaw (2 * x) cs c0 c1) as [a b]. cbn [fst snd] in H.
    rewrite H. cbn [rev]. rewrite <- app_assoc, cheb_series_app.
    cbn [app cheb_series]. rewrite length_rev, Nat.add_0_l. ring.
Qed.

Lemma chebyu_loop_chebU (n j : nat) (y a : R) :
  chebyu_loop n (2 * y) (a, chebU j y, chebU (S j) y) =
  (match n with
   | O => a
   | S n' => chebU (j + n') y
   end, chebU (j + n) y, chebU (S (j + n)) y).
Proof.
  revert j a. induction n as [|n IH]; intros j a.
  - cbn. rewrite Nat.add_0_r. reflexivity.
  - cbn [chebyu_loop].
    replace (2 * y * chebU (S j) y - chebU j y) with (chebU (S (S j)) y)
      by (rewrite chebU_rec; ring).
    rewrite IH. replace (S j + n)%nat with (j + S n)%nat by lia.
    destruct n as [|n]; [rewrite Nat.add_0_r; reflexivity|].
    replace (S j + n)%nat with (j + S n)%nat by lia. reflexivity.
Qed.

(** [eval_chebyu] at a natural order is [U_n], and [U_{-1} = 0]. *)
Lemma eval_chebyu_nat (n : nat) (y : R) :
  eval_chebyu (Z.of_nat n) y = chebU n y.
Proof.
  unfold eval_chebyu.
  destruct (Z.eqb_spec (Z.of_nat n) (-1)) as [E|_]; [lia|].
  destruct (Z.ltb_spec (Z.of_nat n) (-1)) as [E|_]; [lia|].
  replace (Z.to_nat (Z.of_nat n + 1)) with (S n) by lia.
  destruct n as [|[|n]].
  - cbn. ring.
  - cbn. ring.
  - change (chebyu_loop (S (S (S n))) (2 * y) (0, -1, 0))
      with (chebyu_loop (S n) (2 * y)
              (0, 2 * y * 0 - -1, 2 * y * (2 * y * 0 - -1) - 0)).
    replace (2 * y * 0 - -1) with (chebU 0 y) by (cbn; ring).
    replace (2 * y * chebU 0 y - 0) with (chebU 1 y) by (cbn; ring).
    rewrite chebyu_loop_chebU. cbn [Nat.add]. ring.
Qed.

Lemma eval_chebyu_pred (n : nat) (y : R) :
  eval_chebyu (Z.of_nat n - 1) y = chebU_pred n y.
Proof.
  destruct n as [|n].
  - reflexivity.
  - replace (Z.of_nat (S n) - 1)%Z with (Z.of_nat n) by lia.
    apply eval_chebyu_nat.
Qed.

End ChebyshevFacts.

(** ** Derivatives of the Chebyshev series *)

Section ChebyshevDerivative.
Import Porezag.
Local Open Scope R_scope.

Lemma D_const (a x : R) : derivable_pt_lim (fun _ => a) x 0.
Proof. exact (derivable_pt_lim_const a x). Qed.

Lemma D_id (x : R) : derivable_pt_lim (fun y => y) x 1.
Proof. exact (derivable_pt_lim_id x). Qed.

Lemma D_plus (f g : R -> R) (x l1 l2 : R) :
  derivable_pt_lim f x l1 -> derivable_pt_lim g x l2 ->
  derivable_pt_lim (fun y => f y + g y) x (l1 + l2).
Proof. exact (derivable_pt_lim_plus f g x l1 l2). Qed.

Lemma D_minus (f g : R -> R) (x l1 l2 : R) :
  derivable_pt_lim f x l1 -> derivable_pt_lim g x l2 ->
  derivable_pt_lim (fun y => f y - g y) x (l1 - l2).
Proof. exact (derivable_pt_lim_minus f g x l1 l2). Qed.

Lemma D_mult (f g : R -> R) (x l1 l2 : R) :
  derivable_pt_lim f x l1 -> derivable_pt_lim g x l2 ->
  derivable_pt_lim (fun y => f y * g y) x (l1 * g x + f x * l2).
Proof. exact (derivable_pt_lim_mult f g x l1 l2). Qed.

Lemma D_value (f : R -> R) (x l l' : R) :
  l = l' -> derivable_pt_lim f x l -> derivable_pt_lim f x l'.
Proof. intros ->. exact (fun H => H). Qed.

(** [T_n' = n U_{n-1}]. *)
Lemma chebT_deriv (n : nat) (y : R) :
  derivable_pt_lim (chebT n) y (INR n * chebU_pred n y).
Proof.
  assert (H : derivable_pt_lim (chebT n) y (INR n * chebU_pred n y) /\
              derivable_pt_lim (chebT (S n)) y
                (INR (S n) * chebU_pred (S n) y)).
  { induction n as [|n [IH1 IH2]].
    - split.
      + apply (D_value _ _ 0); [cbn; ring | exact (D_const 1 y)].
      + apply (D_value _ _ 1); [cbn; ring | exact (D_id y)].
    - split; [exact IH2|].
      change (chebT (S (S n)))
        with (fun y => (2 * y) * chebT (S n) y - chebT n y).
      eapply D_value;
        [| apply D_minus;
           [ apply D_mult;
             [ apply D_mult; [exact (D_const 2 y) | exact (D_id y)]
             | exact IH2 ]
           | exact IH1 ] ].
      rewrite (chebT_chebU n). rewrite !S_INR. cbn [chebU_pred].
      rewrite (chebU_succ n). ring. }
  exact (proj1 H).
Qed.

Lemma cheb_series_deriv (k : nat) (c : list R) (y : R) :
  derivable_pt_lim (cheb_series k c) y (cheb_dseries k c y).
Proof.
  revert k. induction c as [|ck c IH]; intros k.
  - exact (D_const 0 y).
  - change (cheb_series k (ck :: c))
      with (fun y => ck * chebT k y + cheb_series (S k) c y).
    cbn [cheb_dseries].
    apply D_plus; [|apply IH].
    eapply D_value; [| apply D_mult; [exact (D_const ck y) | apply chebT_deriv]].
    cbv beta. ring.
Qed.

(** The map of [[aa, b]] onto [[-1, 1]] and its slope. *)
Lemma domain_map_deriv (aa b r : R) :
  b - aa <> 0 ->
  derivable_pt_lim (fun r => (2 * r - b - aa) / (b - aa)) r (2 / (b - aa)).
Proof.
  intros Hne.
  apply (derivable_pt_lim_ext
           (fun r => (2 * r - (b + aa)) * / (b - aa))).
  { intros z. unfold Rdiv. ring. }
  eapply D_value;
    [| apply D_mult;
       [ apply D_minus;
         [ apply D_mult; [exact (D_const 2 r) | exact (D_id r)]
         | exact (D_const (b + aa) r) ]
       | exact (D_const (/ (b - aa)) r) ] ].
  cbv beta. unfold Rdiv. ring.
Qed.

(** The energy expression [chebval(y(r), c) - c[0]/2] as a function of
    [r], and its derivative. *)
Lemma energy_deriv (aa b : R) (c : list R) (r : R) :
  b - aa <> 0 ->
  derivable_pt_lim
    (fun r => chebval ((2 * r - b - aa) / (b - aa)) c - c_0 c / 2) r
    (cheb_dseries 0 c ((2 * r - b - aa) / (b - aa)) * (2 / (b - aa))).
Proof.
  intros Hne.
  apply (derivable_pt_lim_ext
           (fun r => cheb_series 0 c ((2 * r - b - aa) / (b - aa)) - c_0 c / 2)).
  { intros z. rewrite chebval_series. reflexivity. }
  eapply D_value;
    [| apply D_minus;
       [ exact (derivable_pt_lim_comp
                  (fun r => (2 * r - b - aa) / (b - aa)) (cheb_series 0 c) r
                  _ _ (domain_map_deriv aa b r Hne)
                  (cheb_series_deriv 0 c _))
       | exact (D_const (c_0 c / 2) r) ] ].
  cbv beta. ring.
Qed.

(** The loop of [PorezagPair] accumulates the derivative series. *)
Lemma force_loop (y dy : R) (c pre : list R) (k : nat) (acc : R) :
  length pre = k ->
  fold_left
    (fun force m =>
       force + - nth (Z.to_nat (m - 1)) (pre ++ c) 0 * IZR (m - 1)
                 * eval_chebyu (m - 2) y * dy)
    (map (fun i => (1 + Z.of_nat i)%Z) (seq k (length c))) acc
  = acc - cheb_dseries k c y * dy.
Proof.
  revert pre k acc. induction c as [|a c IH]; intros pre k acc Hk.
  - cbn. ring.
  - cbn [length seq map fold_left cheb_dseries].
    replace (pre ++ a :: c) with ((pre ++ [a]) ++ c)
      by (rewrite <- app_assoc; reflexivity).
    rewrite (IH (pre ++ [a]) (S k)) by (rewrite length_app; cbn; lia).
    replace (Z.to_nat (1 + Z.of_nat k - 1)) with k by lia.
    replace (1 + Z.of_nat k - 1)%Z with (Z.of_nat k) by lia.
    replace (1 + Z.of_nat k - 2)%Z with (Z.of_nat k - 1)%Z by lia.
    rewrite eval_chebyu_pred, <- INR_IZR_INZ.
    rewrite <- app_assoc. cbn [app].
    rewrite app_nth2 by lia. rewrite Hk, Nat.sub_diag. cbn [nth]. ring.
Qed.

Lemma Rgeb_true (x y : R) : y <= x -> Rgeb x y = true.
Proof. intros H. unfold Rgeb. destruct (Rge_dec x y); [reflexivity | lra]. Qed.

Lemma Rleb_true (x y : R) : x <= y -> Rleb x y = true.
Proof. intros H. unfold Rleb. destruct (Rle_dec x y); [reflexivity | lra]. Qed.

Lemma Rgeb_false (x y : R) : x < y -> Rgeb x y = false.
Proof. intros H. unfold Rgeb. destruct (Rge_dec x y); [lra | reflexivity]. Qed.

Lemma Rleb_false (x y : R) : y < x -> Rleb x y = false.
Proof. intros H. unfold Rleb. destruct (Rle_dec x y); [lra | reflexivity]. Qed.

(** Inside its domain [PorezagPair] returns the series and the
    accumulated derivative series. *)
Lemma PorezagPair_inside (r : R) :
  1 <= r <= 4.1 ->
  PorezagPair r =
  (chebval ((2 * r - 4.1 - 1) / (4.1 - 1)) VC_rep - c_0 VC_rep / 2,
   0 - cheb_dseries 0 VC_rep ((2 * r - 4.1 - 1) / (4.1 - 1)) * (2 / (4.1 - 1))).
Proof.
  intros [H1 H2]. unfold PorezagPair.
  rewrite (Rgeb_true r 1 H1), (Rleb_true r 4.1 H2). cbn [andb].
  f_equal.
  change (range 1 11)
    with (map (fun i => (1 + Z.of_nat i)%Z) (seq 0 (length VC_rep))).
  exact (force_loop _ _ VC_rep [] 0 0 eq_refl).
Qed.

Lemma PorezagPair_outside (r : R) :
  r < 1 \/ 4.1 < r -> PorezagPair r = (0, 0).
Proof.
  intros [H|H]; unfold PorezagPair.
  - rewrite (Rgeb_false r 1 H). reflexivity.
  - rewrite (Rleb_false r 4.1 H), andb_false_r. reflexivity.
Qed.

(** Two functions that agree around [x] have the same derivative at [x]. *)
Lemma D_local (f g : R -> R) (x l lo hi : R) :
  lo < x < hi ->
  (forall z, lo < z < hi -> f z = g z) ->
  derivable_pt_lim f x l -> derivable_pt_lim g x l.
Proof.
  intros Hx Hfg Hf eps Heps.
  destruct (Hf eps Heps) as [delta Hdelta].
  assert (Hm : 0 < Rmin delta (Rmin (x - lo) (hi - x))).
  { apply Rmin_glb_lt; [apply cond_pos | apply Rmin_glb_lt; lra]. }
  exists (mkposreal _ Hm). intros h Hh Hlt. cbn [pos] in Hlt.
  assert (Hd : Rabs h < delta).
  { eapply Rlt_le_trans; [exact Hlt | apply Rmin_l]. }
  assert (Hb : Rabs h < Rmin (x - lo) (hi - x)).
  { eapply Rlt_le_trans; [exact Hlt | apply Rmin_r]. }
  assert (Hlo : Rabs h < x - lo).
  { eapply Rlt_le_trans; [exact Hb | apply Rmin_l]. }
  assert (Hhi : Rabs h < hi - x).
  { eapply Rlt_le_trans; [exact Hb | apply Rmin_r]. }
  rewrite <- (Hfg (x + h)), <- (Hfg x) by
    (try exact Hx; unfold Rabs in Hlo, Hhi; destruct (Rcase_abs h); lra).
  exact (Hdelta h Hh Hd).
Qed.

End ChebyshevDerivative.

(** ** The Porezag parameterization: claims C1, C2 and C3 *)

Section PorezagClaims.
Import Porezag.
Local Open Scope R_scope.

(** The derivative series of the pair potential, term by term. *)
Lemma VC_rep_dseries (y : R) :
  cheb_dseries 0 VC_rep y =
  sum_f 1 9 (fun k => nth k VC_rep 0 * INR k * chebU (k - 1) y).
Proof.
  unfold VC_rep, sum_f.
  cbn [cheb_dseries sum_f_R0 Nat.sub Nat.add nth chebU_pred].
  rewrite !S_INR. cbn [INR]. ring.
Qed.



(** C2.  For every distance [r] with [1.0 <= r <= 4.1] the force returned
    by [PorezagPair] is [-(sum_{k=1}^{9} c[k] k U_{k-1}(y)) (2/(4.1 - 1.0))]
    with [y = (2r - 4.1 - 1.0)/(4.1 - 1.0)], the returned energy is
    [chebval(y, c) - c[0]/2], and the force is the negative derivative with
    respect to [r] of that energy expression (and, strictly inside the
    domain, of the energy that [PorezagPair] returns). *)
Theorem PorezagPair_force_negative_gradient (r : R) :
  1 <= r <= 4.1 ->
  let y := (2 * r - 4.1 - 1) / (4.1 - 1) in
  let energy :=
    fun r' => chebval ((2 * r' - 4.1 - 1) / (4.1 - 1)) VC_rep - c_0 VC_rep / 2 in
  fst (PorezagPair r) = energy r /\
  snd (PorezagPair r) =
    - (sum_f 1 9 (fun k => nth k VC_rep 0 * INR k * chebU (k - 1) y))
      * (2 / (4.1 - 1)) /\
  derivable_pt_lim energy r (- snd (PorezagPair r)) /\
  (1 < r < 4.1 ->
   derivable_pt_lim (fun r' => fst (PorezagPair r')) r (- snd (PorezagPair r))).
Proof.
  intros Hr y energy.
  rewrite (PorezagPair_inside r Hr). cbn [fst snd]. fold y.
  assert (Hd : derivable_pt_lim energy r
                 (- (0 - cheb_dseries 0 VC_rep y * (2 / (4.1 - 1))))).
  { eapply D_value; [| exact (energy_deriv 1 4.1 VC_rep r ltac:(lra))].
    fold y. ring. }
  split; [reflexivity|]. split; [rewrite VC_rep_dseries; ring|].
  split; [exact Hd|].
  intros Hin.
  apply (D_local energy _ r _ 1 4.1 Hin); [|exact Hd].
  intros z Hz. rewrite (PorezagPair_inside z) by lra. reflexivity.
Qed.

Lemma PorezagPair_force_negative_gradient_witness :
  1 <= 2 <= 4.1 /\
  snd (PorezagPair 2) =
    - (sum_f 1 9 (fun k => nth k VC_rep 0 * INR k
                           * chebU (k - 1) ((2 * 2 - 4.1 - 1) / (4.1 - 1))))
      * (2 / (4.1 - 1)).
Proof.
  split; [lra|].
  exact (proj1 (proj2 (PorezagPair_force_negative_gradient 2 ltac:(lra)))).
Defined.

(** C3.  For every [r] outside [[1, 7]] all twenty entries of
    [PorezagSKF r] are [0], and for every [r] outside [[1.0, 4.1]]
    [PorezagPair r] is the pair [(0, 0)]; both functions are total, so no
    error arises. *)
Theorem Porezag_outside_domain :
  (forall r : R, r < 1 \/ 7 < r -> PorezagSKF r = zeroElements) /\
  (forall r : R, r < 1 \/ 4.1 < r -> PorezagPair r = (0, 0)).
Proof.
  split; [|exact PorezagPair_outside].
  intros r [H|H]; unfold PorezagSKF.
  - rewrite (Rgeb_false r 1 H). reflexivity.
  - rewrite (Rleb_false r 7 H), andb_false_r. reflexivity.
Qed.

Lemma Porezag_outside_domain_witness :
  PorezagSKF 8 = zeroElements /\ PorezagPair (1 / 2) = (0, 0).
Proof.
  split.
  - exact (proj1 Porezag_outside_domain 8 ltac:(lra)).
  - exact (proj2 Porezag_outside_domain (1 / 2) ltac:(lra)).
Defined.

End PorezagClaims.

(** ** Python strings: splitting, joining, reading lines *)

Section PyStrFacts.
Import PyStr.

Lemma string_forallb_impl (p q : ascii -> bool) (s : string) :
  (forall c, p c = true -> q c = true) ->
  string_forallb p s = true -> string_forallb q s = true.
Proof.
  intros Hpq. induction s as [|c s IH]; [reflexivity|].
  cbn. intros [Hc Hs]%andb_true_iff. rewrite (Hpq c Hc), (IH Hs). reflexivity.
Qed.

Lemma string_app_cons (c : ascii) (s1 s2 : string) :
  String c s1 +:+ s2 = String c (s1 +:+ s2).
Proof. reflexivity. Qed.

Lemma string_app_nil_l (s : string) : EmptyString +:+ s = s.
Proof. reflexivity. Qed.

Lemma string_app_nil_r (s : string) : s +:+ EmptyString = s.
Proof.
  induction s as [|c s IH]; [reflexivity|].
  rewrite string_app_cons, IH. reflexivity.
Qed.

Lemma string_app_assoc (s1 s2 s3 : string) :
  (s1 +:+ s2) +:+ s3 = s1 +:+ (s2 +:+ s3).
Proof.
  induction s1 as [|c s1 IH]; [reflexivity|].
  rewrite !string_app_cons, IH. reflexivity.
Qed.

Lemma string_forallb_app (p : ascii -> bool) (s1 s2 : string) :
  string_forallb p (s1 +:+ s2) = string_forallb p s1 && string_forallb p s2.
Proof.
  induction s1 as [|c s1 IH]; [reflexivity|].
  rewrite string_app_cons. cbn [string_forallb].
  rewrite IH, andb_assoc. reflexivity.
Qed.

Lemma lacks_forallb (c : ascii) (s : string) :
  lacks c s <-> string_forallb (fun d => negb (Ascii.eqb d c)) s = true.
Proof.
  unfold lacks. induction s as [|d s IH]; [cbn; tauto|].
  cbn. destruct (Ascii.eqb d c); cbn; [split; discriminate | exact IH].
Qed.

Lemma lacks_app (c : ascii) (s1 s2 : string) :
  lacks c (s1 +:+ s2) <-> lacks c s1 /\ lacks c s2.
Proof.
  rewrite !lacks_forallb, string_forallb_app, andb_true_iff. tauto.
Qed.

Lemma remove_lacks (c : ascii) (s : string) : lacks c s -> remove c s = s.
Proof.
  unfold lacks. induction s as [|d s IH]; [reflexivity|].
  cbn. destruct (Ascii.eqb d c); [discriminate|].
  intros Hs. rewrite (IH Hs). reflexivity.
Qed.

Lemma cons_nonempty_app (t : string) (ts us : list string) :
  cons_nonempty t (ts ++ us) = cons_nonempty t ts ++ us.
Proof. destruct t; reflexivity. Qed.

(** Splitting a string at one of its blanks. *)
Lemma split_go_app_space (s1 s2 : string) (c : ascii) :
  isspace c = true ->
  split_go (s1 +:+ String c s2) =
  (fst (split_go s1), snd (split_go s1) ++ split s2).
Proof.
  intros Hc. induction s1 as [|d s1 IH].
  - rewrite string_app_nil_l. cbn [split_go fst snd app]. unfold split.
    destruct (split_go s2) as [t ts]. rewrite Hc. reflexivity.
  - rewrite string_app_cons. cbn [split_go]. rewrite IH.
    destruct (split_go s1) as [t ts]. cbn [fst snd].
    destruct (isspace d); cbn [fst snd]; [|reflexivity].
    rewrite cons_nonempty_app. reflexivity.
Qed.

Lemma split_app_space (s1 s2 : string) (c : ascii) :
  isspace c = true ->
  split (s1 +:+ String c s2) = split s1 ++ split s2.
Proof.
  intros Hc. unfold split at 1 2. rewrite (split_go_app_space s1 s2 c Hc).
  destruct (split_go s1) as [t ts]. cbn [fst snd].
  apply cons_nonempty_app.
Qed.

Lemma split_go_nospace (s : string) :
  string_forallb (fun c => negb (isspace c)) s = true ->
  split_go s = (s, []).
Proof.
  induction s as [|c s IH]; [reflexivity|].
  cbn. intros [Hc Hs]%andb_true_iff. rewrite (IH Hs).
  destruct (isspace c); [discriminate | reflexivity].
Qed.

Lemma split_word (w : string) : word w -> split w = [w].
Proof.
  intros [Hne Hw]. unfold split. rewrite (split_go_nospace w Hw).
  destruct w; [contradiction | reflexivity].
Qed.

Lemma split_empty : split EmptyString = [].
Proof. reflexivity. Qed.

Lemma join_cons2 (x y : string) (l : list string) :
  join " " (x :: y :: l) = x +:+ String " " (join " " (y :: l)).
Proof. reflexivity. Qed.

(** [split] after [join]: the words of the pieces, in order. *)
Lemma split_join (l : list string) :
  split (join " " l) = concat (map split l).
Proof.
  induction l as [|x l IH]; [reflexivity|].
  destruct l as [|y l].
  - cbn. rewrite app_nil_r. reflexivity.
  - rewrite join_cons2, split_app_space by reflexivity.
    rewrite IH. reflexivity.
Qed.

Lemma split_join_words (l : list string) :
  Forall word l -> split (join " " l) = l.
Proof.
  intros Hl. rewrite split_join.
  induction Hl as [|w l Hw _ IH]; [reflexivity|].
  cbn. rewrite (split_word w Hw), IH. reflexivity.
Qed.

Lemma split_line (s : string) : split (s +:+ newline) = split s.
Proof.
  unfold newline. rewrite split_app_space by reflexivity.
  rewrite split_empty, app_nil_r. reflexivity.
Qed.

Lemma lacks_join (c : ascii) (l : list string) :
  c <> " "%char -> Forall (lacks c) l -> lacks c (join " " l).
Proof.
  intros Hc Hl. induction Hl as [|x l Hx Hl IH]; [reflexivity|].
  destruct l as [|y l]; [exact Hx|].
  rewrite join_cons2. apply lacks_app. split; [exact Hx|].
  unfold lacks. cbn [contains].
  destruct (Ascii.eqb_spec " " c) as [E|_]; [congruence | exact IH].
Qed.

(** Reading back the lines that were written. *)
Lemma readlines_app_line (l rest : string) :
  lacks nl l ->
  readlines ((l +:+ newline) +:+ rest) = (l +:+ newline) :: readlines rest.
Proof.
  unfold lacks. induction l as [|c l IH]; intros Hl.
  - cbn. reflexivity.
  - cbn in Hl. rewrite !string_app_cons. cbn [readlines].
    destruct (Ascii.eqb c nl); [discriminate|].
    rewrite (IH Hl). reflexivity.
Qed.

Lemma readlines_written (ls : list string) :
  Forall (lacks nl) ls ->
  readlines (written (map (fun l => l +:+ newline) ls))
  = map (fun l => l +:+ newline) ls.
Proof.
  intros Hls. induction Hls as [|l ls Hl _ IH]; [reflexivity|].
  cbn [map written fold_right]. fold (written (map (fun l => l +:+ newline) ls)).
  rewrite (readlines_app_line l _ Hl), IH. reflexivity.
Qed.

Lemma split_on_lacks (sep : ascii) (s : string) :
  lacks sep s -> split_on sep s = [s].
Proof.
  unfold lacks. induction s as [|c s IH]; [reflexivity|].
  cbn. rewrite Ascii.eqb_sym. destruct (Ascii.eqb sep c); [discriminate|].
  intros Hs. rewrite (IH Hs). reflexivity.
Qed.

Lemma split_on_app (sep : ascii) (s1 s2 : string) :
  lacks sep s1 ->
  split_on sep (s1 +:+ String sep s2) = s1 :: split_on sep s2.
Proof.
  unfold lacks. induction s1 as [|c s1 IH].
  - intros _. rewrite string_app_nil_l. cbn. rewrite Ascii.eqb_refl. reflexivity.
  - cbn [contains]. rewrite string_app_cons. cbn [split_on].
    rewrite (Ascii.eqb_sym c sep).
    destruct (Ascii.eqb sep c); [discriminate|].
    intros Hs. rewrite (IH Hs). reflexivity.
Qed.

End PyStrFacts.

(** ** The text of numbers *)

Section NumberText.
Import PyStr.

Lemma number_char_not_space (c : ascii) :
  number_char c = true -> negb (isspace c) = true.
Proof.
  destruct c as [[] [] [] [] [] [] [] []]; cbn; intros Hc;
    solve [reflexivity | discriminate Hc].
Qed.

Lemma number_char_neq (d c : ascii) :
  number_char d = false -> number_char c = true -> negb (Ascii.eqb c d) = true.
Proof.
  intros Hd Hc. destruct (Ascii.eqb_spec c d) as [->|_]; [congruence | reflexivity].
Qed.

Lemma number_text_word (s : string) : number_text s -> word s.
Proof.
  intros [Hne Hs]. split; [exact Hne|].
  exact (string_forallb_impl _ _ s number_char_not_space Hs).
Qed.

(** The text of a number lacks every character that is not a number
    character: the comma, the asterisk, the at sign and the newline among
    them. *)
Lemma number_text_lacks (d : ascii) (s : string) :
  number_char d = false -> number_text s -> lacks d s.
Proof.
  intros Hd [_ Hs]. apply lacks_forallb.
  exact (string_forallb_impl _ _ s (fun c => number_char_neq d c Hd) Hs).
Qed.

Lemma number_text_not_Spline (s : string) : number_text s -> s <> "Spline".
Proof.
  intros [_ Hs] ->. discriminate Hs.
Qed.

End NumberText.

(** ** The integer instance satisfies the text laws *)

Section IntNumFacts.
Import PyStr.

Lemma string_of_uint_chars (u : Decimal.uint) :
  string_forallb number_char (NilEmpty.string_of_uint u) = true.
Proof. induction u; cbn; auto. Qed.

Lemma string_of_uint_nonempty (u : Decimal.uint) :
  u <> Decimal.Nil -> NilEmpty.string_of_uint u <> EmptyString.
Proof. destruct u; cbn; congruence. Qed.

Lemma string_of_uint_lacks_point (u : Decimal.uint) :
  lacks "." (NilEmpty.string_of_uint u).
Proof. unfold lacks. induction u; cbn; auto. Qed.

Lemma decimal_text (z : Z) : number_text (IntNum.decimal z).
Proof.
  unfold IntNum.decimal, number_text.
  destruct z as [|p|p]; cbn [Z.to_int NilEmpty.string_of_int].
  - split; [discriminate | reflexivity].
  - split; [|apply string_of_uint_chars].
    apply string_of_uint_nonempty, DecimalPos.Unsigned.to_uint_nonnil.
  - split; [discriminate|]. cbn. apply string_of_uint_chars.
Qed.

Lemma decimal_lacks_point (z : Z) : lacks "." (IntNum.decimal z).
Proof.
  unfold IntNum.decimal.
  destruct z as [|p|p]; cbn [Z.to_int NilEmpty.string_of_int].
  - reflexivity.
  - apply string_of_uint_lacks_point.
  - unfold lacks. cbn [contains]. apply string_of_uint_lacks_point.
Qed.

Lemma int_of_string_decimal (z : Z) :
  NilEmpty.int_of_string (IntNum.decimal z) = Some (Z.to_int z).
Proof. unfold IntNum.decimal. apply NilEmpty.isi. Qed.

Lemma IntNum_str_text (x : IntNum.t) : number_text (IntNum.str x).
Proof.
  destruct x as [z|z]; cbn [IntNum.str]; [apply decimal_text|].
  destruct (decimal_text z) as [Hne Hchars]. split.
  - destruct (IntNum.decimal z); [congruence | discriminate].
  - rewrite string_forallb_app, Hchars. reflexivity.
Qed.

Lemma IntNum_float_str (x : IntNum.t) :
  IntNum.float (IntNum.str x) = Some (IntNum.PyFloat (IntNum.value x)).
Proof.
  destruct x as [z|z]; unfold IntNum.float; cbn [IntNum.str IntNum.value].
  - rewrite (split_on_lacks _ _ (decimal_lacks_point z)).
    rewrite int_of_string_decimal. cbn. rewrite DecimalZ.of_to. reflexivity.
  - rewrite (split_on_app _ _ _ (decimal_lacks_point z)).
    change (split_on "." "0") with ["0"].
    cbn match. rewrite int_of_string_decimal. cbn. rewrite DecimalZ.of_to.
    reflexivity.
Qed.

Lemma IntNum_float_float (s : string) (x : IntNum.t) :
  IntNum.float s = Some x -> IntNum.PyFloat (IntNum.value x) = x.
Proof.
  unfold IntNum.float. intros Hx.
  assert (H : exists a,
             (fun i => IntNum.PyFloat (Z.of_int i)) <$> NilEmpty.int_of_string a
             = Some x).
  { repeat (match type of Hx with
            | context [match ?u with _ => _ end] => destruct u
            end; try discriminate Hx);
      eexists; exact Hx. }
  destruct H as [a Ha].
  destruct (NilEmpty.int_of_string a); [|discriminate Ha].
  injection Ha as <-. reflexivity.
Qed.

#[global] Instance IntNum_text : PyNumText IntNum.t.
Proof.
  split; [exact IntNum_str_text | exact IntNum_float_str
         | exact IntNum_float_float].
Qed.

End IntNumFacts.

(** ** [makeSKF]: the lines of the file *)

Section MakeSKFFacts.
Context {num : Type} {ops : PyNum num}.
Import PyStr.

Lemma Forall_cell_ok_CNum (l : list num) : Forall cell_ok (map CNum l).
Proof. apply Forall_map, Forall_forall. intros x _. exact I. Qed.

Lemma Forall_cell_ok_replicate (n : nat) (x : num) :
  Forall cell_ok (replicate n (CNum x)).
Proof. apply Forall_replicate. exact I. Qed.

Lemma Forall_cell_ok_line (l : list num) (n : nat) (x : num) :
  Forall cell_ok (map CNum l ++ replicate n (CNum x)).
Proof.
  apply Forall_app. split;
    [apply Forall_cell_ok_CNum | apply Forall_cell_ok_replicate].
Qed.

Lemma headerLines_ok (pD : parameterizationDictionary num) :
  Forall (Forall cell_ok) (snd (headerLines pD)).
Proof.
  assert (H1 : Forall cell_ok
                 [CNum (gridDist pD);
                  CNum (num_of_Z (Z.of_nat (nGridPoints pD)))]).
  { exact (Forall_cell_ok_CNum [_; _]). }
  unfold headerLines.
  destruct (String.eqb (type pD) "homonuclear");
    [|destruct (String.eqb (type pD) "heteronuclear")]; cbn [snd].
  - constructor; [exact H1|].
    constructor; [apply Forall_cell_ok_CNum|].
    constructor; [apply Forall_cell_ok_line | constructor].
  - constructor; [exact H1|].
    constructor; [apply Forall_cell_ok_line | constructor].
  - constructor; [exact H1 | constructor].
Qed.

Lemma splineLines_ok (pD : parameterizationDictionary num) :
  Forall (Forall cell_ok) (splineLines pD).
Proof.
  unfold splineLines.
  constructor; [constructor; [reflexivity | constructor]|].
  constructor; [exact (Forall_cell_ok_CNum [_; _])|].
  constructor; [exact (Forall_cell_ok_CNum [_; _; _])|].
  constructor; [exact (Forall_cell_ok_CNum [_; _; _; _; _; _; _; _])|].
  constructor.
Qed.

Lemma lineListList_ok (pD : parameterizationDictionary num) :
  Forall (Forall cell_ok) (lineListList pD).
Proof.
  unfold lineListList. apply Forall_app. split; [apply headerLines_ok|].
  apply Forall_app. split; [|apply splineLines_ok].
  apply Forall_map, Forall_forall. intros r _. apply Forall_cell_ok_CNum.
Qed.

Lemma length_gridPointsVec (pD : parameterizationDictionary num) :
  length (gridPointsVec pD) = nGridPoints pD.
Proof. unfold gridPointsVec. rewrite length_map, length_seq. reflexivity. Qed.


Lemma length_tempLine (pD : parameterizationDictionary num) (r : num) :
  length (tempLine pD r) = 20.
Proof. unfold tempLine. destruct (num_ltb _ _); reflexivity. Qed.

Lemma length_headerLines (pD : parameterizationDictionary num) :
  length (snd (headerLines pD)) =
  if String.eqb (type pD) "homonuclear" then 3
  else if String.eqb (type pD) "heteronuclear" then 2 else 1.
Proof.
  unfold headerLines.
  destruct (String.eqb (type pD) "homonuclear");
    [|destruct (String.eqb (type pD) "heteronuclear")]; reflexivity.
Qed.

Context {text : PyNumText num}.

Lemma number_text_tidy (s : string) : number_text s -> tidy s.
Proof.
  intros Hs. split; [exact (number_text_word s Hs)|].
  repeat split; apply number_text_lacks; try exact Hs; reflexivity.
Qed.

Lemma str_cell_tidy (c : cell num) : cell_ok c -> tidy (str_cell c).
Proof.
  destruct c as [x|s]; cbn.
  - intros _. apply number_text_tidy, py_str_text.
  - intros ->. repeat split; discriminate.
Qed.

Lemma joined_lacks (c : ascii) (line : list (cell num)) :
  c <> " "%char ->
  (forall s, tidy s -> lacks c s) ->
  Forall cell_ok line -> lacks c (join " " (map str_cell line)).
Proof.
  intros Hc Htidy Hline. apply lacks_join; [exact Hc|].
  apply Forall_map. eapply Forall_impl; [exact Hline|].
  intros d Hd. apply Htidy, str_cell_tidy, Hd.
Qed.

(** The lines read back from the file are the lines written. *)
Lemma readlines_makeSKF (pD : parameterizationDictionary num) :
  readlines (snd (makeSKF pD)) = map writeLine (lineListList pD).
Proof.
  unfold makeSKF. cbn [snd].
  assert (E : map writeLine (lineListList pD)
              = map (fun s => s +:+ newline)
                  (map (fun l => join " " (map str_cell l)) (lineListList pD)))
    by (rewrite map_map; reflexivity).
  rewrite E, readlines_written; [reflexivity|].
  apply Forall_map. eapply Forall_impl; [apply lineListList_ok|].
  intros line Hline. apply joined_lacks; [discriminate| |exact Hline].
  intros s Hs. apply Hs.
Qed.

End MakeSKFFacts.

(** ** [makeSKF]: claims C4 and C6 *)

Section MakeSKFClaims.
Context {num : Type} {ops : PyNum num} {text : PyNumText num}.
Import PyStr.


(** Without a recognized type [makeSKF] prints its two lines of
    diagnostic and goes on: the file holds line 1, the integral table and
    the spline section, and no line 2 or 3. *)
Lemma makeSKF_unrecognized_type (pD : parameterizationDictionary num) :
  type pD <> "homonuclear" -> type pD <> "heteronuclear" ->
  fst (makeSKF pD) =
    ["ERROR: parameterization type must be "
       +:+ dquote +:+ "heteronuclear" +:+ dquote;
     "       or " +:+ dquote +:+ "homonuclear" +:+ dquote] /\
  readlines (snd (makeSKF pD)) =
    map writeLine
      ([[CNum (gridDist pD); CNum (num_of_Z (Z.of_nat (nGridPoints pD)))]]
       ++ map (fun r => map CNum (tempLine pD r)) (gridPointsVec pD)
       ++ splineLines pD).
Proof.
  intros H1 H2. rewrite readlines_makeSKF.
  unfold makeSKF, lineListList, headerLines. cbn [fst].
  destruct (String.eqb_spec (type pD) "homonuclear") as [E|_]; [contradiction|].
  destruct (String.eqb_spec (type pD) "heteronuclear") as [E|_]; [contradiction|].
  split; reflexivity.
Qed.

End MakeSKFClaims.


(** C6 (the code at a dictionary whose type is neither ['homonuclear'] nor
    ['heteronuclear']).  [makeSKF] prints the diagnostic and still writes
    a file: line 1 is followed at once by the integral table and the
    spline section. *)
Example makeSKF_unrecognized_type_example :
  makeSKF (exampleDictionary "ionic" [0; 0; 0; 0; 0; 0; 0; 0]%Z 3) =
  (["ERROR: parameterization type must be "
      +:+ PyStr.dquote +:+ "heteronuclear" +:+ PyStr.dquote;
    "       or " +:+ PyStr.dquote +:+ "homonuclear" +:+ PyStr.dquote],
   PyStr.written
     ["1 3" +:+ PyStr.newline;
      "1.0 1.0 1.0 1.0 1.0 1.0 1.0 1.0 1.0 1.0 1.0 1.0 1.0 1.0 1.0 1.0 1.0 1.0 1.0 1.0"
        +:+ PyStr.newline;
      "1.0 1.0 1.0 1.0 1.0 1.0 1.0 1.0 1.0 1.0 1.0 1.0 1.0 1.0 1.0 1.0 1.0 1.0 1.0 1.0"
        +:+ PyStr.newline;
      "3 4 5 6 7 8 9 10 11 12 13 14 15 16 17 18 19 20 21 22" +:+ PyStr.newline;
      "Spline" +:+ PyStr.newline;
      "1 7" +:+ PyStr.newline;
      "0 0 -1" +:+ PyStr.newline;
      "2 7 0 0 0 0 0 0" +:+ PyStr.newline]).
Proof. vm_compute. reflexivity. Qed.

(** ** The repeat notation: claim C9 *)

Section RepeatNotation.
Context {num : Type} {ops : PyNum num}.
Import PyStr.

Lemma contains_app_char (c : ascii) (s1 s2 : string) :
  contains c (s1 +:+ String c s2) = true.
Proof.
  induction s1 as [|d s1 IH].
  - rewrite string_app_nil_l. cbn. rewrite Ascii.eqb_refl. reflexivity.
  - rewrite string_app_cons. cbn. rewrite IH. destruct (Ascii.eqb d c); reflexivity.
Qed.

(** What [split] returns are words, and they lack what the string lacks. *)
Lemma split_go_words (s : string) :
  string_forallb (fun c => negb (isspace c)) (fst (split_go s)) = true /\
  Forall word (snd (split_go s)).
Proof.
  induction s as [|c s [IH1 IH2]]; [split; [reflexivity | constructor]|].
  cbn [split_go]. destruct (split_go s) as [t ts]. cbn [fst snd] in *.
  destruct (isspace c) eqn:Hc; cbn [fst snd].
  - split; [reflexivity|]. destruct t; [exact IH2|].
    constructor; [split; [discriminate | exact IH1] | exact IH2].
  - split; [cbn; rewrite Hc, IH1; reflexivity | exact IH2].
Qed.

Lemma split_words (s : string) : Forall word (split s).
Proof.
  unfold split. pose proof (split_go_words s) as [H1 H2].
  destruct (split_go s) as [t ts]. cbn [fst snd] in *.
  destruct t; [exact H2|].
  constructor; [split; [discriminate | exact H1] | exact H2].
Qed.

Lemma split_go_lacks (c : ascii) (s : string) :
  lacks c s ->
  lacks c (fst (split_go s)) /\ Forall (lacks c) (snd (split_go s)).
Proof.
  unfold lacks. induction s as [|d s IH]; [split; [reflexivity | constructor]|].
  cbn [contains split_go]. destruct (Ascii.eqb d c) eqn:Hd; [discriminate|].
  intros Hs. destruct (IH Hs) as [IH1 IH2].
  destruct (split_go s) as [t ts]. cbn [fst snd] in *.
  destruct (isspace d); cbn [fst snd].
  - split; [reflexivity|]. destruct t; [exact IH2|].
    constructor; [exact IH1 | exact IH2].
  - split; [cbn; rewrite Hd; exact IH1 | exact IH2].
Qed.

Lemma split_lacks (c : ascii) (s : string) :
  lacks c s -> Forall (lacks c) (split s).
Proof.
  intros Hs. unfold split. destruct (split_go_lacks c s Hs) as [H1 H2].
  destruct (split_go s) as [t ts]. cbn [fst snd] in *.
  destruct t; [exact H2|]. constructor; [exact H1 | exact H2].
Qed.

Lemma expandEntry_plain (s : string) : lacks "*" s -> expandEntry s = Some s.
Proof. intros Hs. unfold expandEntry. rewrite Hs. reflexivity. Qed.

Lemma expandLine_plain (line : string) :
  lacks "*" line -> expandLine line = Some line.
Proof. intros Hs. unfold expandLine. rewrite Hs. reflexivity. Qed.

Lemma entry_text_Repeat (count value : string) :
  entry_text (Repeat count value) = count +:+ String "*" value.
Proof. reflexivity. Qed.

Lemma expandEntry_repeat (count value : string) (x : num) (n : nat) :
  lacks "*" count -> lacks "*" value ->
  py_float value = Some x -> repeat_count count = Some n ->
  expandEntry (entry_text (Repeat count value))
  = Some (join " " (replicate n (py_str x))).
Proof.
  intros Hc Hv Hx Hn. rewrite entry_text_Repeat. unfold expandEntry.
  rewrite contains_app_char, (split_on_app _ _ _ Hc), (split_on_lacks _ _ Hv).
  cbn [lookup list_lookup]. cbn [mbind option_bind]. rewrite Hx. cbn [mbind option_bind].
  unfold repeat_count in Hn.
  destruct (py_float count) as [f0|]; [|discriminate]. cbn [mbind option_bind] in *.
  destruct (py_int f0) as [timesRep|]; [|discriminate]. cbn [mbind option_bind] in *.
  injection Hn as <-. reflexivity.
Qed.

End RepeatNotation.

Section RepeatNotationClaim.
Context {num : Type} {ops : PyNum num} {text : PyNumText num}.
Import PyStr.

Lemma py_str_word (x : num) : word (py_str x).
Proof. apply number_text_word, py_str_text. Qed.

(** The expansion of one entry, as a string and as entries. *)
Lemma expandEntry_expanded (e : skfEntry) :
  entry_wf e -> word (entry_text e) ->
  expandEntry (entry_text e) = Some (join " " (entry_expanded e)) /\
  Forall word (entry_expanded e).
Proof.
  destruct e as [s|count value]; cbn [entry_wf entry_expanded].
  - intros Hs Hw. split; [exact (expandEntry_plain s Hs)|].
    constructor; [exact Hw | constructor].
  - intros (Hc & Hv & [x Hx] & [n Hn]) _.
    rewrite (expandEntry_repeat count value x n Hc Hv Hx Hn), Hn, Hx.
    split; [reflexivity|]. apply Forall_replicate, py_str_word.
Qed.

Lemma entry_expanded_explicit (e : skfEntry) :
  entry_wf e ->
  map py_float (entry_expanded e) = map py_float (entry_explicit e).
Proof.
  destruct e as [s|count value]; cbn [entry_wf entry_expanded entry_explicit];
    [reflexivity|].
  intros (_ & _ & [x Hx] & [n Hn]). rewrite Hn, Hx.
  change (map ?f ?l) with (f <$> l). rewrite !fmap_replicate.
  rewrite py_float_str, (py_float_float value x Hx), Hx. reflexivity.
Qed.

Lemma concat_expanded_explicit (entries : list skfEntry) :
  Forall entry_wf entries ->
  map py_float (concat (map entry_expanded entries))
  = map py_float (concat (map entry_explicit entries)).
Proof.
  induction 1 as [|e entries He _ IH]; [reflexivity|].
  cbn [map concat]. rewrite !map_app, IH, (entry_expanded_explicit e He).
  reflexivity.
Qed.

Lemma mapM_expandEntry (entries : list skfEntry) :
  Forall entry_wf entries ->
  Forall word (map entry_text entries) ->
  mapM expandEntry (map entry_text entries)
  = Some (map (fun e => join " " (entry_expanded e)) entries).
Proof.
  intros Hwf Hw. apply mapM_Some_2.
  induction Hwf as [|e entries He _ IH]; [constructor|].
  cbn [map] in *. apply Forall_cons_1 in Hw as [Hw1 Hw2].
  constructor; [|exact (IH Hw2)].
  exact (proj1 (expandEntry_expanded e He Hw1)).
Qed.

Lemma split_joined_expanded (entries : list skfEntry) :
  Forall entry_wf entries ->
  Forall word (map entry_text entries) ->
  concat (map split (map (fun e => join " " (entry_expanded e)) entries))
  = concat (map entry_expanded entries).
Proof.
  intros Hwf Hw.
  induction Hwf as [|e entries He _ IH]; [reflexivity|].
  cbn [map concat] in *. apply Forall_cons_1 in Hw as [Hw1 Hw2].
  rewrite (IH Hw2), split_join_words; [reflexivity|].
  exact (proj2 (expandEntry_expanded e He Hw1)).
Qed.

(** On a line without asterisk every entry is plain. *)
Lemma expanded_without_asterisk (entries : list skfEntry) :
  Forall (lacks "*") (map entry_text entries) ->
  concat (map entry_expanded entries) = map entry_text entries.
Proof.
  induction entries as [|e entries IH]; [reflexivity|].
  cbn [map concat]. intros [He Hes]%Forall_cons_1. rewrite (IH Hes).
  destruct e as [s|count value]; [reflexivity|].
  rewrite entry_text_Repeat in He. unfold lacks in He.
  rewrite contains_app_char in He. discriminate.
Qed.

(** C9.  A line without asterisk passes through the expansion unchanged.
    On a line whose entries are plain or of the form [count*value], the
    expansion succeeds, every [count*value] becomes [count] entries that
    read as [value], and the expanded line has as many entries as the
    explicitly written line and the same numbers. *)
Theorem expandLine_repeat_notation (line : string) (entries : list skfEntry) :
  (lacks "*" line -> expandLine line = Some line) /\
  (split line = map entry_text entries -> Forall entry_wf entries ->
   exists line',
     expandLine line = Some line' /\
     split line' = concat (map entry_expanded entries) /\
     length (split line') = length (concat (map entry_explicit entries)) /\
     map py_float (split line')
     = map py_float (concat (map entry_explicit entries))).
Proof.
  split; [exact (expandLine_plain line)|].
  intros Hsplit Hwf.
  assert (Hw : Forall word (map entry_text entries)).
  { rewrite <- Hsplit. apply split_words. }
  assert (Hex : exists line', expandLine line = Some line' /\
                  split line' = concat (map entry_expanded entries)).
  { unfold expandLine. destruct (contains "*" line) eqn:Hstar.
    - rewrite Hsplit, (mapM_expandEntry entries Hwf Hw). cbn [mbind option_bind].
      eexists. split; [reflexivity|].
      rewrite split_join. apply split_joined_expanded; assumption.
    - exists line. split; [reflexivity|].
      rewrite Hsplit. symmetry. apply expanded_without_asterisk.
      rewrite <- Hsplit. apply split_lacks. exact Hstar. }
  destruct Hex as (line' & Hline' & Hsp).
  exists line'. split; [exact Hline'|]. split; [exact Hsp|].
  assert (Hnum : map py_float (split line')
                 = map py_float (concat (map entry_explicit entries))).
  { rewrite Hsp. apply concat_expanded_explicit, Hwf. }
  split; [|exact Hnum].
  rewrite <- (length_map py_float (split line')), Hnum, length_map. reflexivity.
Qed.

End RepeatNotationClaim.

Lemma expandLine_repeat_notation_witness :
  exists line' : string,
    expandLine (num := IntNum.t) "12 3*0.0 17" = Some line' /\
    PyStr.split line' = ["12"; "0.0"; "0.0"; "0.0"; "17"].
Proof.
  destruct (proj2 (expandLine_repeat_notation (num := IntNum.t) "12 3*0.0 17"
                     [Plain "12"; Repeat "3" "0.0"; Plain "17"])
              eq_refl) as (line' & H1 & H2 & _).
  - repeat constructor; cbn; eauto.
  - exists line'. split; [exact H1 | exact H2].
Defined.

(** ** The reader: where the integral table starts and ends *)

Section ReaderFacts.
Context {num : Type} {ops : PyNum num}.
Import PyStr.

Lemma readFormat_Some (lines : list string) (g : num) (len : nat) :
  readFormat lines = Some (g, len) ->
  exists line0,
    lines !! 0 = Some line0 /\
    len = (if contains "@" line0 then 40 else 20).
Proof.
  unfold readFormat. destruct (lines !! 0) as [line0|]; [|discriminate].
  cbn [mbind option_bind]. intros Hf. exists line0. split; [reflexivity|].
  destruct (contains "@" line0).
  - destruct (lines !! 1) as [line1|]; [|discriminate]. cbn [mbind option_bind] in Hf.
    destruct (split line1 !! 0) as [entry|]; [|discriminate].
    cbn [mbind option_bind] in Hf.
    destruct (py_float entry); [|discriminate]. cbn [mbind option_bind] in Hf.
    congruence.
  - destruct (split line0 !! 0) as [entry|]; [|discriminate].
    cbn [mbind option_bind] in Hf.
    destruct (py_float entry); [|discriminate]. cbn [mbind option_bind] in Hf.
    congruence.
Qed.

(** The [while] loop stops at the first line with [len] entries. *)
Lemma findFirstIntegralLine_Some (len : nat) (linesSplit : list (list string))
    (k0 i : nat) :
  findFirstIntegralLine len linesSplit k0 = Some i ->
  exists j, i = k0 + j /\ first_line_with len linesSplit j.
Proof.
  revert k0. induction linesSplit as [|splitLine rest IH]; intros k0;
    [discriminate|].
  cbn [findFirstIntegralLine].
  destruct (Nat.eqb_spec (length splitLine) len) as [E|NE].
  - intros [= <-]. exists 0. split; [lia|]. split.
    + exists splitLine. split; [reflexivity | exact E].
    + intros j sl Hj. lia.
  - intros Hf. destruct (IH (S k0) Hf) as (j & -> & [Hj1 Hj2]).
    exists (S j). split; [lia|]. split; [exact Hj1|].
    intros [|j'] sl Hlt Hsl.
    + cbn in Hsl. injection Hsl as <-. exact NE.
    + apply (Hj2 j' sl); [lia | exact Hsl].
Qed.

Lemma findFirstIntegralLine_first (len : nat) (linesSplit : list (list string))
    (k0 j : nat) :
  first_line_with len linesSplit j ->
  findFirstIntegralLine len linesSplit k0 = Some (k0 + j).
Proof.
  revert k0 j. induction linesSplit as [|splitLine rest IH];
    intros k0 j [(sl & Hsl & Hlen) Hbefore].
  - destruct j; discriminate Hsl.
  - cbn [findFirstIntegralLine]. destruct j as [|j].
    + cbn in Hsl. injection Hsl as ->. rewrite Hlen, Nat.eqb_refl.
      f_equal. lia.
    + destruct (Nat.eqb_spec (length splitLine) len) as [E|NE].
      * exfalso. apply (Hbefore 0 splitLine); [lia | reflexivity | exact E].
      * rewrite (IH (S k0) j); [f_equal; lia|]. split.
        -- exists sl. split; [exact Hsl | exact Hlen].
        -- intros j' sl' Hlt Hsl'. apply (Hbefore (S j') sl'); [lia | exact Hsl'].
Qed.

(** The [for] loop keeps the index of the last line with ['Spline'], and
    its initial value when no line has it. *)
Lemma findAfterLine_fold (l : list (list string)) (k0 acc : nat) :
  let r :=
    fold_left
      (fun afterLineIndex '(i_line, splitLine) =>
         if decide ("Spline" ∈ (splitLine : list string)) then i_line
         else afterLineIndex)
      (zip (seq k0 (length l)) l) acc in
  (r = acc /\ Forall (fun sl => "Spline" ∉ sl) l) \/
  (exists j, r = k0 + j /\ last_line_with_Spline l j).
Proof.
  revert k0 acc. induction l as [|x l IH]; intros k0 acc; cbn zeta.
  - left. split; [reflexivity | constructor].
  - cbn [length seq zip zip_with fold_left].
    destruct (IH (S k0)
                (if decide ("Spline" ∈ x) then k0 else acc))
      as [[Hr Hnone] | (j & Hr & [Hj1 Hj2])]; cbn zeta in Hr.
    + destruct (decide ("Spline" ∈ x)) as [Hin|Hnin].
      * right. exists 0. split; [lia|]. split.
        -- exists x. split; [reflexivity | exact Hin].
        -- intros [|j'] sl Hlt Hsl; [lia|]. cbn in Hsl.
           rewrite Forall_lookup in Hnone. exact (Hnone j' sl Hsl).
      * left. split; [exact Hr | constructor; assumption].
    + right. exists (S j). split; [lia|]. split; [exact Hj1|].
      intros [|j'] sl Hlt Hsl; [lia|]. apply (Hj2 j' sl); [lia | exact Hsl].
Qed.

Lemma findAfterLine_spec (linesSplit : list (list string)) :
  (findAfterLine linesSplit = 0 /\
   Forall (fun sl => "Spline" ∉ sl) linesSplit) \/
  last_line_with_Spline linesSplit (findAfterLine linesSplit).
Proof.
  unfold findAfterLine, enumerate.
  destruct (findAfterLine_fold linesSplit 0 0) as [H | (j & Hr & Hj)];
    cbn zeta in *.
  - left. exact H.
  - right. rewrite Hr. exact Hj.
Qed.

Lemma findAfterLine_last (linesSplit : list (list string)) (k : nat) :
  last_line_with_Spline linesSplit k -> findAfterLine linesSplit = k.
Proof.
  intros [(sl & Hsl & Hin) Hafter].
  destruct (findAfterLine_spec linesSplit) as [[_ Hnone] | [(sl' & Hsl' & Hin') Hafter']].
  - rewrite Forall_lookup in Hnone. destruct (Hnone k sl Hsl Hin).
  - destruct (Nat.lt_trichotomy (findAfterLine linesSplit) k) as [Hlt|[E|Hgt]];
      [|exact E|].
    + destruct (Hafter' k sl Hlt Hsl Hin).
    + destruct (Hafter _ sl' Hgt Hsl' Hin').
Qed.

Lemma np_array_Some (rows table : list (list num)) :
  np_array rows = Some table -> table = rows /\ rows <> [].
Proof.
  unfold np_array. destruct rows as [|row0 rows]; [discriminate|].
  destruct (forallb _ _); [|discriminate].
  intros [= <-]. split; [reflexivity | discriminate].
Qed.

End ReaderFacts.

(** ** The reader: claim C8 *)

Section ReaderClaim.
Context {num : Type} {ops : PyNum num}.
Import PyStr.

(** C8, as the code has it.  For every list of lines that the reader
    parses into tables [t]: the format is the extended one (40 columns)
    when the first line has an [@] and the simple one (20 columns)
    otherwise; [i_line] being the first line with that many entries, the
    table starts at line [i_line] in the extended format and at line
    [i_line + 1] in the simple format, whose last header line has 20
    entries as well; it ends before the last line with an entry
    ['Spline']; and the first half of the columns of the lines in between
    is [HTable], the second half [STable]. *)
Theorem plotSKF_tables_location (linesAsterisksCommas : list string)
    (t : skfTables num) :
  plotSKF_tables linesAsterisksCommas = Some t ->
  exists (lines : list string) (i_line : nat) (integralTable : list (list num)),
    mapM expandLine (map (remove ",") linesAsterisksCommas) = Some lines /\
    (exists line0,
       lines !! 0 = Some line0 /\
       integralTableLineLength t = (if contains "@" line0 then 40 else 20)) /\
    first_line_with (integralTableLineLength t) (map split lines) i_line /\
    firstLineIndex t =
      (if (integralTableLineLength t =? 20)%nat then i_line + 1 else i_line) /\
    last_line_with_Spline (map split lines) (afterLineIndex t) /\
    mapM (mapM py_float)
      (slice (firstLineIndex t) (afterLineIndex t) (map split lines))
    = Some integralTable /\
    integralTable <> [] /\
    HTable t = map (take (integralTableLineLength t / 2)) integralTable /\
    STable t = map (drop (integralTableLineLength t / 2)) integralTable.
Proof.
  unfold plotSKF_tables. intros Ht.
  destruct (mapM expandLine _) as [lines|] eqn:Hlines; [|discriminate].
  cbn [mbind option_bind] in Ht.
  destruct (readFormat lines) as [[g len]|] eqn:Hformat; [|discriminate].
  cbn [mbind option_bind fst snd] in Ht.
  destruct (findFirstIntegralLine len (map split lines) 0)
    as [i_line|] eqn:Hfirst; [|discriminate].
  cbn [mbind option_bind] in Ht.
  destruct (mapM (mapM py_float) _) as [rows|] eqn:Hrows; [|discriminate].
  cbn [mbind option_bind] in Ht.
  destruct (np_array rows) as [integralTable|] eqn:Harray; [|discriminate].
  cbn [mbind option_bind] in Ht. injection Ht as <-.
  cbn [integralTableLineLength firstLineIndex afterLineIndex HTable STable].
  apply np_array_Some in Harray as [-> Hne].
  apply findFirstIntegralLine_Some in Hfirst as (j & -> & Hj).
  exists lines, j, rows.
  split; [reflexivity|].
  split; [exact (readFormat_Some lines g len Hformat)|].
  split; [exact Hj|]. split; [reflexivity|].
  split; [|split; [exact Hrows|split; [exact Hne|split; reflexivity]]].
  destruct (findAfterLine_spec (map split lines)) as [[H0 _]|Hlast];
    [|exact Hlast].
  exfalso. apply Hne. rewrite H0 in Hrows. unfold slice in Hrows.
  rewrite Nat.sub_0_l in Hrows.
  change (Some [] = Some rows) in Hrows. congruence.
Qed.

End ReaderClaim.

(** The file that [makeSKF] writes for a heteronuclear parameterization
    with two grid points, read back. *)
Lemma plotSKF_tables_location_witness :
  let raw :=
    PyStr.readlines
      (snd (makeSKF (exampleDictionary "heteronuclear"
                       [0; 0; 0; 0; 0; 0; 0; 0]%Z 2))) in
  exists (t : skfTables IntNum.t) (i_line : nat),
    plotSKF_tables raw = Some t /\
    firstLineIndex t =
      (if (integralTableLineLength t =? 20)%nat then i_line + 1 else i_line).
Proof.
  cbn zeta.
  set (raw := PyStr.readlines _).
  destruct (plotSKF_tables raw) as [t|] eqn:Ht; [|vm_compute in Ht; discriminate Ht].
  destruct (plotSKF_tables_location raw t Ht)
    as (lines & i_line & table & _ & _ & _ & Hfirst & _).
  exists t, i_line. split; [reflexivity | exact Hfirst].
Defined.

(** C8 as stated fails on that file: line 1, the header line of the
    simple format, is the first line with 20 entries, and the table starts
    at line 2. *)
Lemma plotSKF_tables_start_counterexample :
  let raw :=
    PyStr.readlines
      (snd (makeSKF (exampleDictionary "heteronuclear"
                       [0; 0; 0; 0; 0; 0; 0; 0]%Z 2))) in
  exists t : skfTables IntNum.t,
    plotSKF_tables raw = Some t /\
    firstLineIndex t = 2 /\
    first_line_with 20 (map PyStr.split raw) 1 /\
    ~ table_starts_at_first_match raw t.
Proof.
  cbn zeta.
  set (raw := PyStr.readlines _).
  destruct (plotSKF_tables raw) as [t|] eqn:Ht; [|vm_compute in Ht; discriminate Ht].
  exists t. split; [reflexivity|].
  assert (Hfirst : firstLineIndex t = 2).
  { vm_compute in Ht. injection Ht as <-. reflexivity. }
  assert (Hlen : integralTableLineLength t = 20).
  { vm_compute in Ht. injection Ht as <-. reflexivity. }
  split; [exact Hfirst|].
  assert (H1 : exists sl, map PyStr.split raw !! 1 = Some sl /\ length sl = 20).
  { eexists. split; vm_compute; reflexivity. }
  split.
  - split; [exact H1|].
    intros [|j] sl Hlt Hsl; [|lia].
    vm_compute in Hsl. injection Hsl as <-. cbn. lia.
  - intros (lines & Hlines & [_ Hbefore]).
    assert (Hl : lines = raw).
    { vm_compute in Hlines. injection Hlines as <-. vm_compute. reflexivity. }
    subst lines. rewrite Hfirst, Hlen in Hbefore.
    destruct H1 as (sl & Hsl & Hsl20).
    exact (Hbefore 1 sl ltac:(lia) Hsl Hsl20).
Qed.

(** ** The round trip through an SKF file: claim C5 *)

Section RoundTripFacts.
Context {num : Type} {ops : PyNum num} {text : PyNumText num}.
Import PyStr.

Lemma writeLine_lacks (c : ascii) (line : list (cell num)) :
  c <> " "%char -> c <> nl ->
  (forall s, tidy s -> lacks c s) ->
  Forall cell_ok line -> lacks c (writeLine line).
Proof.
  intros Hsp Hnl Htidy Hline. unfold writeLine. apply lacks_app. split.
  - apply joined_lacks; assumption.
  - unfold lacks, newline. cbn [contains].
    destruct (Ascii.eqb_spec nl c) as [E|_]; [congruence | reflexivity].
Qed.

Lemma split_writeLine (line : list (cell num)) :
  Forall cell_ok line -> split (writeLine line) = map str_cell line.
Proof.
  intros Hline. unfold writeLine. rewrite split_line.
  apply split_join_words, Forall_map.
  eapply Forall_impl; [exact Hline|].
  intros c Hc. apply (str_cell_tidy c Hc).
Qed.

Lemma map_split_writeLine (W : list (list (cell num))) :
  Forall (Forall cell_ok) W ->
  map split (map writeLine W) = map (map str_cell) W.
Proof.
  intros HW. rewrite map_map. apply map_ext_Forall.
  eapply Forall_impl; [exact HW|]. exact split_writeLine.
Qed.

(** The lines that [makeSKF] writes have neither comma nor asterisk: the
    two cleaning passes of the reader leave them as they are. *)
Lemma expand_written_lines (W : list (list (cell num))) :
  Forall (Forall cell_ok) W ->
  mapM expandLine (map (remove ",") (map writeLine W))
  = Some (map writeLine W).
Proof.
  intros HW.
  assert (E : map (remove ",") (map writeLine W) = map writeLine W).
  { rewrite <- (map_id (map writeLine W)) at 2. apply map_ext_Forall.
    apply Forall_map. eapply Forall_impl; [exact HW|].
    intros line Hline. apply remove_lacks.
    apply writeLine_lacks; [discriminate | discriminate | | exact Hline].
    intros s Hs. apply Hs. }
  rewrite E. apply mapM_Some_2, Forall2_same_length_lookup_2.
  { reflexivity. }
  intros i x y Hx Hy. rewrite Hx in Hy. injection Hy as <-.
  apply expandLine_plain.
  change (map writeLine W) with (writeLine <$> W) in Hx.
  rewrite list_lookup_fmap in Hx.
  destruct (W !! i) as [line|] eqn:Hline; [|discriminate].
  cbn in Hx. injection Hx as <-.
  rewrite Forall_lookup in HW.
  apply writeLine_lacks; [discriminate | discriminate | | exact (HW i line Hline)].
  intros s Hs. apply Hs.
Qed.

(** The first written line holds the grid distance; it has no [@]. *)
Lemma readFormat_written (x y : num) (W : list (list (cell num))) :
  readFormat (map writeLine ([CNum x; CNum y] :: W))
  = Some (py_float_of_num x, 20).
Proof.
  unfold readFormat. cbn [map lookup list_lookup mbind option_bind].
  assert (Hok : Forall cell_ok [CNum x; CNum y])
    by exact (Forall_cell_ok_CNum [x; y]).
  assert (Hat : contains "@" (writeLine [CNum x; CNum y]) = false).
  { apply writeLine_lacks; [discriminate | discriminate | | exact Hok].
    intros s Hs. apply Hs. }
  rewrite Hat, (split_writeLine _ Hok).
  cbn [map str_cell lookup list_lookup mbind option_bind].
  rewrite py_float_str. reflexivity.
Qed.

(** No number is written as ['Spline']. *)
Lemma Spline_not_in_numbers (l : list num) :
  "Spline" ∉ map str_cell (map CNum l).
Proof.
  rewrite map_map. cbn [str_cell]. intros Hin.
  apply list_elem_of_In, in_map_iff in Hin as (x & Hx & _).
  exact (number_text_not_Spline (py_str x) (py_str_text x) Hx).
Qed.

Lemma Spline_not_in_line (n : nat) (x : num) (l : list num) :
  "Spline" ∉ map str_cell (map CNum l ++ replicate n (CNum x)).
Proof.
  replace (map CNum l ++ replicate n (CNum x))
    with (map CNum (l ++ replicate n x)).
  - apply Spline_not_in_numbers.
  - rewrite map_app. f_equal. induction n as [|n IH]; [reflexivity|].
    cbn. rewrite IH. reflexivity.
Qed.

(** Reading the numbers of the table back. *)
Lemma read_table (table : list (list num)) :
  mapM (mapM py_float) (map (map str_cell) (map (map CNum) table))
  = Some (map (map py_float_of_num) table).
Proof.
  apply mapM_Some_2. induction table as [|row table IH]; [constructor|].
  cbn [map]. constructor; [|exact IH].
  apply mapM_Some_2. induction row as [|x row IHrow]; [constructor|].
  cbn [map str_cell]. constructor; [apply py_float_str | exact IHrow].
Qed.

Lemma np_array_rectangular (w : nat) (rows : list (list num)) :
  rows <> [] -> Forall (fun row => length row = w) rows ->
  np_array rows = Some rows.
Proof.
  intros Hne Hrows. unfold np_array. destruct rows as [|row0 rows];
    [contradiction|].
  assert (H0 : length row0 = w) by (inversion Hrows; assumption).
  rewrite (proj2 (forallb_forall _ _)); [reflexivity|].
  intros row Hin. rewrite Forall_forall in Hrows.
  rewrite H0. apply Nat.eqb_eq, Hrows, list_elem_of_In, Hin.
Qed.

Lemma slice_middle {A : Type} (l1 l2 l3 : list A) :
  slice (length l1) (length l1 + length l2) (l1 ++ l2 ++ l3) = l2.
Proof.
  unfold slice. rewrite drop_app_length.
  replace (length l1 + length l2 - length l1) with (length l2) by lia.
  apply take_app_length.
Qed.

End RoundTripFacts.

Section RoundTrip.
Context {num : Type} {ops : PyNum num} {text : PyNumText num}.
Import PyStr.

Lemma findFirstIntegralLine_app (len : nat) (l1 l2 : list (list string))
    (x : list string) (k0 : nat) :
  Forall (fun sl => length sl <> len) l1 -> length x = len ->
  findFirstIntegralLine len (l1 ++ x :: l2) k0 = Some (k0 + length l1).
Proof.
  intros Hl1 Hx. revert k0.
  induction Hl1 as [|sl l1 Hsl _ IH]; intros k0; cbn [app findFirstIntegralLine length].
  - rewrite Hx, Nat.eqb_refl. f_equal. lia.
  - destruct (Nat.eqb_spec (length sl) len) as [E|_]; [contradiction|].
    rewrite IH. f_equal. lia.
Qed.

Lemma findAfterLine_app (l1 l2 : list (list string)) (x : list string) :
  "Spline" ∈ x -> Forall (fun sl => "Spline" ∉ sl) l2 ->
  findAfterLine (l1 ++ x :: l2) = length l1.
Proof.
  intros Hx Hl2. apply findAfterLine_last. split.
  - exists x. split; [apply list_lookup_middle; reflexivity | exact Hx].
  - intros j sl Hlt Hsl.
    rewrite lookup_app_r in Hsl by lia.
    destruct (j - length l1) as [|j'] eqn:Hj; [lia|].
    cbn in Hsl. rewrite Forall_lookup in Hl2. exact (Hl2 j' sl Hsl).
Qed.

(** The reader on a file of the simple format, as [makeSKF] lays it out:
    a first line with the grid distance, header lines [mid] that do not
    have 20 entries, a last header line with 20 entries, the table, the
    line ['Spline'] and lines of numbers after it. *)
Lemma plotSKF_tables_written (x y : num) (mid : list (list num))
    (last : list num) (table : list (list num)) (trailer : list (list num)) :
  Forall (fun l => length l <> 20) mid -> length last = 20 ->
  table <> [] -> Forall (fun row => length row = 20) table ->
  plotSKF_tables
    (map writeLine
       (map (map CNum) (([x; y] :: mid) ++ [last])
        ++ map (map CNum) table
        ++ [CStr "Spline"] :: map (map CNum) trailer))
  = Some {| read_gridDist := py_float_of_num x;
            integralTableLineLength := 20;
            firstLineIndex := 2 + length mid;
            afterLineIndex := 2 + length mid + length table;
            HTable := map (take 10) (map (map py_float_of_num) table);
            STable := map (drop 10) (map (map py_float_of_num) table) |}.
Proof.
  intros Hmid Hlast Hne Htable.
  set (W := map (map CNum) (([x; y] :: mid) ++ [last])
            ++ map (map CNum) table
            ++ [CStr "Spline"] :: map (map CNum) trailer).
  assert (HW : Forall (Forall cell_ok) W).
  { unfold W. repeat (apply Forall_app; split).
    - apply Forall_map, Forall_forall. intros l _. apply Forall_cell_ok_CNum.
    - apply Forall_map, Forall_forall. intros l _. apply Forall_cell_ok_CNum.
    - constructor; [constructor; [reflexivity | constructor]|].
      apply Forall_map, Forall_forall. intros l _. apply Forall_cell_ok_CNum. }
  unfold plotSKF_tables.
  rewrite (expand_written_lines W HW). cbn [mbind option_bind].
  assert (Hfmt : readFormat (map writeLine W) = Some (py_float_of_num x, 20)).
  { exact (readFormat_written x y _). }
  rewrite Hfmt. cbn [mbind option_bind fst snd].
  rewrite (map_split_writeLine W HW).
  set (LS := map (map str_cell) W).
  set (strs := fun l : list num => map str_cell (map CNum l)).
  assert (HLS : LS = (map strs ([x; y] :: mid) ++ [strs last])
                     ++ map strs table
                     ++ ["Spline"] :: map strs trailer).
  { unfold LS, W, strs. rewrite !map_app.
    change (map (map str_cell) ([CStr "Spline"] :: map (map CNum) trailer))
      with (["Spline"] :: map (map str_cell) (map (map CNum) trailer)).
    rewrite !(map_map (map CNum) (map str_cell)). reflexivity. }
  assert (Hfirst : findFirstIntegralLine 20 LS 0 = Some (1 + length mid)).
  { rewrite HLS, <- !app_assoc. cbn [app].
    rewrite (findFirstIntegralLine_app 20 (map strs ([x; y] :: mid))).
    - cbn [length map]. rewrite length_map. reflexivity.
    - cbn [map]. constructor; [cbn; lia|].
      apply Forall_map. eapply Forall_impl; [exact Hmid|].
      intros l Hl. unfold strs. rewrite !length_map. exact Hl.
    - unfold strs. rewrite !length_map. exact Hlast. }
  rewrite Hfirst. cbn [mbind option_bind Nat.eqb].
  replace (1 + length mid + 1) with (2 + length mid) by lia.
  assert (Hafter : findAfterLine LS = 2 + length mid + length table).
  { rewrite HLS, !app_assoc.
    rewrite findAfterLine_app.
    - rewrite !length_app, !length_map. cbn [length]. lia.
    - apply list_elem_of_In. left. reflexivity.
    - apply Forall_map, Forall_forall. intros l _. unfold strs.
      apply Spline_not_in_numbers. }
  rewrite Hafter.
  assert (Hslice : slice (2 + length mid)
                     (2 + length mid + length table) LS
                   = map strs table).
  { rewrite HLS.
    replace (2 + length mid + length table)
      with (length (map strs ([x; y] :: mid) ++ [strs last])
            + length (map strs table))
      by (rewrite length_app, !length_map; cbn [length]; lia).
    replace (2 + length mid)
      with (length (map strs ([x; y] :: mid) ++ [strs last]))
      by (rewrite length_app, length_map; cbn [length]; lia).
    apply slice_middle. }
  rewrite Hslice.
  assert (Hread : mapM (mapM py_float) (map strs table)
                  = Some (map (map py_float_of_num) table)).
  { unfold strs. rewrite <- (map_map (map CNum) (map str_cell)).
    apply read_table. }
  rewrite Hread. cbn [mbind option_bind].
  rewrite (np_array_rectangular 20).
  - cbn [mbind option_bind]. reflexivity.
  - destruct table; [contradiction | discriminate].
  - apply Forall_map. eapply Forall_impl; [exact Htable|].
    intros row Hrow. rewrite length_map. exact Hrow.
Qed.

End RoundTrip.

Section RoundTripClaim.
Context {num : Type} {ops : PyNum num} {text : PyNumText num}.
Import PyStr.

(** The lines of [makeSKF] in the layout of [plotSKF_tables_written]. *)
Lemma lineListList_layout (pD : parameterizationDictionary num) :
  type pD = "homonuclear" \/ type pD = "heteronuclear" ->
  exists (mid : list (list num)) (last : list num) (trailer : list (list num)),
    lineListList pD =
      map (map CNum)
        (([gridDist pD; num_of_Z (Z.of_nat (nGridPoints pD))] :: mid) ++ [last])
      ++ map (map CNum) (map (tempLine pD) (gridPointsVec pD))
      ++ [CStr "Spline"] :: map (map CNum) trailer /\
    length last = 12 + length (cVec pD) /\
    (type pD = "homonuclear" ->
     mid = [EVec pD ++ [SPE pD] ++ UVec pD ++ fVec pD]) /\
    (type pD = "heteronuclear" -> mid = []).
Proof.
  intros Hty. unfold lineListList, headerLines, splineLines.
  rewrite <- (map_map (tempLine pD) (map CNum)).
  destruct Hty as [Hty|Hty]; rewrite Hty; cbn [String.eqb Ascii.eqb Bool.eqb snd].
  - exists [EVec pD ++ [SPE pD] ++ UVec pD ++ fVec pD],
      (([mass pD] ++ cVec pD ++ [snd (domainTB pD)])
       ++ replicate 10 (num_of_Z 0)),
      [[num_of_Z 1; snd (domainTB pD)];
       [num_of_Z 0; num_of_Z 0; num_of_Z (-1)];
       [fst (domainTB pD); snd (domainTB pD); num_of_Z 0; num_of_Z 0;
        num_of_Z 0; num_of_Z 0; num_of_Z 0; num_of_Z 0]].
    split; [|split; [|split; [reflexivity | discriminate]]].
    + cbn [map app]. rewrite !map_app. reflexivity.
    + rewrite !length_app, length_replicate. cbn [length]. lia.
  - exists [],
      (([num_of_Z 12345] ++ cVec pD ++ [snd (domainTB pD)])
       ++ replicate 10 (num_of_Z 0)),
      [[num_of_Z 1; snd (domainTB pD)];
       [num_of_Z 0; num_of_Z 0; num_of_Z (-1)];
       [fst (domainTB pD); snd (domainTB pD); num_of_Z 0; num_of_Z 0;
        num_of_Z 0; num_of_Z 0; num_of_Z 0; num_of_Z 0]].
    split; [|split; [|split; [discriminate | reflexivity]]].
    + cbn [map app]. rewrite !map_app. reflexivity.
    + rewrite !length_app, length_replicate. cbn [length]. lia.
Qed.

(** C5, as the code has it.  For every parameterization dictionary with a
    recognized type, eight spline placeholders in [cVec] (so that the last
    header line has 20 entries), a line 2 that does not have 20 entries
    when the type is homonuclear, and at least one grid point, the reader
    run on the file that [makeSKF] writes returns, at every grid point,
    the floats of the twenty values written there: the first ten
    columns in [HTable], the last ten in [STable]. *)
Theorem makeSKF_plotSKF_round_trip (pD : parameterizationDictionary num) :
  type pD = "homonuclear" \/ type pD = "heteronuclear" ->
  length (cVec pD) = 8 ->
  (type pD = "homonuclear" ->
   length (EVec pD ++ [SPE pD] ++ UVec pD ++ fVec pD) <> 20) ->
  1 <= nGridPoints pD ->
  skfRoundTrip pD.
Proof.
  intros Hty HcVec Hline2 Hn.
  destruct (lineListList_layout pD Hty)
    as (mid & last & trailer & Hlayout & Hlast & Hhomo & Hhetero).
  assert (Hmid : Forall (fun l : list num => length l <> 20) mid).
  { destruct Hty as [Hty|Hty].
    - rewrite (Hhomo Hty). constructor; [exact (Hline2 Hty) | constructor].
    - rewrite (Hhetero Hty). constructor. }
  assert (Htable : map (tempLine pD) (gridPointsVec pD) <> []).
  { intros E. apply (f_equal length) in E.
    rewrite length_map, length_gridPointsVec in E. cbn in E. lia. }
  assert (Hrows : Forall (fun row : list num => length row = 20)
                    (map (tempLine pD) (gridPointsVec pD))).
  { apply Forall_map, Forall_forall. intros r _. apply length_tempLine. }
  unfold skfRoundTrip. rewrite readlines_makeSKF, Hlayout.
  rewrite (plotSKF_tables_written _ _ mid last _ trailer Hmid
             ltac:(lia) Htable Hrows).
  eexists. split; [reflexivity|].
  cbn [HTable STable]. rewrite !map_map. split; apply map_ext; intros r.
  - change (map ?f ?l) with (f <$> l). rewrite fmap_take. reflexivity.
  - change (map ?f ?l) with (f <$> l). rewrite fmap_drop. reflexivity.
Qed.

End RoundTripClaim.

Lemma makeSKF_plotSKF_round_trip_witness :
  skfRoundTrip (exampleDictionary "homonuclear" [0; 0; 0; 0; 0; 0; 0; 0]%Z 3).
Proof.
  apply makeSKF_plotSKF_round_trip.
  - left. reflexivity.
  - reflexivity.
  - intros _. cbn. lia.
  - cbn. lia.
Defined.

(** C5 as stated fails on a heteronuclear parameterization with three
    spline placeholders: its header line has 15 entries, the reader takes
    the first row of the table for the header line of the simple format,
    and the table it returns lacks that row. *)
Lemma makeSKF_plotSKF_round_trip_counterexample :
  type (exampleDictionary "heteronuclear" [0; 0; 0]%Z 3) = "heteronuclear" /\
  ~ skfRoundTrip (exampleDictionary "heteronuclear" [0; 0; 0]%Z 3).
Proof.
  split; [reflexivity|].
  intros (t & Ht & HH & _).
  vm_compute in Ht. injection Ht as <-.
  vm_compute in HH. discriminate HH.
Qed.

(** ** [makeLAMMPSPairwiseTable]: claim C7 *)

Section PairTableClaim.
Context {num : Type} {ops : PyNum num}.
Import PyStr.






End PairTableClaim.

(** ** [translateCoordinates]: the arrays *)

Section ArrayFacts.
Context {num : Type} {ops : PyNum num}.


(** An empty array has no row to stack: [np.vstack] raises. *)
Lemma np_vstack_empty : np_vstack (@nil (list num)) = None.
Proof. reflexivity. Qed.




(** Whatever the loop body does, it writes to the array of the copy and
    nowhere else. *)
Lemma translateGroup_store (d : list num) (group groupT : groupDictionary num)
    (s s' : store num) :
  translateGroup d group groupT s = Some s' ->
  exists a, s' = <[qArray groupT := a]> s.
Proof.
  unfold translateGroup.
  destruct (s !! qArray group) as [q|]; [|discriminate]. cbn [mbind option_bind].
  destruct (np_vstack _) as [da|]; [|discriminate]. cbn [mbind option_bind].
  destruct (array_add _ _) as [qprime|]; [|discriminate]. cbn [mbind option_bind].
  destruct (s !! qArray groupT) as [qT|]; [|discriminate]. cbn [mbind option_bind].
  destruct (array_assign _ _ _ _) as [qT'|]; [|discriminate]. cbn [mbind option_bind].
  intros [= <-]. exists qT'. reflexivity.
Qed.

End ArrayFacts.

(** ** [translateCoordinates]: the deep copy *)

Section DeepcopyFacts.
Context {num : Type} {ops : PyNum num}.

Lemma copy_inv_init (s0 : store num) : copy_inv s0 (∅, s0).
Proof.
  split; [split|split]; cbn [fst snd]; intros *;
    try (rewrite lookup_empty; discriminate).
  reflexivity.
Qed.

Lemma fresh_not_in_store (s0 : store num) (ms : gmap loc loc * store num) :
  copy_fresh s0 ms ->
  snd ms !! fresh (dom (snd ms)) = None /\ s0 !! fresh (dom (snd ms)) = None.
Proof.
  intros [Hkeep _].
  assert (Hf : snd ms !! fresh (dom (snd ms)) = None).
  { apply not_elem_of_dom, is_fresh. }
  split; [exact Hf|].
  destruct (s0 !! fresh (dom (snd ms))) as [a|] eqn:Ha; [|reflexivity].
  rewrite <- Ha, <- (Hkeep _ (mk_is_Some _ _ Ha)). exact Hf.
Qed.

Lemma deepcopy_array_fresh (s0 : store num) (l l' : loc)
    (ms ms' : gmap loc loc * store num) :
  copy_fresh s0 ms -> deepcopy_array l ms = Some (l', ms') ->
  copy_fresh s0 ms' /\ s0 !! l' = None.
Proof.
  intros Hinv. pose proof (fresh_not_in_store s0 ms Hinv) as [Hf Hf0].
  destruct Hinv as [Hkeep Hnew]. unfold deepcopy_array.
  destruct (fst ms !! l) as [k|] eqn:Hl.
  - intros [= <- <-]. split; [split; assumption | exact (Hnew l k Hl)].
  - destruct (snd ms !! l) as [a|] eqn:Ha; [|discriminate].
    cbn [mbind option_bind]. intros [= <- <-]. cbn [fst snd].
    split; [split|exact Hf0].
    + intros k Hk. cbn [fst snd].
      rewrite lookup_insert_ne; [exact (Hkeep k Hk)|].
      intros <-. rewrite Hf0 in Hk. destruct Hk; discriminate.
    + intros k k'. cbn [fst snd]. rewrite lookup_insert.
      destruct (decide (l = k)).
      * intros [= <-]. exact Hf0.
      * apply Hnew.
Qed.

Lemma deepcopy_groups_fresh (s0 : store num) (groups groups' : list (groupDictionary num))
    (ms ms' : gmap loc loc * store num) :
  copy_fresh s0 ms -> deepcopy_groups groups ms = Some (groups', ms') ->
  copy_fresh s0 ms' /\ Forall (fun g' => s0 !! qArray g' = None) groups'.
Proof.
  revert groups' ms. induction groups as [|g groups IH]; intros groups' ms Hinv.
  - intros [= <- <-]. split; [exact Hinv | constructor].
  - cbn [deepcopy_groups].
    destruct (deepcopy_array (qArray g) ms) as [[l' ms1]|] eqn:Ha; [|discriminate].
    cbn [mbind option_bind].
    destruct (deepcopy_groups groups ms1) as [[rest' ms2]|] eqn:Hg; [|discriminate].
    cbn [mbind option_bind]. intros [= <- <-].
    destruct (deepcopy_array_fresh s0 _ _ _ _ Hinv Ha) as [Hinv1 Hl'].
    destruct (IH rest' ms1 Hinv1 Hg) as [Hinv2 Hrest].
    split; [exact Hinv2 | constructor; [exact Hl' | exact Hrest]].
Qed.

Lemma deepcopy_array_copy (s0 : store num) (l : loc)
    (ms : gmap loc loc * store num) :
  copy_inv s0 ms -> is_Some (s0 !! l) ->
  exists l' ms',
    deepcopy_array l ms = Some (l', ms') /\ copy_inv s0 ms' /\
    fst ms' !! l = Some l' /\
    (forall k k', fst ms !! k = Some k' -> fst ms' !! k = Some k').
Proof.
  intros (Hfresh & Hcopy & Hinj) Hl.
  pose proof (fresh_not_in_store s0 ms Hfresh) as [Hf Hf0].
  unfold deepcopy_array. destruct (fst ms !! l) as [k|] eqn:Hm.
  - exists k, ms. split; [reflexivity|].
    split; [exact (conj Hfresh (conj Hcopy Hinj))|].
    split; [exact Hm|]. intros k0 k' Hk. exact Hk.
  - destruct Hl as [a Ha].
    rewrite (proj1 Hfresh l (mk_is_Some _ _ Ha)), Ha. cbn [mbind option_bind].
    eexists _, _. split; [reflexivity|]. cbn [fst snd].
    assert (Hfr : copy_fresh s0
                    (<[l:=fresh (dom (snd ms))]> (fst ms),
                     <[fresh (dom (snd ms)):=a]> (snd ms))).
    { refine (proj1 (deepcopy_array_fresh s0 l _ ms _ Hfresh _)).
      unfold deepcopy_array.
      rewrite Hm, (proj1 Hfresh l (mk_is_Some _ _ Ha)), Ha. reflexivity. }
    split; [split; [exact Hfr|split]|split].
    + intros k k'. cbn [fst snd]. rewrite lookup_insert.
      destruct (decide (l = k)) as [<-|Hne].
      * intros [= <-]. rewrite lookup_insert_eq.
        split; [exact (mk_is_Some _ _ Ha) | symmetry; exact Ha].
      * intros Hk. destruct (Hcopy k k' Hk) as [Hk1 Hk2].
        split; [exact Hk1|]. rewrite lookup_insert_ne; [exact Hk2|].
        intros <-. rewrite Hf in Hk2. destruct Hk1 as [b Hb]. congruence.
    + intros l1 l2 l'. cbn [fst snd]. rewrite !lookup_insert.
      destruct (decide (l = l1)) as [<-|H1], (decide (l = l2)) as [<-|H2];
        try reflexivity.
      * intros [= <-] H2'. destruct (Hcopy l2 _ H2') as [[b Hb] Hb'].
        rewrite Hf in Hb'. congruence.
      * intros H1' [= <-]. destruct (Hcopy l1 _ H1') as [[b Hb] Hb'].
        rewrite Hf in Hb'. congruence.
      * apply Hinj.
    + apply lookup_insert_eq.
    + intros k k' Hk. rewrite lookup_insert_ne; [exact Hk|].
      intros <-. congruence.
Qed.

Lemma deepcopy_groups_copy (s0 : store num) (groups : list (groupDictionary num))
    (ms : gmap loc loc * store num) :
  copy_inv s0 ms ->
  Forall (fun g => is_Some (s0 !! qArray g)) groups ->
  exists groups' ms',
    deepcopy_groups groups ms = Some (groups', ms') /\ copy_inv s0 ms' /\
    (forall k k', fst ms !! k = Some k' -> fst ms' !! k = Some k') /\
    Forall2 (group_copied (fst ms')) groups groups'.
Proof.
  intros Hinv Hgroups. revert ms Hinv.
  induction Hgroups as [|g groups Hg _ IH]; intros ms Hinv.
  - exists [], ms. split; [reflexivity|]. split; [exact Hinv|].
    split; [intros k k' Hk; exact Hk | constructor].
  - destruct (deepcopy_array_copy s0 (qArray g) ms Hinv Hg)
      as (l' & ms1 & Ha & Hinv1 & Hl' & Hmono1).
    destruct (IH ms1 Hinv1) as (rest' & ms2 & Hr & Hinv2 & Hmono2 & Hall).
    cbn [deepcopy_groups]. rewrite Ha. cbn [mbind option_bind].
    rewrite Hr. cbn [mbind option_bind].
    eexists _, _. split; [reflexivity|]. split; [exact Hinv2|].
    split; [intros k k' Hk; exact (Hmono2 k k' (Hmono1 k k' Hk))|].
    constructor; [|exact Hall].
    split; [exact (Hmono2 _ _ Hl') | split; reflexivity].
Qed.

End DeepcopyFacts.

(** ** [translateCoordinates]: the loop *)

Section TranslateLoopFacts.
Context {num : Type} {ops : PyNum num}.

(** The loop never writes to an array of the store [s0] it started from,
    whether it ends with an exception or not. *)
Lemma translateLoop_preserves (s0 : store num) (d : list num)
    (control : list Z) (groupsT groups : list (groupDictionary num))
    (k : nat) (s : store num) :
  Forall (fun gT => s0 !! qArray gT = None) groupsT ->
  (forall l, is_Some (s0 !! l) -> s !! l = s0 !! l) ->
  forall l, is_Some (s0 !! l) ->
    fst (translateLoop d control groupsT groups k s) !! l = s0 !! l.
Proof.
  intros HT. revert k s. induction groups as [|g groups IH]; intros k s Hs;
    [exact Hs|].
  cbn [translateLoop].
  destruct (control !! k) as [c|]; [|exact Hs].
  destruct (c =? 0)%Z; [exact (IH (S k) s Hs)|].
  destruct (groupsT !! k) as [gT|] eqn:HgT; [|exact Hs].
  destruct (translateGroup d g gT s) as [s'|] eqn:Hg; [|exact Hs].
  apply IH. intros l Hl.
  destruct (translateGroup_store d g gT s s' Hg) as [a ->].
  rewrite Forall_lookup in HT.
  rewrite lookup_insert_ne; [exact (Hs l Hl)|].
  intros <-. rewrite (HT k gT HgT) in Hl. destruct Hl; discriminate.
Qed.


End TranslateLoopFacts.

(** ** [translateCoordinates]: claim C10 *)

Section TranslateClaim.
Context {num : Type} {ops : PyNum num}.

Lemma translateCoordinates_preserves (sd : simulationDictionary num)
    (d : list num) (groupControl : option (list Z)) (s : store num) :
  forall l, is_Some (s !! l) ->
    fst (translateCoordinates sd d groupControl s) !! l = s !! l.
Proof.
  intros l Hl. unfold translateCoordinates.
  destruct (deepcopy sd s) as [[sdT s1]|] eqn:Hcopy; [|reflexivity].
  unfold deepcopy in Hcopy.
  destruct (deepcopy_groups (groupDictionaries sd) (∅, s))
    as [[groups' ms1]|] eqn:Hg; [|discriminate].
  cbn [mbind option_bind] in Hcopy.
  destruct (deepcopy_array (boxVectors sd) ms1) as [[box' ms2]|] eqn:Hb;
    [|discriminate].
  cbn [mbind option_bind] in Hcopy. injection Hcopy as <- <-.
  destruct (deepcopy_groups_fresh s _ _ _ _ (proj1 (copy_inv_init s)) Hg)
    as [Hf1 Hgroups'].
  destruct (deepcopy_array_fresh s _ _ _ _ Hf1 Hb) as [[Hkeep _] _].
  cbn [groupDictionaries].
  pose proof (translateLoop_preserves s d (effectiveControl sd groupControl)
                groups' (groupDictionaries sd) 0 (snd ms2) Hgroups' Hkeep l Hl)
    as Hloop.
  destruct (translateLoop _ _ _ _ _ _) as [s2 ok]. exact Hloop.
Qed.


End TranslateClaim.



(** A selected group without rows: [np.vstack] has nothing to stack and
    the call ends with an exception. *)
Example translateCoordinates_empty_group :
  snd (translateCoordinates
         {| groupDictionaries := [mkGroup 0 [6]%Z (IntNum.ints [12]%Z)];
            boxVectors := 2; nAtoms := 0%Z; atomTypeList := [6]%Z;
            massList := IntNum.ints [12]%Z; nAtomTypes := 1%Z |}
         exampleDisplacement None
         (<[0 := []]>
            (<[2 := map IntNum.floats [[9; 0; 0]; [0; 9; 0]; [0; 0; 9]]%Z]> ∅)))
  = None.
Proof. vm_compute. reflexivity. Qed.

(* ================================================================== *)
(** * Part III.  Further properties of [latte_functions.py] *)
(* ================================================================== *)

(** ** [getLATTEProperty] *)

Section GetLATTEPropertyFacts.
Context {num : Type} {ops : PyNum num}.
Import PyStr.

Lemma slice_to_app (p rest : string) :
  slice_to (String.length p) (p +:+ rest) = p.
Proof.
  unfold slice_to. induction p as [|c p IH].
  - destruct rest; reflexivity.
  - rewrite string_app_cons. cbn [String.length substring]. rewrite IH.
    reflexivity.
Qed.

Lemma slice_to_prefix (p line : string) :
  slice_to (String.length p) line = p -> starts_with p line.
Proof.
  unfold slice_to, starts_with. revert line.
  induction p as [|c p IH]; intros line.
  - intros _. exists line. reflexivity.
  - destruct line as [|d line]; [discriminate|].
    cbn [String.length substring]. intros [= -> Hp].
    destruct (IH line Hp) as [rest ->]. exists rest. reflexivity.
Qed.

(** The test of the loop is the test that the line starts with the name. *)
Lemma starts_with_test (p line : string) :
  String.eqb (slice_to (String.length p) line) p = true <-> starts_with p line.
Proof.
  rewrite String.eqb_eq. split; [apply slice_to_prefix|].
  intros [rest ->]. apply slice_to_app.
Qed.

Lemma getLATTEProperty_skip (prprty : string) (before rest : list string) :
  Forall (fun l => ~ starts_with prprty l) before ->
  getLATTEProperty prprty (before ++ rest) = getLATTEProperty prprty rest.
Proof.
  induction 1 as [|l before Hl _ IH]; [reflexivity|].
  cbn [app getLATTEProperty].
  destruct (String.eqb _ prprty) eqn:E; [|exact IH].
  apply starts_with_test in E. contradiction.
Qed.

(** X1.  The value returned is read off the first line that starts with
    the name of the property, whatever follows the name there (the line
    of a property whose name only starts with the name asked for is taken
    as well) and whatever lines come after it: the result is the float of
    the last entry of that line; the call raises when that line has no
    entry or its last entry is not the text of a float. *)
Theorem getLATTEProperty_first_match (prprty line : string)
    (before after : list string) :
  Forall (fun l => ~ starts_with prprty l) before ->
  starts_with prprty line ->
  getLATTEProperty prprty (before ++ line :: after)
  = (propertyString ← last (split line);
     x ← py_float propertyString;
     Some (inl x)).
Proof.
  intros Hbefore Hline. rewrite (getLATTEProperty_skip _ _ _ Hbefore).
  cbn [getLATTEProperty].
  rewrite (proj2 (starts_with_test prprty line) Hline). reflexivity.
Qed.

(** X2.  The call returns the string ['Specified property not found.']
    exactly when no line of the file starts with the name of the
    property. *)
Theorem getLATTEProperty_not_found (prprty : string) (lines : list string) :
  getLATTEProperty prprty lines = Some (inr "Specified property not found.")
  <-> Forall (fun l => ~ starts_with prprty l) lines.
Proof.
  split.
  - induction lines as [|l lines IH]; [constructor|].
    cbn [getLATTEProperty].
    destruct (String.eqb _ prprty) eqn:E.
    + destruct (last (split l)) as [propertyString|]; [|discriminate].
      cbn [mbind option_bind].
      destruct (py_float propertyString); discriminate.
    + intros Hrest. constructor; [|exact (IH Hrest)].
      intros Hl. apply starts_with_test in Hl. congruence.
  - intros Hlines.
    rewrite <- (app_nil_r lines), (getLATTEProperty_skip _ _ _ Hlines).
    reflexivity.
Qed.

End GetLATTEPropertyFacts.

Section GetLATTEPropertyText.
Context {num : Type} {ops : PyNum num} {text : PyNumText num}.
Import PyStr.

Lemma last_split_value (s : string) (x : num) :
  last (split (s +:+ " " +:+ py_str x +:+ newline)) = Some (py_str x).
Proof.
  change (" " +:+ py_str x +:+ newline)
    with (String " " (py_str x +:+ newline)).
  rewrite split_app_space by reflexivity.
  rewrite split_line, (split_word _ (number_text_word _ (py_str_text x))).
  apply last_snoc.
Qed.

(** X3.  Reading back a property that was written as a line of the form
    [name ... value], the value being the [str] of a number [x]: when no
    earlier line starts with the name, the call returns [float(x)]. *)
Theorem getLATTEProperty_written (prprty mid : string) (x : num)
    (before after : list string) :
  Forall (fun l => ~ starts_with prprty l) before ->
  getLATTEProperty prprty
    (before ++ (prprty +:+ mid +:+ " " +:+ py_str x +:+ newline) :: after)
  = Some (inl (py_float_of_num x)).
Proof.
  intros Hbefore. rewrite (getLATTEProperty_skip _ _ _ Hbefore).
  cbn [getLATTEProperty]. rewrite slice_to_app.
  rewrite String.eqb_refl.
  rewrite <- string_app_assoc, last_split_value. cbn [mbind option_bind].
  rewrite py_float_str. reflexivity.
Qed.

End GetLATTEPropertyText.

(** A LATTE output with two properties whose names start alike. *)
Lemma getLATTEProperty_first_match_witness :
  getLATTEProperty (num := IntNum.t) "FREE ENERGY"
    (["Number of orbitals = 8" +:+ PyStr.newline]
     ++ ("FREE ENERGY PER ATOM = -7.0" +:+ PyStr.newline)
     :: ["FREE ENERGY = -14.0" +:+ PyStr.newline])
  = Some (inl (IntNum.PyFloat (-7))).
Proof.
  rewrite (getLATTEProperty_first_match (num := IntNum.t) "FREE ENERGY").
  - reflexivity.
  - constructor; [|constructor].
    intros Hs. apply starts_with_test in Hs. discriminate Hs.
  - eexists. reflexivity.
Defined.

Lemma getLATTEProperty_written_witness :
  getLATTEProperty "Temperature"
    (["Number of atoms = 2" +:+ PyStr.newline]
     ++ ("Temperature" +:+ " [K] =" +:+ " " +:+ py_str (IntNum.PyFloat 300)
         +:+ PyStr.newline) :: [])
  = Some (inl (IntNum.PyFloat 300)).
Proof.
  assert (Hbefore : Forall (fun l => ~ starts_with "Temperature" l)
                      ["Number of atoms = 2" +:+ PyStr.newline]).
  { constructor; [|constructor].
    intros Hs. apply starts_with_test in Hs. discriminate Hs. }
  exact (getLATTEProperty_written (num := IntNum.t) "Temperature" " [K] ="
           (IntNum.PyFloat 300) _ [] Hbefore).
Defined.

(** ** [getNumberOfAtoms], [refreshMetaData] and [translateCoordinates] *)

Section MetaDataFacts.
Context {num : Type} {ops : PyNum num}.

Lemma arrays_of_groups (groups : list (groupDictionary num)) (s : store num) :
  Forall (fun group => is_Some (s !! qArray group)) groups ->
  exists qs, Forall2 (fun group q => s !! qArray group = Some q) groups qs.
Proof.
  induction 1 as [|g groups [q Hq] _ [qs IH]].
  - exists []. constructor.
  - exists (q :: qs). constructor; assumption.
Qed.

(** The loop of [getNumberOfAtoms] adds the numbers of rows. *)
Lemma countAtoms_total (groups : list (groupDictionary num)) (s : store num)
    (qs : list (ndarray num)) (n : Z) :
  Forall2 (fun group q => s !! qArray group = Some q) groups qs ->
  countAtoms groups s n = Some (n + Z.of_nat (length (concat qs)))%Z.
Proof.
  intros Hqs. revert n.
  induction Hqs as [|g q groups qs Hq _ IH]; intros n.
  - cbn. rewrite Z.add_0_r. reflexivity.
  - cbn [countAtoms concat]. rewrite Hq. cbn [mbind option_bind].
    rewrite IH, length_app, Nat2Z.inj_add, Z.add_assoc. reflexivity.
Qed.

(** It sees the arrays through their numbers of rows only. *)
Lemma countAtoms_rows (groups groups' : list (groupDictionary num))
    (s s' : store num) (n : Z) :
  Forall2 (fun g g' => exists q q',
             s !! qArray g = Some q /\ s' !! qArray g' = Some q' /\
             length q' = length q) groups groups' ->
  countAtoms groups' s' n = countAtoms groups s n.
Proof.
  intros Hg. revert n.
  induction Hg as [|g g' groups groups' (q & q' & Hq & Hq' & Hlen) _ IH];
    intros n; [reflexivity|].
  cbn [countAtoms]. rewrite Hq, Hq'. cbn [mbind option_bind].
  rewrite Hlen. apply IH.
Qed.

Lemma collectMetaData_fold (groups : list (groupDictionary num))
    (a : list Z) (m : list num) :
  fold_left
    (fun '(atomTypeListFull, massListFull) group =>
       (atomTypeListFull ++ group_atomTypeList group,
        massListFull ++ group_massList group))
    groups (a, m)
  = (a ++ concat (map group_atomTypeList groups),
     m ++ concat (map group_massList groups)).
Proof.
  revert a m. induction groups as [|g groups IH]; intros a m.
  - cbn. rewrite !app_nil_r. reflexivity.
  - cbn [fold_left map concat]. rewrite IH, <- !app_assoc. reflexivity.
Qed.

Lemma collectMetaData_concat (groups : list (groupDictionary num)) :
  collectMetaData groups
  = (concat (map group_atomTypeList groups),
     concat (map group_massList groups)).
Proof. unfold collectMetaData. apply collectMetaData_fold. Qed.

(** X4.  When the arrays of the dictionary exist, [refreshMetaData]
    leaves the groups and the box vectors as they are and sets the
    metadata from the groups: the atom types and the masses of the groups
    one after the other (a type that two groups list is listed twice),
    the number of atom types as the length of that list, and the number
    of atoms as the number of rows of the arrays of the groups together.
    A second call changes nothing. *)
Theorem refreshMetaData_sets_metadata (sd : simulationDictionary num)
    (s : store num) :
  arrays_in_store sd s ->
  exists (r : simulationDictionary num) (qs : list (ndarray num)),
    refreshMetaData sd s = Some r /\
    groupDictionaries r = groupDictionaries sd /\
    boxVectors r = boxVectors sd /\
    atomTypeList r = concat (map group_atomTypeList (groupDictionaries sd)) /\
    massList r = concat (map group_massList (groupDictionaries sd)) /\
    nAtomTypes r = Z.of_nat (length (atomTypeList r)) /\
    Forall2 (fun group q => s !! qArray group = Some q)
      (groupDictionaries sd) qs /\
    nAtoms r = Z.of_nat (length (concat qs)) /\
    refreshMetaData r s = Some r.
Proof.
  intros [_ Hgroups].
  destruct (arrays_of_groups _ _ Hgroups) as [qs Hqs].
  assert (Hcount : forall sd0 : simulationDictionary num,
            groupDictionaries sd0 = groupDictionaries sd ->
            refreshMetaData sd0 s
            = Some {| groupDictionaries := groupDictionaries sd;
                      boxVectors := boxVectors sd0;
                      nAtoms := Z.of_nat (length (concat qs));
                      atomTypeList :=
                        concat (map group_atomTypeList (groupDictionaries sd));
                      massList :=
                        concat (map group_massList (groupDictionaries sd));
                      nAtomTypes :=
                        Z.of_nat
                          (length (concat (map group_atomTypeList
                                             (groupDictionaries sd)))) |}).
  { intros sd0 E. unfold refreshMetaData, getNumberOfAtoms.
    rewrite E, collectMetaData_concat, (countAtoms_total _ _ qs 0 Hqs).
    reflexivity. }
  eexists _, qs. split; [exact (Hcount sd eq_refl)|].
  cbn [groupDictionaries boxVectors nAtoms atomTypeList massList nAtomTypes].
  do 6 (split; [first [reflexivity | exact Hqs]|]).
  split; [reflexivity|].
  exact (Hcount _ eq_refl).
Qed.

End MetaDataFacts.

Section TranslateMetaData.
Context {num : Type} {ops : PyNum num}.

Lemma array_assign_length (lo hi : nat) (target value a : ndarray num) :
  array_assign lo hi target value = Some a -> length a = length target.
Proof.
  unfold array_assign.
  destruct (Nat.eqb_spec (length target) (length value)) as [E|]; [|discriminate].
  intros Ha. apply length_mapM in Ha.
  rewrite <- Ha, length_zip_with. lia.
Qed.

(** The loop body keeps the number of rows of every array. *)
Lemma translateGroup_rows (d : list num) (group groupT : groupDictionary num)
    (s s' : store num) :
  translateGroup d group groupT s = Some s' ->
  forall l a, s !! l = Some a ->
    exists a', s' !! l = Some a' /\ length a' = length a.
Proof.
  unfold translateGroup.
  destruct (s !! qArray group) as [q|]; [|discriminate]. cbn [mbind option_bind].
  destruct (np_vstack _) as [da|]; [|discriminate]. cbn [mbind option_bind].
  destruct (array_add _ _) as [qprime|]; [|discriminate]. cbn [mbind option_bind].
  destruct (s !! qArray groupT) as [qT|] eqn:HqT; [|discriminate].
  cbn [mbind option_bind].
  destruct (array_assign _ _ _ _) as [qT'|] eqn:Ha; [|discriminate].
  cbn [mbind option_bind]. intros [= <-] l a Hl.
  destruct (decide (l = qArray groupT)) as [->|Hne].
  - rewrite lookup_insert_eq. exists qT'. split; [reflexivity|].
    rewrite (array_assign_length _ _ _ _ _ Ha). congruence.
  - rewrite lookup_insert_ne by congruence. exists a. split; [exact Hl | reflexivity].
Qed.

Lemma translateLoop_rows (d : list num) (control : list Z)
    (groupsT groups : list (groupDictionary num)) (k : nat) (s : store num) :
  forall l a, s !! l = Some a ->
    exists a',
      fst (translateLoop d control groupsT groups k s) !! l = Some a' /\
      length a' = length a.
Proof.
  revert k s. induction groups as [|g groups IH]; intros k s l a Hl;
    [exists a; split; [exact Hl | reflexivity]|].
  cbn [translateLoop].
  destruct (control !! k) as [c|]; [|exists a; split; [exact Hl | reflexivity]].
  destruct (c =? 0)%Z; [exact (IH (S k) s l a Hl)|].
  destruct (groupsT !! k) as [gT|];
    [|exists a; split; [exact Hl | reflexivity]].
  destruct (translateGroup d g gT s) as [s1|] eqn:Hg;
    [|exists a; split; [exact Hl | reflexivity]].
  destruct (translateGroup_rows d g gT s s1 Hg l a Hl) as (a1 & Hl1 & Hlen1).
  destruct (IH (S k) s1 l a1 Hl1) as (a' & Hl' & Hlen').
  exists a'. split; [exact Hl' | congruence].
Qed.

(** What a call that returns leaves: the entries of the dictionary other
    than the arrays are those of the argument, and the array of every
    group of the result has as many rows as the array of the group it
    copies. *)
Lemma translateCoordinates_groups (sd sd' : simulationDictionary num)
    (d : list num) (groupControl : option (list Z)) (s s' : store num) :
  arrays_in_store sd s ->
  translateCoordinates sd d groupControl s = (s', Some sd') ->
  nAtoms sd' = nAtoms sd /\ atomTypeList sd' = atomTypeList sd /\
  massList sd' = massList sd /\ nAtomTypes sd' = nAtomTypes sd /\
  is_Some (s' !! boxVectors sd') /\
  Forall2 (fun g g' =>
             group_atomTypeList g' = group_atomTypeList g /\
             group_massList g' = group_massList g /\
             exists q q',
               s !! qArray g = Some q /\ s' !! qArray g' = Some q' /\
               length q' = length q)
    (groupDictionaries sd) (groupDictionaries sd').
Proof.
  intros [Hbox Hall] Hcall.
  destruct (deepcopy_groups_copy s _ _ (copy_inv_init s) Hall)
    as (groups' & ms1 & Hg & Hinv1 & _ & Hcopied1).
  destruct (deepcopy_array_copy s (boxVectors sd) ms1 Hinv1 Hbox)
    as (box' & ms2 & Hb & Hinv2 & Hbox' & Hmono).
  destruct Hinv2 as (_ & Hcontent & _).
  unfold translateCoordinates, deepcopy in Hcall.
  rewrite Hg in Hcall. cbn [mbind option_bind] in Hcall.
  rewrite Hb in Hcall. cbn [mbind option_bind groupDictionaries snd] in Hcall.
  pose proof (translateLoop_rows d (effectiveControl sd groupControl) groups'
                (groupDictionaries sd) 0 (snd ms2)) as Hrows.
  destruct (translateLoop _ _ _ _ _ _) as [s2 ok].
  cbn [fst] in Hrows. destruct ok; [|discriminate].
  injection Hcall as <- <-.
  cbn [nAtoms atomTypeList massList nAtomTypes boxVectors groupDictionaries].
  do 4 (split; [reflexivity|]).
  split.
  { destruct (Hcontent _ _ Hbox') as [[a Ha] Hbox1]. rewrite Ha in Hbox1.
    destruct (Hrows _ _ Hbox1) as (a' & Ha' & _). exact (mk_is_Some _ _ Ha'). }
  eapply Forall2_impl; [exact Hcopied1|].
  intros g g' (Hm & Htypes & Hmass).
  split; [exact Htypes|]. split; [exact Hmass|].
  destruct (Hcontent _ _ (Hmono _ _ Hm)) as [[q Hq] Hq1]. rewrite Hq in Hq1.
  destruct (Hrows _ _ Hq1) as (q' & Hq' & Hlen).
  exists q, q'. split; [exact Hq|]. split; [exact Hq' | exact Hlen].
Qed.

(** X5.  A call of [translateCoordinates] that returns keeps the number
    of atoms: [getNumberOfAtoms] of the dictionary returned is
    [getNumberOfAtoms] of the argument, whatever groups were selected and
    whether or not groups share arrays. *)
Theorem translateCoordinates_getNumberOfAtoms
    (sd sd' : simulationDictionary num) (d : list num)
    (groupControl : option (list Z)) (s s' : store num) :
  arrays_in_store sd s ->
  translateCoordinates sd d groupControl s = (s', Some sd') ->
  exists n : Z,
    getNumberOfAtoms sd s = Some n /\ getNumberOfAtoms sd' s' = Some n.
Proof.
  intros Hin Hcall.
  destruct (translateCoordinates_groups sd sd' d groupControl s s' Hin Hcall)
    as (_ & _ & _ & _ & _ & Hgroups).
  destruct (arrays_of_groups _ _ (proj2 Hin)) as [qs Hqs].
  exists (0 + Z.of_nat (length (concat qs)))%Z.
  unfold getNumberOfAtoms.
  rewrite (countAtoms_rows (groupDictionaries sd) (groupDictionaries sd') s s').
  - split; exact (countAtoms_total _ _ qs 0 Hqs).
  - eapply Forall2_impl; [exact Hgroups|].
    intros g g' (_ & _ & H). exact H.
Qed.

(** X6.  Translating and then refreshing the metadata gives the metadata
    that refreshing the argument gives: the same number of atoms, the
    same lists of atom types and masses, the same number of atom types. *)
Theorem translateCoordinates_refreshMetaData
    (sd sd' : simulationDictionary num) (d : list num)
    (groupControl : option (list Z)) (s s' : store num) :
  arrays_in_store sd s ->
  translateCoordinates sd d groupControl s = (s', Some sd') ->
  exists r r' : simulationDictionary num,
    refreshMetaData sd s = Some r /\ refreshMetaData sd' s' = Some r' /\
    groupDictionaries r' = groupDictionaries sd' /\
    boxVectors r' = boxVectors sd' /\
    nAtoms r' = nAtoms r /\ atomTypeList r' = atomTypeList r /\
    massList r' = massList r /\ nAtomTypes r' = nAtomTypes r.
Proof.
  intros Hin Hcall.
  destruct (translateCoordinates_groups sd sd' d groupControl s s' Hin Hcall)
    as (_ & _ & _ & _ & _ & Hgroups).
  destruct (arrays_of_groups _ _ (proj2 Hin)) as [qs Hqs].
  assert (Hcount : countAtoms (groupDictionaries sd') s' 0
                   = countAtoms (groupDictionaries sd) s 0).
  { apply countAtoms_rows. eapply Forall2_impl; [exact Hgroups|].
    intros g g' (_ & _ & H). exact H. }
  assert (Htypes : map group_atomTypeList (groupDictionaries sd')
                   = map group_atomTypeList (groupDictionaries sd)).
  { clear Hcount Hqs. induction Hgroups as [|g g' l l' (E & _) _ IH];
      [reflexivity|]. cbn [map]. rewrite E, IH. reflexivity. }
  assert (Hmass : map group_massList (groupDictionaries sd')
                  = map group_massList (groupDictionaries sd)).
  { clear Hcount Hqs Htypes.
    induction Hgroups as [|g g' l l' (_ & E & _) _ IH]; [reflexivity|].
    cbn [map]. rewrite E, IH. reflexivity. }
  unfold refreshMetaData, getNumberOfAtoms.
  rewrite !collectMetaData_concat, Hcount, Htypes, Hmass.
  rewrite (countAtoms_total _ _ qs 0 Hqs). cbn [mbind option_bind].
  eexists _, _. split; [reflexivity|]. split; [reflexivity|].
  cbn [groupDictionaries boxVectors nAtoms atomTypeList massList nAtomTypes].
  repeat split; reflexivity.
Qed.

End TranslateMetaData.

Section TranslateControl.
Context {num : Type} {ops : PyNum num}.

Lemma translateLoop_none_selected (d : list num) (control : list Z)
    (groupsT groups : list (groupDictionary num)) (k : nat) (s : store num) :
  Forall (fun c => c = 0%Z) control ->
  k + length groups <= length control ->
  translateLoop d control groupsT groups k s = (s, true).
Proof.
  intros Hzero. revert k. induction groups as [|g groups IH]; intros k Hk;
    [reflexivity|].
  cbn [translateLoop length] in *.
  destruct (control !! k) as [c|] eqn:Hc.
  - rewrite Forall_lookup in Hzero. rewrite (Hzero k c Hc). cbn.
    apply IH. lia.
  - apply lookup_ge_None in Hc. lia.
Qed.

Lemma translateLoop_short_control (d : list num) (control : list Z)
    (groupsT groups : list (groupDictionary num)) (k : nat) (s : store num) :
  k <= length control -> length control < k + length groups ->
  snd (translateLoop d control groupsT groups k s) = false.
Proof.
  revert k s. induction groups as [|g groups IH]; intros k s Hk Hshort;
    [cbn [length] in Hshort; lia|].
  cbn [translateLoop length] in *.
  destruct (control !! k) as [c|] eqn:Hc; [|reflexivity].
  apply lookup_lt_Some in Hc.
  destruct (c =? 0)%Z; [apply IH; lia|].
  destruct (groupsT !! k) as [gT|]; [|reflexivity].
  destruct (translateGroup d g gT s) as [s1|]; [|reflexivity].
  apply IH; lia.
Qed.

Lemma effectiveControl_nonempty (sd : simulationDictionary num)
    (control : list Z) :
  control <> [] -> effectiveControl sd (Some control) = control.
Proof. destruct control; [contradiction | reflexivity]. Qed.

(** X7.  With a control list of zeros, one for every group, no group is
    moved and the call is a deep copy, whatever the displacement vector
    and the arrays are: the dictionary returned holds new arrays with the
    contents of the arrays of the argument, two groups of the copy share
    an array exactly when the groups they copy do, the other entries are
    those of the argument, and no array of the argument is written to. *)
Theorem translateCoordinates_none_selected (sd : simulationDictionary num)
    (d : list num) (control : list Z) (s : store num) :
  arrays_in_store sd s ->
  control <> [] -> Forall (fun c => c = 0%Z) control ->
  length (groupDictionaries sd) <= length control ->
  exists (s' : store num) (sd' : simulationDictionary num),
    translateCoordinates sd d (Some control) s = (s', Some sd') /\
    (forall l, is_Some (s !! l) -> s' !! l = s !! l) /\
    nAtoms sd' = nAtoms sd /\ atomTypeList sd' = atomTypeList sd /\
    massList sd' = massList sd /\ nAtomTypes sd' = nAtomTypes sd /\
    s !! boxVectors sd' = None /\
    s' !! boxVectors sd' = s !! boxVectors sd /\
    Forall2 (fun g g' =>
               group_atomTypeList g' = group_atomTypeList g /\
               group_massList g' = group_massList g /\
               s !! qArray g' = None /\
               s' !! qArray g' = s !! qArray g)
      (groupDictionaries sd) (groupDictionaries sd') /\
    (forall i j gi gj gi' gj',
       groupDictionaries sd !! i = Some gi ->
       groupDictionaries sd !! j = Some gj ->
       groupDictionaries sd' !! i = Some gi' ->
       groupDictionaries sd' !! j = Some gj' ->
       (qArray gi' = qArray gj' <-> qArray gi = qArray gj)).
Proof.
  intros [Hbox Hall] Hne Hzero Hlen.
  destruct (deepcopy_groups_copy s _ _ (copy_inv_init s) Hall)
    as (groups' & ms1 & Hg & Hinv1 & _ & Hcopied1).
  destruct (deepcopy_array_copy s (boxVectors sd) ms1 Hinv1 Hbox)
    as (box' & ms2 & Hb & Hinv2 & Hbox' & Hmono).
  destruct Hinv2 as ([Hkeep Hnew] & Hcontent & Hinj).
  exists (snd ms2),
    (mkSimulation groups' box' (nAtoms sd) (atomTypeList sd) (massList sd)
       (nAtomTypes sd)).
  split.
  { unfold translateCoordinates, deepcopy.
    rewrite Hg. cbn [mbind option_bind]. rewrite Hb. cbn [mbind option_bind].
    cbn [groupDictionaries].
    rewrite (effectiveControl_nonempty sd control Hne).
    rewrite translateLoop_none_selected by (cbn; assumption).
    reflexivity. }
  cbn [boxVectors nAtoms atomTypeList massList nAtomTypes groupDictionaries].
  split; [exact Hkeep|]. do 4 (split; [reflexivity|]).
  split; [exact (Hnew _ _ Hbox')|].
  split; [exact (proj2 (Hcontent _ _ Hbox'))|].
  assert (Hcopied : Forall2 (group_copied (fst ms2)) (groupDictionaries sd) groups').
  { eapply Forall2_impl; [exact Hcopied1|].
    intros g g' (H1 & H2 & H3). split; [exact (Hmono _ _ H1) | split; assumption]. }
  split.
  - eapply Forall2_impl; [exact Hcopied|].
    intros g g' (Hm & Htypes & Hmass).
    split; [exact Htypes|]. split; [exact Hmass|].
    split; [exact (Hnew _ _ Hm) | exact (proj2 (Hcontent _ _ Hm))].
  - intros i j gi gj gi' gj' Hi Hj Hi' Hj'.
    destruct (Forall2_lookup_l _ _ _ _ _ Hcopied Hi) as (g1 & Hg1 & Hm1 & _).
    destruct (Forall2_lookup_l _ _ _ _ _ Hcopied Hj) as (g2 & Hg2 & Hm2 & _).
    rewrite Hi' in Hg1. injection Hg1 as <-.
    rewrite Hj' in Hg2. injection Hg2 as <-.
    split.
    + intros E. rewrite E in Hm1. exact (Hinj _ _ _ Hm1 Hm2).
    + intros E. rewrite E in Hm1. congruence.
Qed.

(** X8.  A control list that is not empty and has fewer entries than
    there are groups makes the call raise ([IndexError] at the first group
    without entry, if nothing raised before): no dictionary is returned.
    The empty control list does not raise: it stands for the default and
    selects every group. *)
Theorem translateCoordinates_short_control (sd : simulationDictionary num)
    (d : list num) (control : list Z) (s : store num) :
  (control <> [] -> length control < length (groupDictionaries sd) ->
   snd (translateCoordinates sd d (Some control) s) = None) /\
  translateCoordinates sd d (Some []) s
  = translateCoordinates sd d
      (Some (replicate (length (groupDictionaries sd)) 1%Z)) s.
Proof.
  split.
  - intros Hne Hshort. unfold translateCoordinates.
    destruct (deepcopy sd s) as [[sdT s1]|]; [|reflexivity].
    rewrite (effectiveControl_nonempty sd control Hne).
    pose proof (translateLoop_short_control d control (groupDictionaries sdT)
                  (groupDictionaries sd) 0 s1 ltac:(lia) ltac:(cbn; lia)) as Hloop.
    destruct (translateLoop _ _ _ _ _ _) as [s2 ok]. cbn [snd] in *.
    rewrite Hloop. reflexivity.
  - unfold translateCoordinates, effectiveControl.
    destruct (replicate _ _) eqn:E; [|reflexivity].
    reflexivity.
Qed.

End TranslateControl.

Lemma example_arrays_in_store : arrays_in_store exampleSimulation exampleStore.
Proof.
  split; [vm_compute; eexists; reflexivity|].
  repeat constructor; vm_compute; eexists; reflexivity.
Qed.

Lemma refreshMetaData_sets_metadata_witness :
  exists r : simulationDictionary IntNum.t,
    refreshMetaData exampleSimulation exampleStore = Some r /\
    nAtoms r = 3%Z /\ nAtomTypes r = 2%Z /\
    refreshMetaData r exampleStore = Some r.
Proof.
  destruct (refreshMetaData_sets_metadata exampleSimulation exampleStore
              example_arrays_in_store)
    as (r & qs & Hr & _ & _ & _ & _ & _ & _ & _ & Hagain).
  exists r. split; [exact Hr|].
  vm_compute in Hr. injection Hr as <-.
  split; [reflexivity|]. split; [reflexivity | exact Hagain].
Defined.

Lemma translateCoordinates_getNumberOfAtoms_witness :
  let r := translateCoordinates exampleSimulation exampleDisplacement
             (Some [0; 1]%Z) exampleStore in
  exists (sd' : simulationDictionary IntNum.t) (n : Z),
    snd r = Some sd' /\
    getNumberOfAtoms exampleSimulation exampleStore = Some n /\
    getNumberOfAtoms sd' (fst r) = Some n.
Proof.
  cbn zeta.
  destruct (translateCoordinates exampleSimulation exampleDisplacement
              (Some [0; 1]%Z) exampleStore) as [s' [sd'|]] eqn:Hcall;
    [|vm_compute in Hcall; discriminate Hcall].
  destruct (translateCoordinates_getNumberOfAtoms _ _ _ _ _ _
              example_arrays_in_store Hcall) as (n & Hn & Hn').
  exists sd', n. split; [reflexivity|]. split; [exact Hn | exact Hn'].
Defined.

Lemma translateCoordinates_refreshMetaData_witness :
  let r := translateCoordinates exampleSimulation exampleDisplacement
             None exampleStore in
  exists sd' m m' : simulationDictionary IntNum.t,
    snd r = Some sd' /\
    refreshMetaData exampleSimulation exampleStore = Some m /\
    refreshMetaData sd' (fst r) = Some m' /\
    nAtoms m' = nAtoms m /\ massList m' = massList m.
Proof.
  cbn zeta.
  destruct (translateCoordinates exampleSimulation exampleDisplacement
              None exampleStore) as [s' [sd'|]] eqn:Hcall;
    [|vm_compute in Hcall; discriminate Hcall].
  destruct (translateCoordinates_refreshMetaData _ _ _ _ _ _
              example_arrays_in_store Hcall)
    as (m & m' & Hm & Hm' & _ & _ & Hn & _ & Hmass & _).
  exists sd', m, m'. split; [reflexivity|].
  split; [exact Hm|]. split; [exact Hm'|]. split; [exact Hn | exact Hmass].
Defined.

(** The dictionary whose two groups share an array, copied. *)
Lemma translateCoordinates_none_selected_witness :
  exists (s' : store IntNum.t) (sd' : simulationDictionary IntNum.t),
    translateCoordinates sharedSimulation exampleDisplacement
      (Some [0; 0; 0]%Z) exampleStore = (s', Some sd') /\
    s' !! boxVectors sd' = exampleStore !! 2.
Proof.
  assert (Hin : arrays_in_store sharedSimulation exampleStore).
  { split; [vm_compute; eexists; reflexivity|].
    repeat constructor; vm_compute; eexists; reflexivity. }
  destruct (translateCoordinates_none_selected sharedSimulation
              exampleDisplacement [0; 0; 0]%Z exampleStore Hin)
    as (s' & sd' & Hcall & _ & _ & _ & _ & _ & _ & Hbox & _).
  - discriminate.
  - repeat constructor.
  - cbn. lia.
  - exists s', sd'. split; [exact Hcall | exact Hbox].
Defined.

Lemma translateCoordinates_short_control_witness :
  snd (translateCoordinates exampleSimulation exampleDisplacement
         (Some [1]%Z) exampleStore) = None.
Proof.
  apply (proj1 (translateCoordinates_short_control exampleSimulation
                  exampleDisplacement [1]%Z exampleStore)).
  - discriminate.
  - cbn. lia.
Defined.

(** ** The reader: grid, commas and asterisks *)

Section ReaderGrid.
Context {num : Type} {ops : PyNum num} {text : PyNumText num}.
Import PyStr.

(** X9.  On the file that [makeSKF] writes for a parameterization as in
    the round trip (recognized type, eight entries in [cVec], a line 2
    without 20 entries, at least one grid point) the reader takes the
    simple format, reads the grid distance as [float(gridDist)], finds as
    many grid points as were written, the table right after the header
    lines, and so plots over the distances [float(gridDist) * i],
    [i = 0 .. nGridPoints - 1]. *)
Theorem makeSKF_plotSKF_grid (pD : parameterizationDictionary num) :
  type pD = "homonuclear" \/ type pD = "heteronuclear" ->
  length (cVec pD) = 8 ->
  (type pD = "homonuclear" ->
   length (EVec pD ++ [SPE pD] ++ UVec pD ++ fVec pD) <> 20) ->
  1 <= nGridPoints pD ->
  exists t : skfTables num,
    plotSKF_tables (readlines (snd (makeSKF pD))) = Some t /\
    integralTableLineLength t = 20 /\
    read_gridDist t = py_float_of_num (gridDist pD) /\
    firstLineIndex t = length (snd (headerLines pD)) /\
    afterLineIndex t = firstLineIndex t + nGridPoints pD /\
    length (HTable t) = nGridPoints pD /\
    plotSKF_rValues t
    = map (fun i => num_mul (py_float_of_num (gridDist pD))
                      (num_of_Z (Z.of_nat i)))
          (seq 0 (nGridPoints pD)).
Proof.
  intros Hty HcVec Hline2 Hn.
  destruct (lineListList_layout pD Hty)
    as (mid & last & trailer & Hlayout & Hlast & Hhomo & Hhetero).
  assert (Hmid : Forall (fun l : list num => length l <> 20) mid).
  { destruct Hty as [Hty|Hty].
    - rewrite (Hhomo Hty). constructor; [exact (Hline2 Hty) | constructor].
    - rewrite (Hhetero Hty). constructor. }
  assert (Htable : map (tempLine pD) (gridPointsVec pD) <> []).
  { intros E. apply (f_equal length) in E.
    rewrite length_map, length_gridPointsVec in E. cbn in E. lia. }
  assert (Hrows : Forall (fun row : list num => length row = 20)
                    (map (tempLine pD) (gridPointsVec pD))).
  { apply Forall_map, Forall_forall. intros r _. apply length_tempLine. }
  assert (Hheader : length (snd (headerLines pD)) = 2 + length mid).
  { rewrite length_headerLines.
    destruct Hty as [Hty|Hty].
    - rewrite (Hhomo Hty), Hty. reflexivity.
    - rewrite (Hhetero Hty), Hty. reflexivity. }
  rewrite readlines_makeSKF, Hlayout.
  rewrite (plotSKF_tables_written _ _ mid last _ trailer Hmid
             ltac:(lia) Htable Hrows).
  eexists. split; [reflexivity|].
  unfold plotSKF_rValues.
  cbn [integralTableLineLength read_gridDist firstLineIndex afterLineIndex
       HTable].
  rewrite !length_map, length_gridPointsVec, Hheader.
  repeat split; reflexivity.
Qed.

End ReaderGrid.

Lemma makeSKF_plotSKF_grid_witness :
  exists t : skfTables IntNum.t,
    plotSKF_tables
      (PyStr.readlines
         (snd (makeSKF (exampleDictionary "homonuclear"
                          [0; 0; 0; 0; 0; 0; 0; 0]%Z 3)))) = Some t /\
    firstLineIndex t = 3 /\ afterLineIndex t = 6 /\
    plotSKF_rValues t = IntNum.floats [0; 1; 2]%Z.
Proof.
  destruct (makeSKF_plotSKF_grid
              (exampleDictionary "homonuclear" [0; 0; 0; 0; 0; 0; 0; 0]%Z 3))
    as (t & Ht & _ & _ & Hfirst & Hafter & _ & Hr).
  - left. reflexivity.
  - reflexivity.
  - intros _. cbn. lia.
  - cbn. lia.
  - exists t. split; [exact Ht|]. rewrite Hafter, Hfirst, Hr.
    repeat split; reflexivity.
Defined.

Section ReaderCommas.
Context {num : Type} {ops : PyNum num}.
Import PyStr.

Lemma remove_app (c : ascii) (s1 s2 : string) :
  remove c (s1 +:+ s2) = remove c s1 +:+ remove c s2.
Proof.
  induction s1 as [|d s1 IH]; [reflexivity|].
  rewrite string_app_cons. cbn [remove]. rewrite IH.
  destruct (Ascii.eqb d c); reflexivity.
Qed.

Lemma join_cons_sep (sep x y : string) (l : list string) :
  join sep (x :: y :: l) = x +:+ sep +:+ join sep (y :: l).
Proof. reflexivity. Qed.

Lemma remove_join_comma_space (ws : list string) :
  Forall (lacks ",") ws -> remove "," (join ", " ws) = join " " ws.
Proof.
  induction 1 as [|x l Hx Hl IH]; [reflexivity|].
  destruct l as [|y l]; [exact (remove_lacks _ _ Hx)|].
  rewrite !join_cons_sep, !remove_app, IH, (remove_lacks _ _ Hx).
  reflexivity.
Qed.

Lemma remove_join_comma (ws : list string) :
  Forall (lacks ",") ws -> remove "," (join "," ws) = String.concat "" ws.
Proof.
  induction 1 as [|x l Hx Hl IH]; [reflexivity|].
  destruct l as [|y l]; [exact (remove_lacks _ _ Hx)|].
  rewrite join_cons_sep, !remove_app, IH, (remove_lacks _ _ Hx).
  reflexivity.
Qed.

Lemma remove_join_space (ws : list string) :
  Forall (lacks ",") ws -> remove "," (join " " ws) = join " " ws.
Proof.
  intros Hws. apply remove_lacks, lacks_join; [discriminate | exact Hws].
Qed.

(** X10.  The reader deletes the commas of a line; it does not turn them
    into blanks.  So a file whose entries are separated by a comma and a
    blank is read as the file with the blanks alone, whereas entries
    separated by a bare comma are glued into one entry. *)
Theorem plotSKF_tables_commas (linesEntries : list (list string)) :
  Forall (Forall (lacks ",")) linesEntries ->
  plotSKF_tables (map (fun ws => join ", " ws +:+ newline) linesEntries)
  = plotSKF_tables (map (fun ws => join " " ws +:+ newline) linesEntries) /\
  Forall (fun ws =>
            split (remove "," (join "," ws +:+ newline))
            = split (String.concat "" ws)) linesEntries.
Proof.
  intros Hall. split.
  - unfold plotSKF_tables. rewrite !map_map.
    replace (map (fun ws => remove "," (join ", " ws +:+ newline)) linesEntries)
      with (map (fun ws => remove "," (join " " ws +:+ newline)) linesEntries);
      [reflexivity|].
    apply (Forall_fmap_ext_1 (A := list string)). eapply Forall_impl; [exact Hall|].
    intros ws Hws. cbn beta.
    rewrite !remove_app, (remove_join_comma_space ws Hws),
      (remove_join_space ws Hws).
    reflexivity.
  - eapply Forall_impl; [exact Hall|].
    intros ws Hws. cbn beta.
    rewrite remove_app, (remove_join_comma ws Hws).
    change (remove "," newline) with newline. apply split_line.
Qed.

End ReaderCommas.

Lemma plotSKF_tables_commas_witness :
  plotSKF_tables (num := IntNum.t)
    ["0.0, 2" +:+ PyStr.newline; "1.0, 2.0" +:+ PyStr.newline]
  = plotSKF_tables ["0.0 2" +:+ PyStr.newline; "1.0 2.0" +:+ PyStr.newline]
  /\ PyStr.split (PyStr.remove "," ("1.0,2.0" +:+ PyStr.newline)) = ["1.02.0"].
Proof.
  destruct (plotSKF_tables_commas (num := IntNum.t)
              [["0.0"; "2"]; ["1.0"; "2.0"]]) as [Htables Hglued].
  - repeat constructor.
  - split; [exact Htables|].
    apply Forall_cons in Hglued as [_ Hglued].
    apply Forall_cons in Hglued as [H2 _]. exact H2.
Defined.

Section ReaderAsterisks.
Context {num : Type} {ops : PyNum num} {text : PyNumText num}.
Import PyStr.

Lemma py_str_lacks_asterisk (x : num) : lacks "*" (py_str x).
Proof. apply number_text_lacks; [reflexivity | apply py_str_text]. Qed.

Lemma expandEntry_lacks (entry entry' : string) :
  expandEntry entry = Some entry' -> lacks "*" entry'.
Proof.
  unfold expandEntry. destruct (contains "*" entry) eqn:E;
    [|intros [= <-]; exact E].
  destruct (split_on "*" entry !! 1) as [e1|]; [|discriminate].
  cbn [mbind option_bind].
  destruct (py_float e1) as [x|]; [|discriminate]. cbn [mbind option_bind].
  destruct (split_on "*" entry !! 0) as [e0|]; [|discriminate].
  cbn [mbind option_bind].
  destruct (py_float e0) as [f0|]; [|discriminate]. cbn [mbind option_bind].
  destruct (py_int f0) as [timesRep|]; [|discriminate].
  cbn [mbind option_bind]. intros [= <-].
  apply lacks_join; [discriminate|].
  apply Forall_replicate, py_str_lacks_asterisk.
Qed.

(** X11.  After the expansion pass a line has no asterisk left, whatever
    the line was: every entry with an asterisk has been replaced by texts
    of floats.  So the pass changes nothing when run a second time. *)
Theorem expandLine_no_asterisk (line line' : string) :
  expandLine line = Some line' ->
  lacks "*" line' /\ expandLine line' = Some line'.
Proof.
  intros Hline.
  assert (Hlacks : lacks "*" line').
  { unfold expandLine in Hline. destruct (contains "*" line) eqn:E;
      [|injection Hline as <-; exact E].
    destruct (mapM expandEntry (split line)) as [lineSplit|] eqn:Hm;
      [|discriminate].
    cbn [mbind option_bind] in Hline. injection Hline as <-.
    apply lacks_join; [discriminate|].
    apply mapM_Some_1 in Hm.
    induction Hm as [|e e' l l' He _ IH]; constructor;
      [exact (expandEntry_lacks e e' He) | exact IH]. }
  split; [exact Hlacks|].
  unfold expandLine. rewrite Hlacks. reflexivity.
Qed.

End ReaderAsterisks.

Lemma expandLine_no_asterisk_witness :
  expandLine (num := IntNum.t) "12 3*0.0 17" = Some "12 0.0 0.0 0.0 17" /\
  expandLine (num := IntNum.t) "12 0.0 0.0 0.0 17" = Some "12 0.0 0.0 0.0 17".
Proof.
  split; [reflexivity|].
  exact (proj2 (expandLine_no_asterisk (num := IntNum.t) "12 3*0.0 17"
                  "12 0.0 0.0 0.0 17" eq_refl)).
Defined.

Section ReaderAsteriskParts.
Context {num : Type} {ops : PyNum num}.
Import PyStr.

(** X12.  An entry with more than one asterisk is not refused: what
    follows the second asterisk is dropped, and [count*value*rest] is
    expanded as [count*value] is. *)
Theorem expandEntry_extra_parts (count value rest : string) :
  lacks "*" count -> lacks "*" value ->
  expandEntry (count +:+ "*" +:+ value +:+ "*" +:+ rest)
  = expandEntry (count +:+ "*" +:+ value).
Proof.
  intros Hc Hv. unfold expandEntry.
  change ("*" +:+ value +:+ "*" +:+ rest)
    with (String "*" (value +:+ String "*" rest)).
  change ("*" +:+ value) with (String "*" value).
  rewrite !contains_app_char, !(split_on_app _ _ _ Hc).
  rewrite (split_on_app _ _ _ Hv), (split_on_lacks _ _ Hv).
  reflexivity.
Qed.

End ReaderAsteriskParts.

Lemma expandEntry_extra_parts_witness :
  expandEntry (num := IntNum.t) "2*3.0*4.0" = Some "3.0 3.0".
Proof.
  rewrite (expandEntry_extra_parts (num := IntNum.t) "2" "3.0" "4.0");
    reflexivity.
Defined.

(** ** [getCoordinateBounds] *)

Section CoordinateBounds.
Import Coordinates.
Local Open Scope R_scope.

Lemma fold_Rmin_spec (l : list R) (x : R) :
  (forall y, y ∈ x :: l -> fold_left Rmin l x <= y) /\
  fold_left Rmin l x ∈ x :: l.
Proof.
  revert x. induction l as [|z l IH]; intros x; cbn [fold_left].
  - split; [|left]. intros y Hy. apply list_elem_of_singleton in Hy. lra.
  - destruct (IH (Rmin x z)) as [Hle Hin]. split.
    + intros y Hy.
      assert (Hm : fold_left Rmin l (Rmin x z) <= Rmin x z) by (apply Hle; left).
      apply elem_of_cons in Hy as [->|Hy].
      * pose proof (Rmin_l x z). lra.
      * apply elem_of_cons in Hy as [->|Hy].
        -- pose proof (Rmin_r x z). lra.
        -- apply Hle. right. exact Hy.
    + apply elem_of_cons in Hin as [->|Hin].
      * apply (Rmin_case x z (fun m => m ∈ x :: z :: l));
          [left | right; left].
      * right. right. exact Hin.
Qed.

Lemma fold_Rmax_spec (l : list R) (x : R) :
  (forall y, y ∈ x :: l -> y <= fold_left Rmax l x) /\
  fold_left Rmax l x ∈ x :: l.
Proof.
  revert x. induction l as [|z l IH]; intros x; cbn [fold_left].
  - split; [|left]. intros y Hy. apply list_elem_of_singleton in Hy. lra.
  - destruct (IH (Rmax x z)) as [Hle Hin]. split.
    + intros y Hy.
      assert (Hm : Rmax x z <= fold_left Rmax l (Rmax x z)) by (apply Hle; left).
      apply elem_of_cons in Hy as [->|Hy].
      * pose proof (Rmax_l x z). lra.
      * apply elem_of_cons in Hy as [->|Hy].
        -- pose proof (Rmax_r x z). lra.
        -- apply Hle. right. exact Hy.
    + apply elem_of_cons in Hin as [->|Hin].
      * apply (Rmax_case x z (fun m => m ∈ x :: z :: l));
          [left | right; left].
      * right. right. exact Hin.
Qed.

Lemma ndarray_min_spec (q : array2) (m : R) :
  ndarray_min q = Some m ->
  (forall y, y ∈ concat (rows q) -> m <= y) /\ m ∈ concat (rows q).
Proof.
  unfold ndarray_min. destruct (concat (rows q)) as [|x l]; [discriminate|].
  intros [= <-]. apply fold_Rmin_spec.
Qed.

Lemma ndarray_max_spec (q : array2) (m : R) :
  ndarray_max q = Some m ->
  (forall y, y ∈ concat (rows q) -> y <= m) /\ m ∈ concat (rows q).
Proof.
  unfold ndarray_max. destruct (concat (rows q)) as [|x l]; [discriminate|].
  intros [= <-]. apply fold_Rmax_spec.
Qed.

Lemma boundsLoop_spec (arrays : list loc) (s : gmap loc array2) (i_q : nat)
    (lo0 hi0 : R) (r : option (R * R)) :
  i_q <> 0%nat ->
  boundsLoop arrays s i_q (Some (lo0, hi0)) = Some r ->
  exists lo hi,
    r = Some (lo, hi) /\ lo <= lo0 /\ hi0 <= hi /\
    (forall x, coordinate_of arrays s x -> lo <= x <= hi) /\
    (lo = lo0 \/ coordinate_of arrays s lo) /\
    (hi = hi0 \/ coordinate_of arrays s hi).
Proof.
  revert i_q lo0 hi0. induction arrays as [|l arrays IH]; intros i_q lo0 hi0 Hi.
  - intros [= <-]. exists lo0, hi0. split; [reflexivity|].
    split; [lra|]. split; [lra|].
    split; [|split; left; reflexivity].
    intros x (l & q & Hl & _). apply elem_of_nil in Hl. contradiction.
  - cbn [boundsLoop]. destruct (s !! l) as [q|] eqn:Hq; [|discriminate].
    cbn [mbind option_bind].
    destruct (ndarray_min q) as [qMin|] eqn:Hmin; [|discriminate].
    cbn [mbind option_bind].
    destruct (ndarray_max q) as [qMax|] eqn:Hmax; [|discriminate].
    cbn [mbind option_bind].
    destruct (Nat.eqb_spec i_q 0) as [|_]; [contradiction|].
    cbn [mbind option_bind].
    destruct (ndarray_min_spec q qMin Hmin) as [Hminle Hminin].
    destruct (ndarray_max_spec q qMax Hmax) as [Hmaxle Hmaxin].
    intros Hrest.
    destruct (IH (S i_q) _ _ ltac:(lia) Hrest)
      as (lo & hi & -> & Hlo & Hhi & Hall & Hloin & Hhiin).
    assert (Hmono : forall x, coordinate_of arrays s x ->
                      coordinate_of (l :: arrays) s x).
    { intros x (l' & q' & Hl' & Hq' & Hx). exists l', q'.
      split; [right; exact Hl' | split; assumption]. }
    assert (Hhere : forall x, x ∈ concat (rows q) ->
                      coordinate_of (l :: arrays) s x).
    { intros x Hx. exists l, q. split; [left | split; assumption]. }
    exists lo, hi. split; [reflexivity|].
    unfold Rltb, Rgtb in *.
    destruct (Rlt_dec qMin lo0) as [Hlt|Hge], (Rgt_dec qMax hi0) as [Hgt|Hle];
      (split; [lra|]); (split; [lra|]);
      (split;
       [intros x (l' & q' & Hl' & Hq' & Hx);
        apply elem_of_cons in Hl' as [->|Hl'];
        [rewrite Hq in Hq'; injection Hq' as <-;
         pose proof (Hminle x Hx); pose proof (Hmaxle x Hx); lra
        |apply Hall; exists l', q'; split; [exact Hl' | split; assumption]]|]);
      (split;
       [destruct Hloin as [->|Hloin];
        [first [left; reflexivity | right; exact (Hhere _ Hminin)]
        |right; exact (Hmono _ Hloin)]
       |destruct Hhiin as [->|Hhiin];
        [first [left; reflexivity | right; exact (Hhere _ Hmaxin)]
        |right; exact (Hmono _ Hhiin)]]).
Qed.

(** X13.  When [getCoordinateBounds] returns [[lo, hi]], every coordinate
    of every array of the dictionary lies between [lo] and [hi], and [lo]
    and [hi] are themselves coordinates: they are the least and the
    greatest coordinate of the assembly. *)
Theorem getCoordinateBounds_bounds (qD : qDictionary) (s : gmap loc array2)
    (lo hi : R) :
  getCoordinateBounds qD s = Some (lo, hi) ->
  (forall l q x,
     l ∈ qs qD -> s !! l = Some q -> x ∈ concat (rows q) -> lo <= x <= hi) /\
  (exists l q, l ∈ qs qD /\ s !! l = Some q /\ lo ∈ concat (rows q)) /\
  (exists l q, l ∈ qs qD /\ s !! l = Some q /\ hi ∈ concat (rows q)).
Proof.
  unfold getCoordinateBounds.
  destruct (qs qD) as [|l arrays]; [discriminate|].
  cbn [boundsLoop]. destruct (s !! l) as [q|] eqn:Hq; [|discriminate].
  cbn [mbind option_bind].
  destruct (ndarray_min q) as [qMin|] eqn:Hmin; [|discriminate].
  cbn [mbind option_bind].
  destruct (ndarray_max q) as [qMax|] eqn:Hmax; [|discriminate].
  cbn [mbind option_bind Nat.eqb].
  destruct (boundsLoop arrays s 1 (Some (qMin, qMax))) as [r|] eqn:Hrest;
    [|discriminate].
  cbn [mbind option_bind]. intros ->.
  destruct (ndarray_min_spec q qMin Hmin) as [Hminle Hminin].
  destruct (ndarray_max_spec q qMax Hmax) as [Hmaxle Hmaxin].
  destruct (boundsLoop_spec arrays s 1 qMin qMax _ ltac:(lia) Hrest)
    as (lo' & hi' & [= <- <-] & Hlo & Hhi & Hall & Hloin & Hhiin).
  split; [|split].
  - intros l' q' x Hl' Hq' Hx. apply elem_of_cons in Hl' as [->|Hl'].
    + rewrite Hq in Hq'. injection Hq' as <-.
      pose proof (Hminle x Hx). pose proof (Hmaxle x Hx). lra.
    + apply Hall. exists l', q'. split; [exact Hl' | split; assumption].
  - destruct Hloin as [->|(l' & q' & Hl' & Hq' & Hx)].
    + exists l, q. split; [left | split; assumption].
    + exists l', q'. split; [right; exact Hl' | split; assumption].
  - destruct Hhiin as [->|(l' & q' & Hl' & Hq' & Hx)].
    + exists l, q. split; [left | split; assumption].
    + exists l', q'. split; [right; exact Hl' | split; assumption].
Qed.

End CoordinateBounds.

Section CoordinateBoundsErrors.
Import Coordinates.
Local Open Scope R_scope.

Lemma ndarray_max_min (q : array2) :
  is_Some (ndarray_min q) <-> is_Some (ndarray_max q).
Proof.
  unfold ndarray_min, ndarray_max.
  destruct (concat (rows q)); split; intros [m Hm];
    first [discriminate Hm | eexists; reflexivity].
Qed.

Lemma ndarray_min_None (q : array2) :
  ndarray_min q = None <-> concat (rows q) = [].
Proof.
  unfold ndarray_min. destruct (concat (rows q)); split;
    first [reflexivity | discriminate].
Qed.

Lemma boundsLoop_bound (arrays : list loc) (s : gmap loc array2)
    (i_q : nat) (running : R * R) :
  i_q <> 0%nat -> boundsLoop arrays s i_q (Some running) <> Some None.
Proof.
  revert i_q running. induction arrays as [|l arrays IH];
    intros i_q running Hi; [discriminate|].
  cbn [boundsLoop]. destruct (s !! l) as [q|]; [|discriminate].
  cbn [mbind option_bind].
  destruct (ndarray_min q); [|discriminate]. cbn [mbind option_bind].
  destruct (ndarray_max q); [|discriminate]. cbn [mbind option_bind].
  destruct (Nat.eqb_spec i_q 0) as [|_]; [contradiction|].
  destruct running as [runningMin runningMax]. cbn [mbind option_bind].
  apply IH. lia.
Qed.

Lemma boundsLoop_None_inv (arrays : list loc) (s : gmap loc array2)
    (i_q : nat) (running : R * R) :
  i_q <> 0%nat ->
  Forall (fun l => is_Some (s !! l)) arrays ->
  boundsLoop arrays s i_q (Some running) = None ->
  exists l q, l ∈ arrays /\ s !! l = Some q /\ concat (rows q) = [].
Proof.
  intros Hi Hall. revert i_q running Hi.
  induction Hall as [|l arrays [q Hq] _ IH]; intros i_q running Hi;
    [discriminate|].
  cbn [boundsLoop]. rewrite Hq. cbn [mbind option_bind].
  destruct (ndarray_min q) as [qMin|] eqn:Hmin.
  - destruct (proj1 (ndarray_max_min q) (mk_is_Some _ _ Hmin)) as [qMax Hmax].
    rewrite Hmax. cbn [mbind option_bind].
    destruct (Nat.eqb_spec i_q 0) as [|_]; [contradiction|].
    destruct running as [runningMin runningMax]. cbn [mbind option_bind].
    intros Hrest.
    destruct (IH (S i_q) _ ltac:(lia) Hrest) as (l' & q' & Hl' & Hq' & Hnil).
    exists l', q'. split; [right; exact Hl' | split; assumption].
  - intros _. apply ndarray_min_None in Hmin.
    exists l, q. split; [left | split; assumption].
Qed.

Lemma boundsLoop_None (arrays : list loc) (s : gmap loc array2) (i_q : nat)
    (running : option (R * R)) :
  Exists (fun l => forall q, s !! l = Some q -> concat (rows q) = []) arrays ->
  boundsLoop arrays s i_q running = None.
Proof.
  intros Hex. revert i_q running.
  induction Hex as [l arrays Hl|l arrays _ IH]; intros i_q running;
    cbn [boundsLoop]; (destruct (s !! l) as [q|] eqn:Hq; [|reflexivity]);
    cbn [mbind option_bind].
  - rewrite (proj2 (ndarray_min_None q) (Hl q eq_refl)). reflexivity.
  - destruct (ndarray_min q); [|reflexivity]. cbn [mbind option_bind].
    destruct (ndarray_max q); [|reflexivity]. cbn [mbind option_bind].
    destruct (i_q =? 0)%nat; [apply IH|].
    destruct running as [[? ?]|]; [|reflexivity]. cbn [mbind option_bind].
    apply IH.
Qed.

(** X14.  [getCoordinateBounds] raises exactly when the dictionary has no
    array or one of its arrays has no entry; otherwise it returns a pair
    of bounds.  (The arrays of the dictionary are taken to exist.) *)
Theorem getCoordinateBounds_raises (qD : qDictionary) (s : gmap loc array2) :
  Forall (fun l => is_Some (s !! l)) (qs qD) ->
  (getCoordinateBounds qD s = None <->
   qs qD = [] \/
   exists l q, l ∈ qs qD /\ s !! l = Some q /\ concat (rows q) = []).
Proof.
  intros Hin. split.
  - unfold getCoordinateBounds.
    destruct (qs qD) as [|l0 arrays]; [intros _; left; reflexivity|].
    apply Forall_cons in Hin as [[q Hq] Hin].
    cbn [boundsLoop]. rewrite Hq. cbn [mbind option_bind].
    destruct (ndarray_min q) as [qMin|] eqn:Hmin.
    + destruct (proj1 (ndarray_max_min q) (mk_is_Some _ _ Hmin)) as [qMax Hmax].
      rewrite Hmax. cbn [mbind option_bind Nat.eqb].
      destruct (boundsLoop arrays s 1 (Some (qMin, qMax))) as [[r|]|] eqn:Hrest.
      * discriminate.
      * exfalso. exact (boundsLoop_bound arrays s 1 _ ltac:(lia) Hrest).
      * intros _. right.
        destruct (boundsLoop_None_inv arrays s 1 _ ltac:(lia) Hin Hrest)
          as (l' & q' & Hl' & Hq' & Hnil).
        exists l', q'. split; [right; exact Hl' | split; assumption].
    + intros _. right. apply ndarray_min_None in Hmin.
      exists l0, q. split; [left | split; assumption].
  - intros [Hempty|(l & q & Hl & Hq & Hnil)]; unfold getCoordinateBounds.
    + rewrite Hempty. reflexivity.
    + rewrite (boundsLoop_None (qs qD) s 0 None); [reflexivity|].
      apply Exists_exists. exists l. split; [exact Hl|].
      intros q' Hq'. rewrite Hq in Hq'. injection Hq' as <-. exact Hnil.
Qed.

End CoordinateBoundsErrors.

(** ** [returnToBox] *)

Section ReturnToBoxFacts.
Import Coordinates.
Local Open Scope R_scope.

Lemma boxSizeLoop_length (vectors : list (list R)) (iVector : nat)
    (b b' : list R) :
  boxSizeLoop vectors iVector b = Some b' -> length b' = length b.
Proof.
  revert iVector b. induction vectors as [|v vectors IH]; intros k b.
  - intros [= <-]. reflexivity.
  - cbn [boxSizeLoop]. destruct (v !! k) as [x|]; [|discriminate].
    cbn [mbind option_bind]. destruct (k <? length b)%nat; [|discriminate].
    intros Hb. rewrite (IH _ _ Hb). apply length_insert.
Qed.

Lemma boxSizeLoop_overflow (vectors : list (list R)) (iVector : nat)
    (b : list R) :
  (iVector <= length b < iVector + length vectors)%nat ->
  boxSizeLoop vectors iVector b = None.
Proof.
  revert iVector b. induction vectors as [|v vectors IH]; intros k b Hlen.
  - cbn [length] in Hlen. lia.
  - cbn [boxSizeLoop length] in *. destruct (v !! k) as [x|]; [|reflexivity].
    cbn [mbind option_bind].
    destruct (Nat.ltb_spec k (length b)) as [Hk|_]; [|reflexivity].
    apply IH. rewrite length_insert. lia.
Qed.

(** One turn of the loop over the dimensions, on a row whose first [k]
    coordinates are done. *)
Lemma alter_inbound (bsv row : list R) (k : nat) (boxSize : R) :
  bsv !! k = Some boxSize -> (k < length row)%nat ->
  alter (inboundCoordinate boxSize) k
    (zip_with inboundCoordinate (take k bsv) (take k row) ++ drop k row)
  = zip_with inboundCoordinate (take (S k) bsv) (take (S k) row)
    ++ drop (S k) row.
Proof.
  intros Hb Hk.
  destruct (lookup_lt_is_Some_2 row k Hk) as [x Hx].
  pose proof (lookup_lt_Some _ _ _ Hb) as Hkb.
  assert (Hlen : length (take k bsv) = length (take k row))
    by (rewrite !length_take; lia).
  rewrite (take_S_r _ _ _ Hb), (take_S_r _ _ _ Hx), (drop_S _ _ _ Hx).
  rewrite (zip_with_app _ _ _ _ _ Hlen). cbn [zip_with].
  rewrite <- app_assoc. cbn [app].
  rewrite alter_app_r_alt
    by (rewrite (length_zip_with_l_eq _ _ _ Hlen), length_take; lia).
  rewrite (length_zip_with_l_eq _ _ _ Hlen), length_take.
  replace (k - k `min` length bsv)%nat with 0%nat by lia. reflexivity.
Qed.

Lemma dimensionLoop_partial (bsv : list R) (w : nat) (rows0 : list (list R))
    (n k : nat) :
  (k + n = w)%nat -> (w <= length bsv)%nat ->
  Forall (fun row => length row = w) rows0 ->
  dimensionLoop bsv (seq k n)
    (map (fun row =>
            zip_with inboundCoordinate (take k bsv) (take k row) ++ drop k row)
       rows0)
  = (map (fun row =>
            zip_with inboundCoordinate (take w bsv) (take w row) ++ drop w row)
       rows0, true).
Proof.
  intros Hkn Hw Hrows. revert k Hkn. induction n as [|n IH]; intros k Hkn.
  - cbn [seq dimensionLoop]. replace k with w by lia. reflexivity.
  - cbn [seq dimensionLoop].
    destruct (lookup_lt_is_Some_2 bsv k ltac:(lia)) as [boxSize Hb].
    rewrite Hb, map_map. rewrite <- (IH (S k)) by lia. f_equal.
    apply Forall_fmap_ext_1. eapply Forall_impl; [exact Hrows|].
    intros row Hrow. cbn beta in *. apply (alter_inbound _ _ _ _ Hb). lia.
Qed.

Lemma dimensionLoop_rows (bsv : list R) (q : array2) :
  (shape1 q <= length bsv)%nat ->
  Forall (fun row => length row = shape1 q) (rows q) ->
  dimensionLoop bsv (seq 0 (shape1 q)) (rows q)
  = (map (inboundRow bsv) (rows q), true).
Proof.
  intros Hw Hrows.
  pose proof (dimensionLoop_partial bsv (shape1 q) (rows q) (shape1 q) 0
                eq_refl Hw Hrows) as Hloop.
  cbn [take drop zip_with app] in Hloop.
  change (map (fun row : list R => row) (rows q)) with (id <$> rows q) in Hloop.
  rewrite list_fmap_id in Hloop. rewrite Hloop. f_equal.
  apply Forall_fmap_ext_1. eapply Forall_impl; [exact Hrows|].
  intros row Hrow. cbn beta in *. unfold inboundRow.
  rewrite (take_ge row) by lia. rewrite (drop_ge row) by lia.
  rewrite app_nil_r, <- Hrow. apply zip_with_take_l.
Qed.

(** The loop over the arrays, when they are distinct objects. *)
Lemma atomLoop_spec (bsv : list R) (arrays : list loc) (s : gmap loc array2) :
  NoDup arrays ->
  Forall (fun l => exists q,
            s !! l = Some q /\ (shape1 q <= length bsv)%nat /\
            Forall (fun row => length row = shape1 q) (rows q)) arrays ->
  exists s',
    atomLoop bsv arrays s = (s', true) /\
    (forall l, l ∉ arrays -> s' !! l = s !! l) /\
    (forall l q, l ∈ arrays -> s !! l = Some q ->
       s' !! l = Some (mkArray2 (shape1 q) (map (inboundRow bsv) (rows q)))).
Proof.
  intros Hnodup Hall. revert s Hall.
  induction Hnodup as [|l arrays Hl Hnodup IH]; intros s Hall.
  - exists s. split; [reflexivity|]. split; [reflexivity|].
    intros l q Hl. apply elem_of_nil in Hl. contradiction.
  - apply Forall_cons in Hall as [(q & Hq & Hw & Hrows) Hall].
    cbn [atomLoop]. rewrite Hq, (dimensionLoop_rows bsv q Hw Hrows).
    set (s1 := <[l := mkArray2 (shape1 q) (map (inboundRow bsv) (rows q))]> s).
    destruct (IH s1) as (s' & Hloop & Hframe & Hresult).
    { rewrite Forall_forall in Hall. apply Forall_forall. intros l' Hl'.
      destruct (Hall l' Hl') as (q' & Hq' & H').
      exists q'. split; [|exact H'].
      unfold s1. rewrite lookup_insert_ne; [exact Hq'|].
      intros <-. contradiction. }
    exists s'. split; [exact Hloop|]. split.
    + intros l' Hl'. apply not_elem_of_cons in Hl' as [Hne Hl'].
      rewrite (Hframe l' Hl'). unfold s1.
      rewrite lookup_insert_ne by congruence. reflexivity.
    + intros l' q' Hl' Hq'. apply elem_of_cons in Hl' as [->|Hl'].
      * rewrite (Hframe l Hl). unfold s1. rewrite lookup_insert_eq.
        rewrite Hq in Hq'. injection Hq' as <-. reflexivity.
      * apply Hresult; [exact Hl'|]. unfold s1.
        rewrite lookup_insert_ne; [exact Hq'|]. intros <-. contradiction.
Qed.

Lemma inboundCoordinate_near (boxSize x : R) :
  0 < boxSize -> - boxSize - tol <= x < 2 * boxSize ->
  - tol <= inboundCoordinate boxSize x < boxSize.
Proof.
  unfold inboundCoordinate, Rltb, Porezag.Rgeb, mask, tol.
  intros HL Hx.
  destruct (Rlt_dec x (0 - 1 / 1000)), (Rge_dec x boxSize); lra.
Qed.

Lemma inboundCoordinate_in_box (boxSize x : R) :
  - tol <= x < boxSize -> inboundCoordinate boxSize x = x.
Proof.
  unfold inboundCoordinate, Rltb, Porezag.Rgeb, mask, tol.
  intros Hx.
  destruct (Rlt_dec x (0 - 1 / 1000)), (Rge_dec x boxSize); lra.
Qed.

Lemma zip_inbound (b row : list R) :
  Forall2 (fun boxSize x => 0 < boxSize /\ - boxSize - tol <= x < 2 * boxSize)
    b row ->
  Forall2 (fun boxSize x => - tol <= x < boxSize) b
    (zip_with inboundCoordinate b row) /\
  zip_with inboundCoordinate b (zip_with inboundCoordinate b row)
  = zip_with inboundCoordinate b row.
Proof.
  induction 1 as [|L x b r [HL Hx] _ [IH1 IH2]]; [split; [constructor | reflexivity]|].
  cbn [zip_with]. split.
  - constructor; [|exact IH1]. apply inboundCoordinate_near; assumption.
  - rewrite IH2. f_equal.
    apply inboundCoordinate_in_box, inboundCoordinate_near; assumption.
Qed.

Lemma inboundRow_near (bsv row : list R) :
  near_box bsv row ->
  in_box bsv (inboundRow bsv row) /\
  length (inboundRow bsv row) = length row /\
  inboundRow bsv (inboundRow bsv row) = inboundRow bsv row.
Proof.
  unfold near_box, in_box, inboundRow. intros Hnear.
  pose proof (Forall2_length _ _ _ Hnear) as Hlen.
  assert (Hlen' : length (zip_with inboundCoordinate bsv row) = length row).
  { rewrite <- (zip_with_take_l _ bsv row).
    apply length_zip_with_r_eq. symmetry. exact Hlen. }
  destruct (zip_inbound _ _ Hnear) as [Hin Hidem].
  split; [|split; [exact Hlen'|]].
  - rewrite Hlen', <- (zip_with_take_l _ bsv row). exact Hin.
  - rewrite <- (zip_with_take_l _ bsv (zip_with _ _ _)), Hlen'.
    rewrite <- (zip_with_take_l _ bsv row). exact Hidem.
Qed.

End ReturnToBoxFacts.

Section ReturnToBox.
Import Coordinates.
Local Open Scope R_scope.

(** The box sizes are the diagonal elements of the box vectors, and [0]
    for a dimension without box vector. *)
Lemma boxSizeLoop_diagonal (vectors : list (list R)) (k : nat)
    (b b' : list R) :
  boxSizeLoop vectors k b = Some b' ->
  (forall i v, vectors !! i = Some v -> b' !! (k + i)%nat = v !! (k + i)%nat) /\
  (forall j, (j < k \/ k + length vectors <= j)%nat -> b' !! j = b !! j).
Proof.
  revert k b. induction vectors as [|v vectors IH]; intros k b.
  - intros [= <-]. split; [intros i v' Hi; discriminate Hi | reflexivity].
  - cbn [boxSizeLoop]. destruct (v !! k) as [x|] eqn:Hx; [|discriminate].
    cbn [mbind option_bind].
    destruct (Nat.ltb_spec k (length b)) as [Hk|_]; [|discriminate].
    intros Hb. destruct (IH _ _ Hb) as [Hdiag Hother]. split.
    + intros [|i] v' Hi.
      * injection Hi as <-. rewrite Nat.add_0_r, Hother by lia.
        rewrite list_lookup_insert_eq by exact Hk. symmetry. exact Hx.
      * replace (k + S i)%nat with (S k + i)%nat by lia.
        apply Hdiag. exact Hi.
    + intros j Hj. cbn [length] in Hj. rewrite Hother by lia.
      apply list_lookup_insert_ne. lia.
Qed.

Lemma returnToBox_rows (qD : qDictionary) (s : gmap loc array2)
    (bsv : list R) :
  well_formed qD s ->
  boxSizeLoop (boxVectors qD) 0 [0; 0; 0] = Some bsv ->
  exists s',
    returnToBox qD s = (s', true) /\
    (forall l, l ∉ qs qD -> s' !! l = s !! l) /\
    (forall l q, l ∈ qs qD -> s !! l = Some q ->
       s' !! l = Some (mkArray2 (shape1 q) (map (inboundRow bsv) (rows q)))).
Proof.
  intros [Hnodup Hall] Hbox. unfold returnToBox. rewrite Hbox.
  apply atomLoop_spec; [exact Hnodup|].
  eapply Forall_impl; [exact Hall|].
  intros l (q & Hq & Hw & Hrows). exists q. split; [exact Hq|].
  split; [|exact Hrows]. rewrite (boxSizeLoop_length _ _ _ _ Hbox). exact Hw.
Qed.

(** X15.  On a dictionary of distinct arrays of at most three columns,
    with at most three box vectors that have their diagonal element,
    [returnToBox] ends without exception, writes to the arrays of the
    dictionary only and moves every coordinate by one box length at most,
    the box length of a dimension being the diagonal element of its box
    vector: a coordinate [x] below [-tol] becomes [x + L], a coordinate
    at or above [L] becomes [x - L], any other stays.  So an atom more
    than one box length outside the box is still outside afterwards. *)
Theorem returnToBox_one_box_length (qD : qDictionary) (s : gmap loc array2)
    (bsv : list R) :
  well_formed qD s ->
  boxSizeLoop (boxVectors qD) 0 [0; 0; 0] = Some bsv ->
  exists s',
    returnToBox qD s = (s', true) /\
    (forall i v, boxVectors qD !! i = Some v -> bsv !! i = v !! i) /\
    (forall l, l ∉ qs qD -> s' !! l = s !! l) /\
    (forall l q, l ∈ qs qD -> s !! l = Some q ->
       exists q',
         s' !! l = Some q' /\ shape1 q' = shape1 q /\
         length (rows q') = length (rows q) /\
         forall i j row x L,
           rows q !! i = Some row -> row !! j = Some x -> bsv !! j = Some L ->
           0 < L ->
           exists row',
             rows q' !! i = Some row' /\
             row' !! j = Some (if Rlt_dec x (- tol) then x + L
                               else if Rge_dec x L then x - L else x)).
Proof.
  intros Hwf Hbox.
  destruct (returnToBox_rows qD s bsv Hwf Hbox) as (s' & Hcall & Hframe & Hrows).
  exists s'. split; [exact Hcall|]. split.
  { intros i v Hi.
    exact (proj1 (boxSizeLoop_diagonal _ _ _ _ Hbox) i v Hi). }
  split; [exact Hframe|].
  intros l q Hl Hq. eexists. split; [exact (Hrows l q Hl Hq)|].
  cbn [shape1 rows]. split; [reflexivity|]. split; [apply length_map|].
  intros i j row x L Hrow Hx HL Hpos.
  exists (inboundRow bsv row). split.
  - change (map ?f ?l) with (f <$> l). rewrite list_lookup_fmap, Hrow.
    reflexivity.
  - unfold inboundRow. rewrite lookup_zip_with, HL, Hx.
    cbn [mbind option_bind]. f_equal.
    unfold inboundCoordinate, Rltb, Porezag.Rgeb, mask, tol.
    destruct (Rlt_dec x (0 - 1 / 1000)), (Rlt_dec x (- (1 / 1000))),
      (Rge_dec x L); lra.
Qed.

(** X16.  When moreover every coordinate is within one box length of the
    box (between [-L - tol] and [2L], for box lengths [L > 0]), every
    coordinate is in the box afterwards, between [-tol] and [L], and a
    second call changes nothing. *)
Theorem returnToBox_in_box (qD : qDictionary) (s : gmap loc array2)
    (bsv : list R) :
  well_formed qD s ->
  boxSizeLoop (boxVectors qD) 0 [0; 0; 0] = Some bsv ->
  (forall l q, l ∈ qs qD -> s !! l = Some q -> Forall (near_box bsv) (rows q)) ->
  exists s',
    returnToBox qD s = (s', true) /\
    (forall l q', l ∈ qs qD -> s' !! l = Some q' ->
       Forall (in_box bsv) (rows q')) /\
    returnToBox qD s' = (s', true).
Proof.
  intros Hwf Hbox Hnear.
  destruct (returnToBox_rows qD s bsv Hwf Hbox) as (s' & Hcall & Hframe & Hrows).
  exists s'. split; [exact Hcall|].
  assert (Hin : forall l, l ∈ qs qD -> exists q,
            s !! l = Some q /\ (shape1 q <= 3)%nat /\
            Forall (fun row => length row = shape1 q) (rows q)).
  { destruct Hwf as [_ Hall]. rewrite Forall_forall in Hall. exact Hall. }
  split.
  - intros l q' Hl Hq'. destruct (Hin l Hl) as (q & Hq & _).
    rewrite (Hrows l q Hl Hq) in Hq'. injection Hq' as <-. cbn [rows].
    apply Forall_map. eapply Forall_impl; [exact (Hnear l q Hl Hq)|].
    intros row Hrow. exact (proj1 (inboundRow_near bsv row Hrow)).
  - assert (Hwf' : well_formed qD s').
    { split; [exact (proj1 Hwf)|]. apply Forall_forall. intros l Hl.
      destruct (Hin l Hl) as (q & Hq & Hw & Hlen).
      eexists. split; [exact (Hrows l q Hl Hq)|]. cbn [shape1 rows].
      split; [exact Hw|]. apply Forall_map.
      pose proof (Hnear l q Hl Hq) as Hn. rewrite Forall_forall in Hlen, Hn.
      apply Forall_forall. intros row Hrow. cbn beta.
      rewrite (proj1 (proj2 (inboundRow_near bsv row (Hn row Hrow)))).
      exact (Hlen row Hrow). }
    destruct (returnToBox_rows qD s' bsv Hwf' Hbox)
      as (s'' & Hcall' & Hframe' & Hrows').
    rewrite Hcall'. f_equal. apply map_eq. intros l.
    destruct (decide (l ∈ qs qD)) as [Hl|Hl]; [|exact (Hframe' l Hl)].
    destruct (Hin l Hl) as (q & Hq & _).
    rewrite (Hrows' l _ Hl (Hrows l q Hl Hq)), (Hrows l q Hl Hq).
    cbn [shape1 rows]. do 2 f_equal. rewrite map_map.
    apply Forall_fmap_ext_1. eapply Forall_impl; [exact (Hnear l q Hl Hq)|].
    intros row Hrow. exact (proj2 (proj2 (inboundRow_near bsv row Hrow))).
Qed.

Lemma dimensionLoop_overflow (bsv : list R) (dimensions : list nat)
    (cur : list (list R)) :
  Exists (fun i => (length bsv <= i)%nat) dimensions ->
  snd (dimensionLoop bsv dimensions cur) = false.
Proof.
  intros Hex. revert cur.
  induction Hex as [i dims Hi|i dims _ IH]; intros cur; cbn [dimensionLoop].
  - rewrite (proj2 (lookup_ge_None bsv i) Hi). reflexivity.
  - destruct (bsv !! i); [apply IH | reflexivity].
Qed.

Lemma atomLoop_overflow (bsv : list R) (arrays : list loc)
    (s : gmap loc array2) (l : loc) (q : array2) :
  l ∈ arrays -> s !! l = Some q -> (length bsv < shape1 q)%nat ->
  snd (atomLoop bsv arrays s) = false.
Proof.
  intros Hl. revert s q. induction Hl as [l arrays|l l0 arrays _ IH];
    intros s q Hq Hw; cbn [atomLoop].
  - rewrite Hq.
    pose proof (dimensionLoop_overflow bsv (seq 0 (shape1 q)) (rows q)) as Hd.
    destruct (dimensionLoop _ _ _) as [rows' ok]. cbn [snd] in Hd.
    rewrite Hd; [reflexivity|].
    apply Exists_exists. exists (length bsv). split; [|lia].
    apply elem_of_seq. lia.
  - destruct (s !! l0) as [q0|] eqn:Hq0; [|reflexivity].
    destruct (dimensionLoop _ _ _) as [rows' ok].
    destruct ok; [|reflexivity].
    destruct (decide (l = l0)) as [->|Hne].
    + apply (IH _ (mkArray2 (shape1 q0) rows')).
      * apply lookup_insert_eq.
      * cbn [shape1]. rewrite Hq0 in Hq. injection Hq as <-. exact Hw.
    + apply (IH _ q); [|exact Hw].
      rewrite lookup_insert_ne by congruence. exact Hq.
Qed.

(** X17.  [returnToBox] has room for three dimensions: with more than
    three box vectors it raises before it writes to any array, and with
    an array of more than three columns it raises as well (after the
    arrays before that one, and the first columns of that one, have been
    rewritten). *)
Theorem returnToBox_raises (qD : qDictionary) (s : gmap loc array2) :
  ((3 < length (boxVectors qD))%nat -> returnToBox qD s = (s, false)) /\
  (forall l q, l ∈ qs qD -> s !! l = Some q -> (3 < shape1 q)%nat ->
     snd (returnToBox qD s) = false).
Proof.
  unfold returnToBox. split.
  - intros Hlen. rewrite boxSizeLoop_overflow; [reflexivity|].
    cbn [length]. lia.
  - intros l q Hl Hq Hw.
    destruct (boxSizeLoop _ _ _) as [bsv|] eqn:Hbox; [|reflexivity].
    apply (atomLoop_overflow bsv _ s l q Hl Hq).
    rewrite (boxSizeLoop_length _ _ _ _ Hbox). exact Hw.
Qed.

End ReturnToBox.

Section CoordinateExamples.
Import Coordinates.
Local Open Scope R_scope.

Lemma exampleBox_bounds :
  getCoordinateBounds exampleBox exampleBoxStore = Some (-1, 12).
Proof.
  unfold getCoordinateBounds, exampleBox, exampleBoxStore.
  cbn [qs boundsLoop]. rewrite lookup_singleton_eq.
  cbn [mbind option_bind]. unfold ndarray_min, ndarray_max.
  cbn [rows concat app fold_left mbind option_bind Nat.eqb].
  repeat match goal with
         | |- context [Rmin (IZR ?a) (IZR ?b)] =>
             first [rewrite (Rmin_left (IZR a) (IZR b)) by lra
                   |rewrite (Rmin_right (IZR a) (IZR b)) by lra]
         | |- context [Rmax (IZR ?a) (IZR ?b)] =>
             first [rewrite (Rmax_left (IZR a) (IZR b)) by lra
                   |rewrite (Rmax_right (IZR a) (IZR b)) by lra]
         end.
  reflexivity.
Qed.

Lemma exampleBox_well_formed : well_formed exampleBox exampleBoxStore.
Proof.
  split; [repeat constructor; apply not_elem_of_nil|].
  repeat constructor. eexists. split; [apply lookup_singleton_eq|].
  cbn. split; [lia | repeat constructor].
Qed.

Lemma exampleBox_sizes :
  boxSizeLoop (boxVectors exampleBox) 0 [0; 0; 0] = Some [10; 10; 10].
Proof. reflexivity. Qed.

End CoordinateExamples.

Lemma getCoordinateBounds_bounds_witness :
  Coordinates.getCoordinateBounds exampleBox exampleBoxStore
  = Some ((-1)%R, 12%R) /\
  exists l q,
    l ∈ Coordinates.qs exampleBox /\ exampleBoxStore !! l = Some q /\
    12%R ∈ concat (Coordinates.rows q).
Proof.
  split; [exact exampleBox_bounds|].
  exact (proj2 (proj2 (getCoordinateBounds_bounds exampleBox exampleBoxStore
                         _ _ exampleBox_bounds))).
Defined.

Lemma getCoordinateBounds_raises_witness :
  Coordinates.getCoordinateBounds
    (Coordinates.mkQDictionary (Coordinates.boxVectors exampleBox) [] [])
    exampleBoxStore = None.
Proof.
  apply (getCoordinateBounds_raises
           (Coordinates.mkQDictionary (Coordinates.boxVectors exampleBox) [] [])
           exampleBoxStore).
  - constructor.
  - left. reflexivity.
Defined.

Lemma returnToBox_one_box_length_witness :
  exists s', Coordinates.returnToBox exampleBox exampleBoxStore = (s', true).
Proof.
  destruct (returnToBox_one_box_length exampleBox exampleBoxStore
              [10; 10; 10]%R exampleBox_well_formed exampleBox_sizes)
    as (s' & Hcall & _).
  exists s'. exact Hcall.
Defined.

Lemma returnToBox_in_box_witness :
  exists s',
    Coordinates.returnToBox exampleBox exampleBoxStore = (s', true) /\
    Coordinates.returnToBox exampleBox s' = (s', true).
Proof.
  destruct (returnToBox_in_box exampleBox exampleBoxStore
              [10; 10; 10]%R exampleBox_well_formed exampleBox_sizes)
    as (s' & Hcall & _ & Hagain).
  - intros l q Hl Hq. apply list_elem_of_singleton in Hl. subst l.
    unfold exampleBoxStore in Hq. rewrite lookup_singleton_eq in Hq.
    injection Hq as <-. cbn [Coordinates.rows].
    unfold Coordinates.near_box, Coordinates.tol.
    repeat constructor; lra.
  - exists s'. split; [exact Hcall | exact Hagain].
Defined.

Lemma returnToBox_raises_witness :
  Coordinates.returnToBox exampleFourVectors exampleBoxStore
  = (exampleBoxStore, false).
Proof.
  apply (proj1 (returnToBox_raises exampleFourVectors exampleBoxStore)).
  cbn. lia.
Defined.

(** ** [dat2GroupDict] *)

Section Dat2GroupDictLoop.
Context {num : Type} {ops : PyNum num}.
Import Dat.

Lemma index_Some (x : string) (l : list string) :
  x ∈ l -> exists i, index x l = Some i /\ l !! i = Some x.
Proof.
  induction l as [|y l IH]; intros Hx; [apply elem_of_nil in Hx; contradiction|].
  cbn [index]. destruct (decide (y = x)) as [->|Hne].
  - exists 0%nat. split; reflexivity.
  - apply elem_of_cons in Hx as [->|Hx]; [contradiction|].
    destruct (IH Hx) as (i & -> & Hi). exists (S i). split; [reflexivity | exact Hi].
Qed.

Lemma coordinates_of_snoc (t : string) (atoms : list (string * list num))
    (a : string * list num) :
  coordinates_of t (atoms ++ [a])
  = coordinates_of t atoms ++ (if decide (fst a = t) then [snd a] else []).
Proof.
  unfold coordinates_of. rewrite filter_app, map_app. f_equal.
  rewrite filter_cons, filter_nil.
  destruct (decide (fst a = t)); reflexivity.
Qed.

Lemma coordinates_of_absent (t : string) (atoms : list (string * list num)) :
  t ∉ map fst atoms -> coordinates_of t atoms = [].
Proof.
  unfold coordinates_of. induction atoms as [|a atoms IH]; [reflexivity|].
  cbn [map]. intros Ht. apply not_elem_of_cons in Ht as [Hne Ht].
  rewrite filter_cons. destruct (decide (fst a = t)); [congruence|].
  exact (IH Ht).
Qed.

Lemma grouped_nil : grouped (num := num) [] ([], []).
Proof.
  split; [constructor|]. split; [reflexivity|]. split; [reflexivity|].
  intros i t Hi. discriminate Hi.
Qed.

(** One turn of the loop over the atom lines keeps the atoms grouped. *)
Lemma atomStep_grouped (atoms : list (string * list num))
    (state state' : list string * list (list (list num))) (row : string) :
  grouped atoms state -> atomStep state row = Some state' ->
  exists a, atom_of row a /\ grouped (atoms ++ [a]) state'.
Proof.
  destruct state as [existingAtoms qsList].
  intros (Hnodup & Hmem & Hlen & Hqs). cbn [fst snd] in *.
  unfold atomStep.
  destruct (PyStr.split row !! 0%nat) as [t|] eqn:Ht; [|discriminate].
  cbn [mbind option_bind].
  destruct (mapM py_float (slice 1 4 (PyStr.split row))) as [c|] eqn:Hc;
    [|discriminate].
  cbn [mbind option_bind].
  assert (Hmem' : forall t', t' ∈ map fst (atoms ++ [(t, c)])
                          <-> t' ∈ map fst atoms \/ t' = t).
  { intros t'. rewrite map_app, elem_of_app. cbn [map fst].
    rewrite list_elem_of_singleton. reflexivity. }
  destruct (decide (t ∈ existingAtoms)) as [Hin|Hnotin].
  - destruct (index_Some t existingAtoms Hin) as (idx & -> & Hidx).
    cbn [mbind option_bind]. intros [= <-].
    exists (t, c). split; [split; assumption|].
    unfold grouped. cbn [fst snd]. split; [exact Hnodup|]. split; [|split].
    + intros t'. rewrite Hmem', <- Hmem. split; [tauto|].
      intros [H'| ->]; assumption.
    + rewrite length_alter. exact Hlen.
    + intros i t' Hi. rewrite list_lookup_alter, coordinates_of_snoc.
      cbn [fst snd]. destruct (decide (idx = i)) as [<-|Hne].
      * rewrite Hidx in Hi. injection Hi as <-.
        rewrite (Hqs idx t Hidx). cbn. destruct (decide (t = t)); [reflexivity | contradiction].
      * rewrite (Hqs i t' Hi). destruct (decide (t = t')) as [<-|_];
          [|rewrite app_nil_r; reflexivity].
        exfalso. apply Hne. exact (NoDup_lookup _ _ _ _ Hnodup Hidx Hi).
  - intros [= <-]. exists (t, c). split; [split; assumption|].
    unfold grouped. cbn [fst snd]. split; [|split; [|split]].
    + apply NoDup_app. split; [exact Hnodup|]. split; [|apply NoDup_singleton].
      intros t' Ht' Ht''. apply list_elem_of_singleton in Ht''. congruence.
    + intros t'. rewrite Hmem', elem_of_app, list_elem_of_singleton, Hmem.
      reflexivity.
    + rewrite !length_app, Hlen. reflexivity.
    + intros i t' Hi. rewrite coordinates_of_snoc. cbn [fst snd].
      apply lookup_app_Some in Hi as [Hi|[Hge Hi]].
      * rewrite lookup_app_l by (rewrite Hlen; exact (lookup_lt_Some _ _ _ Hi)).
        rewrite (Hqs i t' Hi). destruct (decide (t = t')) as [<-|_];
          [|rewrite app_nil_r; reflexivity].
        exfalso. apply Hnotin. exact (list_elem_of_lookup_2 _ _ _ Hi).
      * apply list_lookup_singleton_Some in Hi as [Hi <-].
        rewrite lookup_app_r by lia.
        replace (i - length qsList)%nat with 0%nat by lia.
        rewrite coordinates_of_absent.
        -- cbn. destruct (decide (t = t)); [reflexivity | contradiction].
        -- rewrite <- Hmem. exact Hnotin.
Qed.

Lemma atomLoop_grouped (rows : list string)
    (atoms : list (string * list num))
    (state state' : list string * list (list (list num))) :
  grouped atoms state -> atomLoop rows state = Some state' ->
  exists atoms1, Forall2 atom_of rows atoms1 /\ grouped (atoms ++ atoms1) state'.
Proof.
  revert atoms state. induction rows as [|row rows IH]; intros atoms state Hg.
  - intros [= <-]. exists []. split; [constructor|].
    rewrite app_nil_r. exact Hg.
  - cbn [atomLoop]. destruct (atomStep state row) as [state1|] eqn:Hstep;
      [|discriminate].
    cbn [mbind option_bind]. intros Hrest.
    destruct (atomStep_grouped atoms state state1 row Hg Hstep) as (a & Ha & Hg1).
    destruct (IH _ _ Hg1 Hrest) as (atoms1 & Hatoms1 & Hg').
    exists (a :: atoms1). split; [constructor; assumption|].
    rewrite <- app_assoc in Hg'. exact Hg'.
Qed.

Lemma mapM_np_array (qsList qArrayList : list (list (list num))) :
  mapM np_array qsList = Some qArrayList -> qArrayList = qsList.
Proof.
  intros Hm. apply mapM_Some_1 in Hm.
  induction Hm as [|q a l k Hq _ IH]; [reflexivity|].
  apply np_array_Some in Hq as [-> _]. rewrite IH. reflexivity.
Qed.

Lemma atomRows_count (N_atoms : Z) (content : list string) :
  (0 <= N_atoms)%Z ->
  atomRows N_atoms content = take (Z.to_nat N_atoms) (drop 4 content).
Proof.
  intros HN. unfold atomRows, slice, slice_stop.
  destruct (Z.ltb_spec (4 + N_atoms) 0) as [|_]; [lia|].
  f_equal. lia.
Qed.

(** Every atom is in the list of coordinates of its type, once. *)
Lemma grouped_count (atoms : list (string * list num)) (types : list string) :
  NoDup types -> (forall t, t ∈ map fst atoms -> t ∈ types) ->
  length (concat (map (fun t => coordinates_of t atoms) types)) = length atoms.
Proof.
  intros Hnodup. induction atoms as [|a atoms IH] using rev_ind; intros Hall.
  - clear. induction types as [|t types IH]; [reflexivity|]. exact IH.
  - assert (Hrest : forall t, t ∈ map fst atoms -> t ∈ types).
    { intros t Ht. apply Hall. rewrite map_app, elem_of_app. left. exact Ht. }
    assert (Ha : fst a ∈ types).
    { apply Hall. rewrite map_app, elem_of_app. right. left. }
    rewrite length_app. cbn [length]. rewrite <- (IH Hrest). clear IH Hall Hrest.
    induction Hnodup as [|t types Ht Hnodup IH].
    + apply elem_of_nil in Ha. contradiction.
    + cbn [map concat]. rewrite !length_app, coordinates_of_snoc, length_app.
      destruct (decide (fst a = t)) as [E|Hne].
      * cbn [length].
        assert (Hsame : map (fun t0 => coordinates_of t0 (atoms ++ [a])) types
                        = map (fun t0 => coordinates_of t0 atoms) types).
        { apply Forall_fmap_ext_1, Forall_forall. intros t' Ht'.
          rewrite coordinates_of_snoc.
          destruct (decide (fst a = t')) as [E'|_]; [|apply app_nil_r].
          exfalso. apply Ht. rewrite <- E, E'. exact Ht'. }
        rewrite Hsame. lia.
      * apply elem_of_cons in Ha as [E|Ha]; [congruence|].
        rewrite (IH Ha). cbn [length]. lia.
Qed.

End Dat2GroupDictLoop.

Section Dat2GroupDictFacts.
Context {num : Type} {ops : PyNum num}.
Variable py_int_of_str : string -> option Z.
Import Dat.

(** X18.  When [dat2GroupDict] returns, the dictionary holds the atoms of
    the atom lines by type: the types are listed without repetition, each
    type of an atom once; there is one array for each type, whose rows
    are the coordinates of the atoms of that type in the order of the
    file; so every atom read is in exactly one array.  The atom lines are
    the lines [content[4:4+N_atoms]], that is, for [N_atoms >= 0], the
    first [N_atoms] lines after the fourth, or as many as the file has:
    a count larger than the number of lines is not an error. *)
Theorem dat2GroupDict_groups (lines : list string) (qD : qDictionary) :
  dat2GroupDict py_int_of_str lines = Some qD ->
  exists (N_atoms : Z) (atoms : list (string * list num)),
    (map PyStr.strip lines !! 0%nat ≫= py_int_of_str) = Some N_atoms /\
    Forall2 atom_of (atomRows N_atoms (map PyStr.strip lines)) atoms /\
    ((0 <= N_atoms)%Z ->
     atomRows N_atoms (map PyStr.strip lines)
     = take (Z.to_nat N_atoms) (drop 4 (map PyStr.strip lines))) /\
    NoDup (atomTypes qD) /\
    (forall t, t ∈ atomTypes qD <-> t ∈ map fst atoms) /\
    length (qs qD) = length (atomTypes qD) /\
    (forall i t, atomTypes qD !! i = Some t ->
       qs qD !! i = Some (coordinates_of t atoms)) /\
    length (concat (qs qD)) = length atoms.
Proof.
  unfold dat2GroupDict. set (content := map PyStr.strip lines).
  destruct (content !! 0%nat) as [line0|]; [|discriminate].
  cbn [mbind option_bind].
  destruct (py_int_of_str line0) as [N_atoms|]; [|discriminate].
  cbn [mbind option_bind].
  destruct (boxLoop _ _ _) as [bpv|]; [|discriminate]. cbn [mbind option_bind].
  destruct (atomLoop _ _) as [[existingAtoms qsList]|] eqn:Hloop; [|discriminate].
  cbn [mbind option_bind].
  destruct (mapM np_array qsList) as [qArrayList|] eqn:Harrays; [|discriminate].
  cbn [mbind option_bind]. intros [= <-]. cbn [atomTypes qs].
  apply mapM_np_array in Harrays as ->.
  destruct (atomLoop_grouped _ [] _ _ grouped_nil Hloop)
    as (atoms & Hatoms & Hnodup & Hmem & Hlen & Hqs).
  cbn [app fst snd] in *.
  exists N_atoms, atoms. split; [reflexivity|]. split; [exact Hatoms|].
  split; [apply atomRows_count|]. split; [exact Hnodup|].
  split; [exact Hmem|]. split; [exact Hlen|]. split; [exact Hqs|].
  assert (E : qsList = map (fun t => coordinates_of t atoms) existingAtoms).
  { apply list_eq. intros i. change (map ?f ?l) with (f <$> l).
    rewrite list_lookup_fmap.
    destruct (existingAtoms !! i) as [t|] eqn:Hi.
    - exact (Hqs i t Hi).
    - apply lookup_ge_None. apply lookup_ge_None in Hi. lia. }
  rewrite E. apply grouped_count; [exact Hnodup|].
  intros t Ht. apply Hmem. exact Ht.
Qed.

End Dat2GroupDictFacts.

Section Dat2GroupDictReadsLoop.
Context {num : Type} {ops : PyNum num}.
Import Dat.

Lemma boxLoop_spec (rows : list string) (vectors : list (list num))
    (irow : nat) (bpv : list (option (list num))) :
  Forall2 (fun row v => mapM py_float (PyStr.split row) = Some v) rows vectors ->
  irow + length rows <= length bpv ->
  boxLoop rows irow bpv
  = Some (take irow bpv ++ map Some vectors
          ++ drop (irow + length vectors) bpv).
Proof.
  intros Hrows. revert irow bpv.
  induction Hrows as [|row v rows vectors Hv _ IH]; intros irow bpv Hlen.
  - cbn [boxLoop map length app]. rewrite Nat.add_0_r, take_drop. reflexivity.
  - cbn [boxLoop length] in *. rewrite Hv. cbn [mbind option_bind].
    rewrite IH by (rewrite length_insert; lia).
    rewrite take_insert_lt, drop_insert_lt by lia.
    rewrite (insert_take_drop (take (S irow) bpv)) by (rewrite length_take; lia).
    rewrite take_take, Nat.min_l by lia.
    rewrite drop_ge by (rewrite length_take; lia).
    cbn [map]. rewrite <- !app_assoc. cbn [app].
    replace (S irow + length vectors) with (irow + S (length vectors)) by lia.
    reflexivity.
Qed.

Lemma atomLoop_reads (rows : list string) (atoms atoms1 : list (string * list num))
    (state : list string * list (list (list num))) :
  Forall2 atom_of rows atoms1 -> grouped atoms state ->
  exists state',
    atomLoop rows state = Some state' /\ grouped (atoms ++ atoms1) state'.
Proof.
  intros Hrows. revert atoms state.
  induction Hrows as [|row a rows atoms1 [Ht Hc] _ IH]; intros atoms state Hg.
  - exists state. split; [reflexivity|]. rewrite app_nil_r. exact Hg.
  - assert (Hstep : exists state1, atomStep state row = Some state1).
    { destruct state as [existingAtoms qsList]. unfold atomStep.
      rewrite Ht. cbn [mbind option_bind]. rewrite Hc. cbn [mbind option_bind].
      destruct (decide (fst a ∈ existingAtoms)) as [Hin|_];
        [|eexists; reflexivity].
      destruct (index_Some _ _ Hin) as (idx & -> & _). eexists. reflexivity. }
    destruct Hstep as [state1 Hstep].
    destruct (atomStep_grouped atoms state state1 row Hg Hstep)
      as (a' & [Ht' Hc'] & Hg1).
    assert (a' = a) as ->.
    { destruct a, a'. cbn [fst snd] in *. congruence. }
    destruct (IH _ _ Hg1) as (state' & Hloop & Hg').
    exists state'. cbn [atomLoop]. rewrite Hstep. cbn [mbind option_bind].
    split; [exact Hloop|]. rewrite <- app_assoc in Hg'. exact Hg'.
Qed.

End Dat2GroupDictReadsLoop.

Section Dat2GroupDictReads.
Context {num : Type} {ops : PyNum num}.
Variable py_int_of_str : string -> option Z.
Import Dat.

(** X19.  A file whose lines are as the format has them is read without
    exception: a first line that [int] reads, at most three following
    lines of floats, and atom lines ([content[4:4+N_atoms]]) of a type
    and three coordinates each.  The box vectors of the dictionary are
    the floats of lines 2 to 4 (an entry stays [0] where the file has no
    line), and the arrays hold all atoms read. *)
Theorem dat2GroupDict_reads (lines : list string) (N_atoms : Z)
    (vectors : list (list num)) (atoms : list (string * list num)) :
  (map PyStr.strip lines !! 0%nat ≫= py_int_of_str) = Some N_atoms ->
  Forall2 (fun row v => mapM py_float (PyStr.split row) = Some v)
    (slice 1 4 (map PyStr.strip lines)) vectors ->
  Forall2 atom_of (atomRows N_atoms (map PyStr.strip lines)) atoms ->
  Forall (fun a => length (snd a) = 3) atoms ->
  exists qD : qDictionary,
    dat2GroupDict py_int_of_str lines = Some qD /\
    boxVectors qD = map Some vectors ++ replicate (3 - length vectors) None /\
    (forall i t, atomTypes qD !! i = Some t ->
       qs qD !! i = Some (coordinates_of t atoms)) /\
    length (concat (qs qD)) = length atoms.
Proof.
  intros Hint Hbox Hatoms Hthree. unfold dat2GroupDict.
  set (content := map PyStr.strip lines) in *.
  destruct (content !! 0%nat) as [line0|]; [|discriminate].
  cbn [mbind option_bind] in *. rewrite Hint. cbn [mbind option_bind].
  assert (Hlen : length vectors <= 3).
  { rewrite <- (Forall2_length _ _ _ Hbox). unfold slice.
    rewrite length_take. lia. }
  rewrite (boxLoop_spec _ vectors 0 _ Hbox)
    by (rewrite (Forall2_length _ _ _ Hbox), length_replicate; cbn; lia).
  cbn [mbind option_bind take app Nat.add]. rewrite drop_replicate.
  destruct (atomLoop_reads _ [] atoms ([], []) Hatoms grouped_nil)
    as ([existingAtoms qsList] & Hloop & Hnodup & Hmem & Hlenq & Hqs).
  cbn [app fst snd] in *. rewrite Hloop. cbn [mbind option_bind].
  assert (E : qsList = map (fun t => coordinates_of t atoms) existingAtoms).
  { apply list_eq. intros i. change (map ?f ?l) with (f <$> l).
    rewrite list_lookup_fmap.
    destruct (existingAtoms !! i) as [t|] eqn:Hi.
    - exact (Hqs i t Hi).
    - apply lookup_ge_None. apply lookup_ge_None in Hi. lia. }
  assert (Harrays : mapM np_array qsList = Some qsList).
  { apply mapM_Some_2, Forall_Forall2_diag. rewrite E.
    apply Forall_map, Forall_forall. intros t Ht. cbn beta.
    apply (np_array_rectangular 3).
    - apply Hmem in Ht. intros Hnil.
      apply list_elem_of_fmap in Ht as (a & -> & Ha).
      assert (Hin : snd a ∈ coordinates_of (fst a) atoms).
      { unfold coordinates_of. apply list_elem_of_fmap. exists a.
        split; [reflexivity|]. apply list_elem_of_filter. split; [reflexivity | exact Ha]. }
      rewrite Hnil in Hin. apply elem_of_nil in Hin. exact Hin.
    - unfold coordinates_of. apply Forall_map, Forall_forall. intros a Ha.
      apply list_elem_of_filter in Ha as [_ Ha].
      rewrite Forall_forall in Hthree. exact (Hthree a Ha). }
  rewrite Harrays. cbn [mbind option_bind].
  eexists. split; [reflexivity|]. cbn [boxVectors atomTypes qs].
  split; [reflexivity|]. split; [exact Hqs|].
  rewrite E. apply grouped_count; [exact Hnodup|].
  intros t Ht. apply Hmem. exact Ht.
Qed.

End Dat2GroupDictReads.

Lemma exampleDat_read :
  Dat.dat2GroupDict exampleInt exampleDat
  = Some {| Dat.boxVectors :=
              map (fun v => Some (IntNum.floats v))
                [[10; 0; 0]; [0; 10; 0]; [0; 0; 10]]%Z;
            Dat.atomTypes := ["C"; "H"];
            Dat.qs := [map IntNum.floats [[1; 2; 3]; [7; 8; 9]]%Z;
                       map IntNum.floats [[4; 5; 6]]%Z] |}.
Proof. vm_compute. reflexivity. Qed.

Lemma dat2GroupDict_groups_witness :
  exists qD : Dat.qDictionary,
    Dat.dat2GroupDict exampleInt exampleDat = Some qD /\
    NoDup (Dat.atomTypes qD) /\ length (concat (Dat.qs qD)) = 3.
Proof.
  eexists. split; [exact exampleDat_read|].
  destruct (dat2GroupDict_groups exampleInt exampleDat _ exampleDat_read)
    as (N & atoms & HN & Hatoms & _ & Hnodup & _ & _ & _ & Hcount).
  split; [exact Hnodup|]. rewrite Hcount.
  rewrite <- (Forall2_length _ _ _ Hatoms).
  vm_compute in HN. injection HN as <-. reflexivity.
Defined.

Lemma dat2GroupDict_reads_witness :
  exists qD : Dat.qDictionary,
    Dat.dat2GroupDict exampleInt exampleDat = Some qD /\
    length (concat (Dat.qs qD)) = 3.
Proof.
  destruct (dat2GroupDict_reads exampleInt exampleDat 3
              (map IntNum.floats [[10; 0; 0]; [0; 10; 0]; [0; 0; 10]]%Z)
              [("C", IntNum.floats [1; 2; 3]%Z);
               ("H", IntNum.floats [4; 5; 6]%Z);
               ("C", IntNum.floats [7; 8; 9]%Z)])
    as (qD & Hread & _ & _ & Hcount).
  - reflexivity.
  - repeat constructor.
  - repeat constructor.
  - repeat constructor.
  - exists qD. split; [exact Hread | exact Hcount].
Defined.

(** ** [computeAverageDisplacement] *)

Section AverageDisplacementFacts.
Import Coordinates.
Local Open Scope R_scope.

Lemma broadcast_dim_same (n : nat) : broadcast_dim n n = Some n.
Proof. unfold broadcast_dim. rewrite Nat.eqb_refl. reflexivity. Qed.

Lemma stretch_same {A : Type} (n : nat) (l : list A) :
  length l = n -> stretch n l = l.
Proof.
  intros <-. destruct l as [|x [|y l]]; reflexivity.
Qed.

(** The squares added so far, after the columns before [j]. *)
Lemma squaresLoop_partial (k : nat) (rws : list (list R)) (m j : nat) :
  (j + m = k)%nat -> Forall (fun row => length row = k) rws ->
  squaresLoop (seq j m) rws
    (map (fun row => fold_left (fun acc x => acc + x ^ 2) (take j row) 0) rws)
  = map (fun row => fold_left (fun acc x => acc + x ^ 2) row 0) rws.
Proof.
  intros Hjm Hrows. revert j Hjm. induction m as [|m IH]; intros j Hjm.
  - cbn [seq squaresLoop]. apply Forall_fmap_ext_1.
    eapply Forall_impl; [exact Hrows|]. intros row Hrow. cbn beta in *.
    rewrite take_ge by lia. reflexivity.
  - cbn [seq squaresLoop]. rewrite <- (IH (S j)) by lia. f_equal.
    clear IH. induction Hrows as [|row rws Hrow _ IHr]; [reflexivity|].
    cbn [map zip_with]. rewrite IHr. f_equal.
    destruct (lookup_lt_is_Some_2 row j ltac:(lia)) as [x Hx].
    rewrite (take_S_r _ _ _ Hx), fold_left_app. cbn [fold_left].
    rewrite (nth_lookup_Some _ _ _ _ Hx). reflexivity.
Qed.

Lemma squaresLoop_rows (k : nat) (rws : list (list R)) :
  Forall (fun row => length row = k) rws ->
  squaresLoop (seq 0 k) rws (replicate (length rws) 0)
  = map (fun row => fold_left (fun acc x => acc + x ^ 2) row 0) rws.
Proof.
  intros Hrows. rewrite <- (squaresLoop_partial k rws k 0 eq_refl Hrows).
  f_equal. clear. induction rws as [|row rws IH]; [reflexivity|].
  cbn [length replicate map take fold_left]. rewrite IH. reflexivity.
Qed.

Lemma fold_squares_nonneg (l : list R) (a : R) :
  0 <= a -> 0 <= fold_left (fun acc x => acc + x ^ 2) l a.
Proof.
  revert a. induction l as [|x l IH]; intros a Ha; [exact Ha|].
  cbn [fold_left]. apply IH. pose proof (pow2_ge_0 x). lra.
Qed.

Lemma np_sum_acc (v : list R) (a : R) :
  fold_left Rplus v a = a + np_sum v.
Proof.
  unfold np_sum. revert a. induction v as [|x v IH]; intros a.
  - cbn. lra.
  - cbn [fold_left]. rewrite (IH (a + x)), (IH (0 + x)). lra.
Qed.

Lemma np_sum_nonneg (v : list R) : Forall (fun x => 0 <= x) v -> 0 <= np_sum v.
Proof.
  induction 1 as [|x v Hx _ IH]; [unfold np_sum; cbn; lra|].
  unfold np_sum. cbn [fold_left]. rewrite np_sum_acc. lra.
Qed.

Lemma np_sum_constant (n : nat) (x : R) :
  np_sum (replicate n x) = INR n * x.
Proof.
  induction n as [|n IH]; [unfold np_sum; cbn; lra|].
  unfold np_sum. cbn [replicate fold_left]. rewrite np_sum_acc, IH, S_INR. lra.
Qed.

(** The numerator never decreases. *)
Lemma displacementLoop_nonneg (indices : list nat) (l1 l2 : list loc)
    (s : gmap loc array2) (numerator numerator' : R) (nTotal nTotal' : nat) :
  displacementLoop indices l1 l2 s numerator nTotal = Some (numerator', nTotal') ->
  numerator <= numerator'.
Proof.
  revert numerator nTotal. induction indices as [|i indices IH];
    intros numerator nTotal.
  - intros [= <- <-]. lra.
  - cbn [displacementLoop].
    destruct (l1 !! i) as [a1|]; [|discriminate]. cbn [mbind option_bind].
    destruct (s !! a1) as [q1|]; [|discriminate]. cbn [mbind option_bind].
    destruct (l2 !! i) as [a2|]; [|discriminate]. cbn [mbind option_bind].
    destruct (s !! a2) as [q2|]; [|discriminate]. cbn [mbind option_bind].
    destruct (array_minus q2 q1) as [diff|]; [|discriminate].
    cbn [mbind option_bind]. intros Hrest. apply IH in Hrest.
    assert (0 <= np_sum
                   (map sqrt
                      (squaresLoop (seq 0 (shape1 diff)) (rows diff)
                         (replicate (length (rows diff)) 0)))); [|lra].
    apply np_sum_nonneg, Forall_map, Forall_forall. intros x _.
    apply sqrt_pos.
Qed.

(** X20.  The average displacement is never negative. *)
Theorem computeAverageDisplacement_nonneg (qD1 qD2 : qDictionary)
    (s : gmap loc array2) (meanDisplacement : R) :
  computeAverageDisplacement qD1 qD2 s = Some meanDisplacement ->
  0 <= meanDisplacement.
Proof.
  unfold computeAverageDisplacement.
  destruct (displacementLoop _ _ _ _ _ _) as [[numerator nTotal]|] eqn:Hloop;
    [|discriminate].
  cbn [mbind option_bind].
  destruct (Nat.eqb_spec nTotal 0) as [|Hn]; [discriminate|].
  intros [= <-]. apply displacementLoop_nonneg in Hloop.
  apply Rmult_le_pos; [exact Hloop|].
  apply Rlt_le, Rinv_0_lt_compat, lt_0_INR. lia.
Qed.

Lemma moved_row (row d : list R) :
  length row = length d ->
  zip_with Rminus (zip_with Rplus row d) row = d.
Proof.
  revert d. induction row as [|x row IH]; intros [|y d] Hlen;
    try discriminate; [reflexivity|].
  cbn [zip_with]. rewrite IH by (cbn in Hlen; lia). f_equal. lra.
Qed.

(** The difference of an array moved by [d] and the array: every row is
    [d]. *)
Lemma array_minus_moved (q1 : array2) (d : list R) :
  shape1 q1 = length d ->
  Forall (fun row => length row = shape1 q1) (rows q1) ->
  array_minus
    (mkArray2 (shape1 q1) (map (fun row => zip_with Rplus row d) (rows q1))) q1
  = Some (mkArray2 (shape1 q1) (replicate (length (rows q1)) d)).
Proof.
  intros Hd Hrows. unfold array_minus. cbn [rows shape1].
  rewrite length_map, !broadcast_dim_same. cbn [mbind option_bind].
  rewrite !stretch_same by (rewrite ?length_map; reflexivity).
  do 2 f_equal. induction Hrows as [|row rws Hrow _ IH]; [reflexivity|].
  cbn [map zip_with length replicate]. rewrite IH. f_equal.
  rewrite !stretch_same by (rewrite ?length_zip_with; lia).
  apply moved_row. lia.
Qed.

Lemma displacementLoop_moved (d : list R) (s : gmap loc array2)
    (pre1 pre2 arrays1 arrays2 : list loc) (numerator : R) (nTotal : nat) :
  length pre1 = length pre2 ->
  moved_by d s arrays1 arrays2 ->
  exists n : nat,
    displacementLoop (seq (length pre1) (length arrays1))
      (pre1 ++ arrays1) (pre2 ++ arrays2) s numerator nTotal
    = Some (numerator + INR n * norm d, (nTotal + n)%nat) /\
    (n = 0%nat <->
     forall l q, l ∈ arrays1 -> s !! l = Some q -> rows q = []).
Proof.
  intros Hpre Hmoved. revert pre1 pre2 Hpre numerator nTotal.
  induction Hmoved as [|l1 l2 arrays1 arrays2 (q1 & Hq1 & Hd & Hrows & Hq2) _ IH];
    intros pre1 pre2 Hpre numerator nTotal.
  - exists 0%nat. cbn [length seq displacementLoop INR].
    split; [do 2 f_equal; [lra | lia]|].
    split; [|reflexivity]. intros _ l q Hl.
    apply elem_of_nil in Hl. contradiction.
  - cbn [length seq displacementLoop].
    rewrite (lookup_app_r pre1), Nat.sub_diag by lia.
    cbn [lookup list_lookup mbind option_bind]. rewrite Hq1.
    cbn [mbind option_bind].
    rewrite Hpre, (lookup_app_r pre2), Nat.sub_diag by lia.
    cbn [lookup list_lookup mbind option_bind]. rewrite Hq2.
    cbn [mbind option_bind].
    rewrite (array_minus_moved q1 d Hd Hrows). cbn [mbind option_bind shape1 rows].
    rewrite (squaresLoop_rows (shape1 q1))
      by (apply Forall_replicate; symmetry; exact Hd).
    change (map (fun row => fold_left (fun acc x => acc + x ^ 2) row 0)
              (replicate (length (rows q1)) d))
      with ((fun row => fold_left (fun acc x => acc + x ^ 2) row 0)
              <$> replicate (length (rows q1)) d).
    rewrite fmap_replicate.
    change (map sqrt (replicate ?n ?x)) with (sqrt <$> replicate n x).
    rewrite fmap_replicate, np_sum_constant. fold (norm d).
    destruct (IH (pre1 ++ [l1]) (pre2 ++ [l2])
                ltac:(rewrite !length_app; cbn; lia)
                (numerator + INR (length (rows q1)) * norm d)
                (nTotal + length (rows q1))%nat) as (n & Hloop & Hzero).
    rewrite length_app, <- !app_assoc in Hloop. cbn [length app] in Hloop.
    rewrite <- Hpre.
    replace (S (length pre1)) with (length pre1 + 1)%nat by lia.
    rewrite Hloop. exists (length (rows q1) + n)%nat.
    split; [rewrite plus_INR; do 2 f_equal; [lra | lia]|].
    split.
    + intros Hn l q Hl Hq. apply elem_of_cons in Hl as [->|Hl].
      * rewrite Hq1 in Hq. injection Hq as <-.
        apply length_zero_iff_nil. lia.
      * apply (proj1 Hzero ltac:(lia) l q Hl Hq).
    + intros Hall.
      rewrite (Hall l1 q1 ltac:(left) Hq1). cbn [length Nat.add].
      apply Hzero. intros l q Hl. apply Hall. right. exact Hl.
Qed.

(** X21.  Between a configuration and the same configuration moved by a
    vector [d] (every row of every array with [d] added), the average
    displacement is the length of [d], as soon as there is an atom; in
    particular it is [0] between a configuration and itself moved by the
    zero vector. *)
Theorem computeAverageDisplacement_moved (qD1 qD2 : qDictionary)
    (s : gmap loc array2) (d : list R) :
  moved_by d s (qs qD1) (qs qD2) ->
  (exists l q, l ∈ qs qD1 /\ s !! l = Some q /\ rows q <> []) ->
  computeAverageDisplacement qD1 qD2 s = Some (norm d).
Proof.
  intros Hmoved (l & q & Hl & Hq & Hne). unfold computeAverageDisplacement.
  destruct (displacementLoop_moved d s [] [] _ _ 0 0 eq_refl Hmoved)
    as (n & Hloop & Hzero).
  cbn [length app] in Hloop. rewrite Hloop. cbn [mbind option_bind Nat.add].
  destruct (Nat.eqb_spec n 0) as [Hn|Hn].
  - exfalso. apply Hne. exact (proj1 Hzero Hn l q Hl Hq).
  - f_equal. field. apply not_0_INR. exact Hn.
Qed.

End AverageDisplacementFacts.

Lemma computeAverageDisplacement_nonneg_witness :
  exists m : R,
    Coordinates.computeAverageDisplacement exampleBox exampleBox exampleBoxStore
    = Some m /\ (0 <= m)%R.
Proof.
  assert (H : exists m,
             Coordinates.computeAverageDisplacement exampleBox exampleBox
               exampleBoxStore = Some m).
  { unfold Coordinates.computeAverageDisplacement, exampleBox, exampleBoxStore.
    cbn [Coordinates.qs length seq Coordinates.displacementLoop lookup
         list_lookup mbind option_bind].
    rewrite !lookup_singleton_eq. cbn [mbind option_bind].
    unfold Coordinates.array_minus.
    cbn [Coordinates.rows Coordinates.shape1 length Coordinates.broadcast_dim
         Nat.eqb mbind option_bind Nat.add].
    eexists. reflexivity. }
  destruct H as [m Hm]. exists m. split; [exact Hm|].
  exact (computeAverageDisplacement_nonneg _ _ _ _ Hm).
Defined.

Lemma computeAverageDisplacement_moved_witness :
  Coordinates.computeAverageDisplacement exampleBox exampleMoved
    exampleMovedStore
  = Some (Coordinates.norm [3; 4; 0]%R).
Proof.
  apply computeAverageDisplacement_moved.
  - repeat constructor. eexists.
    split; [unfold exampleMovedStore, exampleBoxStore;
            rewrite lookup_insert_ne by discriminate;
            apply lookup_singleton_eq|].
    cbn [Coordinates.shape1 Coordinates.rows length].
    split; [reflexivity|]. split; [repeat constructor|].
    unfold exampleMovedStore. rewrite lookup_insert_eq.
    cbn [map zip_with]. repeat f_equal; lra.
  - eexists _, _. split; [left|].
    split; [unfold exampleMovedStore, exampleBoxStore;
            rewrite lookup_insert_ne by discriminate;
            apply lookup_singleton_eq|].
    discriminate.
Defined.

(** ** [simulationDictionaryToLAMMPSData] *)

Section LAMMPSDataFacts.
Context {num : Type} {ops : PyNum num}.
Variable fmt5 : num -> string.

Lemma writeAll_app (l1 l2 : list (option string)) :
  writeAll (l1 ++ l2)
  = (if snd (writeAll l1)
     then (fst (writeAll l1) ++ fst (writeAll l2), snd (writeAll l2))
     else (fst (writeAll l1), false)).
Proof.
  induction l1 as [|[chunk|] l1 IH]; cbn [app writeAll fst snd].
  - destruct (writeAll l2); reflexivity.
  - rewrite IH. destruct (writeAll l1) as [w1 ok1]. cbn [fst snd].
    destruct ok1; reflexivity.
  - reflexivity.
Qed.

Lemma writeAll_Some (l : list string) :
  writeAll (map Some l) = (l, true).
Proof.
  induction l as [|x l IH]; [reflexivity|].
  cbn [map writeAll]. rewrite IH. reflexivity.
Qed.

Lemma writeAll_length (l : list (option string)) :
  snd (writeAll l) = true -> length (fst (writeAll l)) = length l.
Proof.
  induction l as [|[chunk|] l IH]; cbn [writeAll]; [reflexivity| |discriminate].
  destruct (writeAll l) as [w ok]. cbn [fst snd length] in *.
  intros Hok. rewrite (IH Hok). reflexivity.
Qed.

(** X22.  With the default [twoDimensional=False], or with a height of
    zero, [simulationDictionaryToLAMMPSData] cannot write the file: the
    name [simulationDictionary] is bound in the two-dimensional branch
    only, so the call raises once the file is opened, before any write,
    whatever the dictionary is. *)
Theorem simulationDictionaryToLAMMPSData_default
    (groupDictionary : simulationDictionary num)
    (twoDimensional : option num) (s : store num) :
  truthy twoDimensional = false ->
  simulationDictionaryToLAMMPSData fmt5 groupDictionary twoDimensional s
  = (s, [], false).
Proof.
  intros Hfalse. unfold simulationDictionaryToLAMMPSData.
  destruct twoDimensional as [zHeight|]; [|reflexivity].
  rewrite Hfalse. reflexivity.
Qed.

(** The lines of the atoms of the groups, when all of them are written:
    as many as the arrays have rows. *)
Lemma groupLines_count (s : store num) (groups : list (groupDictionary num)) :
  snd (writeAll (concat (map (groupLines fmt5 s) groups))) = true ->
  countAtoms groups s 0
  = Some (Z.of_nat
            (length (fst (writeAll (concat (map (groupLines fmt5 s) groups)))))).
Proof.
  assert (Hgen : forall n,
            snd (writeAll (concat (map (groupLines fmt5 s) groups))) = true ->
            countAtoms groups s n
            = Some (n + Z.of_nat
                          (length (concat (map (groupLines fmt5 s) groups))))%Z).
  { induction groups as [|g groups IH]; intros n.
    - intros _. cbn. rewrite Z.add_0_r. reflexivity.
    - cbn [map concat countAtoms]. rewrite writeAll_app.
      assert (Hg : groupLines fmt5 s g
                   = match s !! qArray g with
                     | None => [None]
                     | Some q => map (atomLine fmt5) q
                     end) by reflexivity.
      rewrite Hg. clear Hg.
      destruct (s !! qArray g) as [q|]; [|cbn; discriminate].
      destruct (snd (writeAll (map (atomLine fmt5) q))); [|discriminate].
      cbn [snd mbind option_bind]. intros Hok.
      rewrite (IH _ Hok), length_app, length_map, Nat2Z.inj_add, Z.add_assoc.
      reflexivity. }
  intros Hok. rewrite (writeAll_length _ Hok).
  rewrite (Hgen 0%Z Hok). reflexivity.
Qed.

End LAMMPSDataFacts.

Section LAMMPSDataWritten.
Context {num : Type} {ops : PyNum num}.
Variable fmt5 : num -> string.

Lemma writeAll_app_true (l1 l2 : list (option string)) (w : list string) :
  writeAll (l1 ++ l2) = (w, true) ->
  exists w1 w2,
    w = w1 ++ w2 /\ writeAll l1 = (w1, true) /\ writeAll l2 = (w2, true).
Proof.
  rewrite writeAll_app.
  destruct (writeAll l1) as [w1 ok1], (writeAll l2) as [w2 ok2].
  cbn [fst snd]. destruct ok1; [|discriminate].
  intros [= <- ->]. exists w1, w2. repeat split; reflexivity.
Qed.

Lemma refreshMetaData_nAtoms (sd0 sd : simulationDictionary num)
    (s : store num) :
  refreshMetaData sd0 s = Some sd -> getNumberOfAtoms sd s = Some (nAtoms sd).
Proof.
  unfold refreshMetaData.
  destruct (collectMetaData (groupDictionaries sd0)) as [types masses].
  destruct (getNumberOfAtoms sd0 s) as [n|] eqn:Hn; [|discriminate].
  cbn [mbind option_bind]. intros [= <-]. exact Hn.
Qed.

(** X23.  When the two-dimensional call ends without exception, it has
    not written to any array its argument holds, and the file is the
    header, three lines for the box, the masses and one line for each
    atom: as many atom lines as the arrays of the groups have rows.  The
    number of atoms that the header announces is the entry [nAtoms] of
    the dictionary as it is; it is the number of atom lines when
    [refreshMetaData] has set it. *)
Theorem simulationDictionaryToLAMMPSData_written
    (groupDictionary : simulationDictionary num) (zHeight : num)
    (s s' : store num) (written : list string) :
  arrays_in_store groupDictionary s ->
  simulationDictionaryToLAMMPSData fmt5 groupDictionary (Some zHeight) s
  = (s', written, true) ->
  (forall l, is_Some (s !! l) -> s' !! l = s !! l) /\
  exists boxLines atomLines : list string,
    written =
      ["LAMMPS Description" +:+ PyStr.newline +:+ " " +:+ PyStr.newline;
       py_str (num_of_Z (nAtoms groupDictionary)) +:+ " atoms"
         +:+ PyStr.newline +:+ " " +:+ PyStr.newline;
       py_str (num_of_Z (nAtomTypes groupDictionary)) +:+ " atom types"
         +:+ PyStr.newline +:+ " " +:+ PyStr.newline]
      ++ boxLines
      ++ [PyStr.newline; "Masses" +:+ PyStr.newline +:+ PyStr.newline]
      ++ map massLine (enumerate (massList groupDictionary))
      ++ [PyStr.newline; "Atoms" +:+ PyStr.newline +:+ PyStr.newline]
      ++ atomLines /\
    length boxLines = 3 /\
    getNumberOfAtoms groupDictionary s = Some (Z.of_nat (length atomLines)) /\
    (forall sd0, refreshMetaData sd0 s = Some groupDictionary ->
       nAtoms groupDictionary = Z.of_nat (length atomLines)).
Proof.
  intros Hin. unfold simulationDictionaryToLAMMPSData.
  destruct (truthy (Some zHeight)); [|discriminate].
  pose proof (translateCoordinates_preserves groupDictionary
                [num_of_Z 0; num_of_Z 0; zHeight] None s) as Hkeep.
  destruct (translateCoordinates groupDictionary _ None s)
    as [s1 [sdT|]] eqn:Hcall; [|discriminate].
  cbn [fst] in Hkeep.
  destruct (translateCoordinates_groups _ _ _ _ _ _ Hin Hcall)
    as (HnAtoms & _ & Hmass & Htypes & _ & Hgroups).
  destruct (s1 !! boxVectors groupDictionary ≫= _) as [newBox|]; [|discriminate].
  set (l := fresh (dom s1)). set (s2 := <[l := newBox]> s1).
  destruct (writeAll _) as [w ok] eqn:Hw. intros [= <- <- ->].
  assert (Hfresh : forall k, is_Some (s1 !! k) -> s2 !! k = s1 !! k).
  { intros k Hk. unfold s2. apply lookup_insert_ne. intros <-.
    apply elem_of_dom in Hk. exact (is_fresh (dom s1) Hk). }
  split.
  { intros k Hk. rewrite Hfresh; rewrite (Hkeep k Hk); [reflexivity | exact Hk]. }
  unfold dataChunks in Hw.
  cbn [groupDictionaries boxVectors nAtoms massList nAtomTypes] in Hw.
  apply writeAll_app_true in Hw as (w1 & r1 & -> & Hw1 & Hw).
  apply writeAll_app_true in Hw as (wbox & r2 & -> & Hwbox & Hw).
  apply writeAll_app_true in Hw as (w3 & r3 & -> & Hw3 & Hw).
  apply writeAll_app_true in Hw as (wmass & r4 & -> & Hwmass & Hw).
  apply writeAll_app_true in Hw as (w5 & watoms & -> & Hw5 & Hwatoms).
  cbn [writeAll] in Hw1, Hw3, Hw5.
  injection Hw1 as <-. injection Hw3 as <-. injection Hw5 as <-.
  assert (Emass : wmass = map massLine (enumerate (massList sdT))).
  { rewrite <- (map_map massLine Some), writeAll_Some in Hwmass.
    injection Hwmass as <-. reflexivity. }
  assert (Hcount : countAtoms (groupDictionaries sdT) s2 0
                   = countAtoms (groupDictionaries groupDictionary) s 0).
  { apply countAtoms_rows. eapply Forall2_impl; [exact Hgroups|].
    intros g g' (_ & _ & q & q' & Hq & Hq' & Hlen).
    exists q, q'. split; [exact Hq|]. split; [|exact Hlen].
    rewrite Hfresh; [exact Hq' | exact (mk_is_Some _ _ Hq')]. }
  assert (Hatoms : getNumberOfAtoms groupDictionary s
                   = Some (Z.of_nat (length watoms))).
  { unfold getNumberOfAtoms. rewrite <- Hcount.
    pose proof (groupLines_count fmt5 s2 (groupDictionaries sdT)) as Hc.
    rewrite Hwatoms in Hc. exact (Hc eq_refl). }
  exists wbox, watoms. rewrite Emass, HnAtoms, Htypes, Hmass.
  split; [reflexivity|]. split.
  { pose proof (writeAll_length
                  (map (fun i => box ← s2 !! l; boxSizeLine box i) (seq 0 3)))
      as Hlen.
    rewrite Hwbox in Hlen. cbn [fst snd] in Hlen. rewrite (Hlen eq_refl).
    reflexivity. }
  split; [exact Hatoms|].
  intros sd0 Hrefresh.
  apply refreshMetaData_nAtoms in Hrefresh. rewrite Hatoms in Hrefresh.
  congruence.
Qed.

End LAMMPSDataWritten.

Lemma simulationDictionaryToLAMMPSData_default_witness :
  simulationDictionaryToLAMMPSData exampleFmt5 exampleSimulation None
    exampleStore
  = (exampleStore, [], false).
Proof.
  apply simulationDictionaryToLAMMPSData_default. reflexivity.
Defined.

Lemma simulationDictionaryToLAMMPSData_written_witness :
  exists (s' : store IntNum.t) (written atomLines : list string),
    simulationDictionaryToLAMMPSData exampleFmt5 exampleSimulation
      (Some (IntNum.PyFloat 5)) exampleStore = (s', written, true) /\
    getNumberOfAtoms exampleSimulation exampleStore
    = Some (Z.of_nat (length atomLines)).
Proof.
  destruct (simulationDictionaryToLAMMPSData exampleFmt5 exampleSimulation
              (Some (IntNum.PyFloat 5)) exampleStore)
    as [[s' written] ok] eqn:Hcall.
  assert (Hok : ok = true).
  { vm_compute in Hcall. injection Hcall as _ _ <-. reflexivity. }
  subst ok.
  destruct (simulationDictionaryToLAMMPSData_written exampleFmt5 _ _ _ _ _
              example_arrays_in_store Hcall)
    as (_ & boxLines & atomLines & _ & _ & Hn & _).
  exists s', written, atomLines. split; [reflexivity | exact Hn].
Defined.
